(** * Email visual tester: the filename sanitizer, the Email on Acid poller
      and the preview materializer

    A shallow embedding of [src/utils/filename.ts] (sanitizeFilename), of the
    [EmailOnAcidService] class (its constructor, createAuthHeader, injectHtml
    by how its request ends, getPreviewUrls and its private helpers), of the
    service factory, of [globalSetup] in its two variants with the files it
    writes, of the suite that blueprint.spec.ts declares and of the project
    name of playwright.config.ts.

    Modelling conventions.
    - A JavaScript string is a Rocq [string]; each character stands for one
      code unit in the Latin-1 range (0..255).  On that range
      [String.prototype.toLowerCase], [toUpperCase] and the regular expression
      classes [\s], [\w] and [\b] are given below exactly.
    - A JavaScript object used as a dictionary ([Record<string, T>]) is a
      [gmap string T] holding its own properties.  Reading [object[id]] and
      testing [id in object] also see the members that every object
      inherits from [Object.prototype]; [Object.keys], [Object.values] and
      [Object.entries] do not.  The enumeration order of the keys is not
      modelled.
    - A JavaScript number that is compared with attempt numbers is a
      rational; [NaN] and the infinities are not modelled ([NaN] compares
      as any bound below 1 does: no attempt is made).
    - Network answers are supplied by an oracle indexed by the attempt
      number; console output is dropped; the fetches and sleeps a run
      performs are recorded in a trace. *)

From Stdlib Require Import Ascii String NArith QArith Qround.
From stdpp Require Import gmap strings list fin_maps.

Local Open Scope string_scope.
Local Open Scope nat_scope.

(* ===================================================================== *)
(** ** Characters *)
(* ===================================================================== *)

Definition code (c : ascii) : N := N_of_ascii c.

Definition between (lo hi : N) (c : ascii) : bool :=
  ((lo <=? code c) && (code c <=? hi))%N.

(** [a-z] and [0-9]. *)
Definition is_lower (c : ascii) : bool := between 97 122 c.
Definition is_upper (c : ascii) : bool := between 65 90 c.
Definition is_digit (c : ascii) : bool := between 48 57 c.

(** [\s] on the Latin-1 range: TAB, LF, VT, FF, CR, SPACE and NBSP. *)
Definition is_space (c : ascii) : bool :=
  between 9 13 c || (code c =? 32)%N || (code c =? 160)%N.

(** [\w]: [A-Za-z0-9_]. *)
Definition is_word (c : ascii) : bool :=
  is_lower c || is_upper c || is_digit c || (code c =? 95)%N.

(** One code unit of [toLowerCase]: A-Z and the Latin-1 capitals
    U+00C0..U+00DE (U+00D7, the multiplication sign, excepted) move up by 32. *)
Definition toLowerChar (c : ascii) : ascii :=
  if is_upper c || (between 192 222 c && negb (code c =? 215)%N)
  then ascii_of_N (code c + 32) else c.

(** One code unit of [toUpperCase], as applied to a [\w] character. *)
Definition toUpperChar (c : ascii) : ascii :=
  if is_lower c then ascii_of_N (code c - 32) else c.

Fixpoint map_chars (f : ascii -> ascii) (s : string) : string :=
  match s with
  | EmptyString => EmptyString
  | String c t => String (f c) (map_chars f t)
  end.

Fixpoint filter_chars (p : ascii -> bool) (s : string) : string :=
  match s with
  | EmptyString => EmptyString
  | String c t => if p c then String c (filter_chars p t) else filter_chars p t
  end.

Fixpoint all_chars (p : ascii -> bool) (s : string) : bool :=
  match s with
  | EmptyString => true
  | String c t => p c && all_chars p t
  end.

Definition toLowerCase (s : string) : string := map_chars toLowerChar s.

(* ===================================================================== *)
(** ** sanitizeFilename *)
(* ===================================================================== *)

(** The characters the class [[^a-z0-9\s-.]] does not match, that is the
    ones the first [replace] keeps. *)
Definition kept (c : ascii) : bool :=
  is_lower c || is_digit c || is_space c
  || (code c =? 45)%N || (code c =? 46)%N.

(** [s.replace(/\s+/g, separator)]: every maximal run of white space becomes
    one separator.  [in_run] tells that the previous character was white
    space, already replaced. *)
Fixpoint replaceSpaceRuns (separator : ascii) (in_run : bool) (s : string)
  : string :=
  match s with
  | EmptyString => EmptyString
  | String c t =>
      if is_space c
      then if in_run then replaceSpaceRuns separator true t
           else String separator (replaceSpaceRuns separator true t)
      else String c (replaceSpaceRuns separator false t)
  end.

Definition sanitizeFilename (name : string) (useHyphens : bool) : string :=
  let cleaned := filter_chars kept (toLowerCase name) in
  let separator := if useHyphens then "-"%char else "_"%char in
  String.substring 0 100 (replaceSpaceRuns separator false cleaned).

(** The characters of an output: [a-z0-9.-] and the separator. *)
Definition final (separator : ascii) (c : ascii) : bool :=
  is_lower c || is_digit c || (code c =? 45)%N || (code c =? 46)%N
  || Ascii.eqb c separator.

Definition not_underscore (c : ascii) : bool := negb (code c =? 95)%N.

(* ===================================================================== *)
(** ** The status snapshot and the captured-URL map *)
(* ===================================================================== *)

(** What the poller reads of [client = results[clientId]]: [client.status]
    ([None] when it is missing or not a string) and
    [client.screenshots?.default] ([None] when it is missing or
    [typeof screenshotUrl !== 'string']). *)
Record ClientData := {
  status : option string;
  screenshots_default : option string
}.

(** A value stored in the snapshot: [Falsy] is one that [!client] rejects
    ([null], [false], [0], the empty string), [Client] any other. *)
Inductive ClientValue :=
| Falsy
| Client (data : ClientData).

(** [results : Record<string, any>] and
    [capturedUrls : Record<string, string>]. *)
Abbreviation Results := (gmap string ClientValue).
Abbreviation CapturedUrls := (gmap string string).

(** Truthiness of a string, and of [capturedUrls[id]], which is [undefined]
    where the key is missing. *)
Definition truthy_string (s : string) : bool := negb (String.eqb s "").

Definition truthy (v : option string) : bool :=
  match v with
  | Some s => truthy_string s
  | None => false
  end.

(** The names of the members of [Object.prototype].  An object written as
    [{}] or parsed from JSON inherits them: [object[name]] is a function
    (for [__proto__], the prototype itself) unless the object has a
    property of its own under that name. *)
Definition Object_prototype : list string :=
  ["constructor"; "__defineGetter__"; "__defineSetter__"; "hasOwnProperty";
   "__lookupGetter__"; "__lookupSetter__"; "isPrototypeOf";
   "propertyIsEnumerable"; "toString"; "valueOf"; "__proto__";
   "toLocaleString"].

Definition inherited (id : string) : bool :=
  bool_decide (id ∈ Object_prototype).

(** What the poller reads of an inherited member: it is truthy and has
    neither [status] nor [screenshots]. *)
Definition prototype_member : ClientData :=
  {| status := None; screenshots_default := None |}.

(** [results[id]], when it is truthy. *)
Definition client_of (results : Results) (id : string) : option ClientData :=
  match results !! id with
  | Some (Client data) => Some data
  | Some Falsy => None
  | None => if inherited id then Some prototype_member else None
  end.

(** Truthiness of [capturedUrls[id]], [v] being the property of its own
    that the map holds for [id]: where there is none, the value is the
    inherited member, or [undefined]. *)
Definition truthy_at (id : string) (v : option string) : bool :=
  match v with
  | Some s => truthy_string s
  | None => inherited id
  end.

(** [object[id] = value] for a string [value].  The inherited [__proto__]
    is an accessor whose setter ignores a string, so that no property is
    created under that name; an object that has a property of its own
    under it is written to as under any other name. *)
Definition assign (id value : string) (object : CapturedUrls) : CapturedUrls :=
  if String.eqb id "__proto__" && negb (bool_decide (is_Some (object !! id)))
  then object
  else <[id := value]> object.

(** [status === lit]. *)
Definition status_is (lit : string) (st : option string) : bool :=
  match st with
  | Some s => String.eqb s lit
  | None => false
  end.

Definition Object_keys (results : Results) : list string :=
  (map_to_list results).*1.

(** [requestedClients.length > 0 ? requestedClients : Object.keys(results)]. *)
Definition clientsToCheck (requestedClients : list string) (results : Results)
  : list string :=
  if 0 <? length requestedClients then requestedClients
  else Object_keys results.

(* ===================================================================== *)
(** ** processClientResults and its two handlers *)
(* ===================================================================== *)

Definition handleCompleteClient (clientId : string) (client : ClientData)
    (capturedUrls : CapturedUrls) : CapturedUrls :=
  match screenshots_default client with
  | Some screenshotUrl =>
      if truthy_string screenshotUrl then
        if negb (truthy_at clientId (capturedUrls !! clientId))
        then assign clientId screenshotUrl capturedUrls
        else capturedUrls
      else capturedUrls
  | None => capturedUrls
  end.

(** The empty string signals a failure. *)
Definition handleFailedClient (clientId : string) (st : option string)
    (capturedUrls : CapturedUrls) : CapturedUrls :=
  if negb (truthy_at clientId (capturedUrls !! clientId))
  then assign clientId "" capturedUrls
  else capturedUrls.

(** The body of the [for ... of clientsToCheck] loop, threading
    [clientsFound] and [capturedUrls]. *)
Fixpoint processClients (results : Results) (clients : list string)
    (clientsFound : list string) (capturedUrls : CapturedUrls)
  : list string * CapturedUrls :=
  match clients with
  | [] => (clientsFound, capturedUrls)
  | clientId :: rest =>
      match client_of results clientId with
      | None => processClients results rest clientsFound capturedUrls
      | Some client =>
          let clientsFound' := (clientsFound ++ [clientId])%list in
          let st := status client in
          if status_is "Complete" st then
            processClients results rest clientsFound'
              (handleCompleteClient clientId client capturedUrls)
          else if status_is "Failed" st || status_is "Bounced" st then
            processClients results rest clientsFound'
              (handleFailedClient clientId st capturedUrls)
          else processClients results rest clientsFound' capturedUrls
      end
  end.

Definition processClientResults (results : Results)
    (requestedClients : list string) (capturedUrls : CapturedUrls)
  : list string * CapturedUrls :=
  processClients results (clientsToCheck requestedClients results) []
    capturedUrls.

(* ===================================================================== *)
(** ** checkIfShouldExit *)
(* ===================================================================== *)

Definition appearedClients (requestedClients : list string)
    (results : Results) : list string :=
  List.filter (fun id => bool_decide (is_Some (client_of results id)))
    (clientsToCheck requestedClients results).

Definition is_finished (results : Results) (id : string) : bool :=
  let st := client_of results id ≫= status in
  status_is "Complete" st || status_is "Failed" st || status_is "Bounced" st.

Definition finishedClients (requestedClients : list string)
    (results : Results) : list string :=
  List.filter (is_finished results) (appearedClients requestedClients results).

Definition allFinished (requestedClients : list string) (results : Results)
  : bool :=
  length (finishedClients requestedClients results)
  =? length (appearedClients requestedClients results).

Definition allRequestedAppeared (requestedClients : list string)
    (results : Results) : bool :=
  length (appearedClients requestedClients results)
  =? length (clientsToCheck requestedClients results).

Definition waitedLongEnough (attempt : nat) : bool := 10 <=? attempt.

Definition completeClients (requestedClients : list string)
    (results : Results) : list string :=
  List.filter (fun id => status_is "Complete" (client_of results id ≫= status))
    (appearedClients requestedClients results).

Definition completeWithUrls (requestedClients : list string)
    (results : Results) (capturedUrls : CapturedUrls) : list string :=
  List.filter
    (fun id => truthy_at id (capturedUrls !! id)
               && match capturedUrls !! id with
                  | Some u => negb (String.eqb u "")
                  | None => true
                  end)
    (completeClients requestedClients results).

Definition allCompleteHaveUrls (requestedClients : list string)
    (results : Results) (capturedUrls : CapturedUrls) : bool :=
  length (completeWithUrls requestedClients results capturedUrls)
  =? length (completeClients requestedClients results).

Definition triedEnoughForScreenshots (attempt : nat) : bool := 15 <=? attempt.

Definition checkIfShouldExit (requestedClients : list string)
    (results : Results) (capturedUrls : CapturedUrls)
    (clientsInResults : list string) (attempt : nat) : bool :=
  if length (Object_keys results) =? 0 then false
  else if negb (allFinished requestedClients results) then false
  else if negb (allRequestedAppeared requestedClients results)
          && negb (waitedLongEnough attempt) then false
  else if allCompleteHaveUrls requestedClients results capturedUrls
          || triedEnoughForScreenshots attempt then true
  else false.

(* ===================================================================== *)
(** ** fetchResults, wait and the polling loop of getPreviewUrls *)
(* ===================================================================== *)

(** How the [axios.get] of one attempt ends: a response with its body
    ([None] when [response.data] is falsy), an axios error with
    [error.response?.status], or any other exception. *)
Inductive AxiosOutcome :=
| Responded (data : option Results)
| AxiosError (httpStatus : option nat)
| OtherError.

(** A computation that may throw: [inl msg] is [throw new Error(msg)]. *)
Definition Throws (A : Type) : Type := string + A.

(** [null] is [inr None]. *)
Definition fetchResults (o : AxiosOutcome) : Throws (option Results) :=
  match o with
  | Responded (Some data) => inr (Some data)
  | Responded None => inr (Some ∅)
  | AxiosError httpStatus =>
      if bool_decide (httpStatus = Some 401)
      then inl "Authentication failed - check your API credentials"
      else inr None
  | OtherError => inr None
  end.

(** What a run does to the outside world. *)
Inductive Event :=
| EvFetch (attempt : nat)
| EvSleep (attempt : nat).

(** A whole number as a JavaScript number. *)
Definition whole (n : nat) : Q := inject_Z (Z.of_nat n).

Coercion whole : nat >-> Q.

(** [attempt <= maxAttempts] and [currentAttempt < maxAttempts], an attempt
    number being compared with any number. *)
Definition attempt_le (attempt : nat) (maxAttempts : Q) : bool :=
  Qle_bool (whole attempt) maxAttempts.

Definition attempt_lt (attempt : nat) (maxAttempts : Q) : bool :=
  negb (Qle_bool maxAttempts (whole attempt)).

Definition wait (currentAttempt : nat) (maxAttempts : Q) : list Event :=
  if attempt_lt currentAttempt maxAttempts then [EvSleep currentAttempt]
  else [].

(** How the [for] loop is left: by [break], by its condition
    [attempt <= maxAttempts] failing, or by an exception.  [OutOfFuel] is the
    model's own: the recursion ran out before the loop was left. *)
Inductive LoopEnd :=
| Break (capturedUrls : CapturedUrls)
| Exhausted (capturedUrls : CapturedUrls)
| Throw (msg : string)
| OutOfFuel.

Definition after (evs : list Event) (r : list Event * LoopEnd)
  : list Event * LoopEnd :=
  ((evs ++ r.1)%list, r.2).

Fixpoint pollLoop (net : nat -> AxiosOutcome) (emailClients : list string)
    (maxAttempts : Q) (fuel : nat) (attempt : nat)
    (capturedUrls : CapturedUrls) : list Event * LoopEnd :=
  if negb (attempt_le attempt maxAttempts) then ([], Exhausted capturedUrls)
  else
    match fuel with
    | 0 => ([], OutOfFuel)
    | S fuel' =>
        match fetchResults (net attempt) with
        | inl msg => ([EvFetch attempt], Throw msg)
        | inr None =>
            after (EvFetch attempt :: wait attempt maxAttempts)
              (pollLoop net emailClients maxAttempts fuel' (S attempt)
                 capturedUrls)
        | inr (Some results) =>
            let '(clientsInResults, capturedUrls') :=
              processClientResults results emailClients capturedUrls in
            if checkIfShouldExit emailClients results capturedUrls'
                 clientsInResults attempt
            then ([EvFetch attempt], Break capturedUrls')
            else
              after (EvFetch attempt :: wait attempt maxAttempts)
                (pollLoop net emailClients maxAttempts fuel' (S attempt)
                   capturedUrls')
        end
    end.

(** The loop over [Object.entries(capturedUrls)]. *)
Definition buildFinalResults (requestedClients : list string)
    (capturedUrls : CapturedUrls) : CapturedUrls :=
  foldl (fun successfulUrls '(id, url) =>
           if truthy_string url && negb (String.eqb url "")
           then assign id url successfulUrls
           else successfulUrls)
        ∅ (map_to_list capturedUrls).

Inductive Outcome :=
| Returned (urls : CapturedUrls)
| Thrown (msg : string)
| Unfinished.

(** The number of attempts that a bound allows: its integer part, or none
    when it is negative. *)
Definition budget (maxAttempts : Q) : nat := Z.to_nat (Qfloor maxAttempts).

(** [test_id] is [None] when the property is missing.  [maxAttempts] is the
    value of [Number(process.env.EOA_MAX_ATTEMPTS || 60)], a finite number.
    The recursion is given as many steps as the bound allows attempts. *)
Definition getPreviewUrls (net : nat -> AxiosOutcome) (maxAttempts : Q)
    (test_id : option string) (emailClients : list string)
  : list Event * Outcome :=
  if negb (truthy test_id) then ([], Thrown "Missing test ID")
  else
    let '(tr, e) :=
      pollLoop net emailClients maxAttempts (budget maxAttempts) 1 ∅ in
    (tr, match e with
         | Break capturedUrls | Exhausted capturedUrls =>
             Returned (buildFinalResults emailClients capturedUrls)
         | Throw msg => Thrown msg
         | OutOfFuel => Unfinished
         end).

(* ===================================================================== *)
(** ** The preview list of globalSetup *)
(* ===================================================================== *)

(** [client.replace(/_/g, ' ')]. *)
Definition underscoresToSpaces (s : string) : string :=
  map_chars (fun c => if (code c =? 95)%N then " "%char else c) s.

(** [s.replace(/\b\w/g, char => char.toUpperCase())]: a [\w] character is
    matched where the one before it is not [\w] (or there is none).
    [prev_word] tells that the previous character is [\w]. *)
Fixpoint upperAtWordStart (prev_word : bool) (s : string) : string :=
  match s with
  | EmptyString => EmptyString
  | String c t =>
      String (if is_word c && negb prev_word then toUpperChar c else c)
             (upperAtWordStart (is_word c) t)
  end.

Definition previewName (client : string) : string :=
  (upperAtWordStart false (underscoresToSpaces client) ++ " Preview")%string.

Record GeneratedPreview := {
  name : string;
  url : string;
  client : string
}.

Definition generatedPreviews (previewUrlsMap : CapturedUrls)
  : list GeneratedPreview :=
  (fun '(c, u) => {| name := previewName c; url := u; client := c |})
    <$> map_to_list previewUrlsMap.

(* ===================================================================== *)
(** ** The specification's wording, for comparison with the code *)
(* ===================================================================== *)

(** The definitions of this part follow the specification and do not use
    those of the code above: a snapshot is read by its own keys only. *)

(** Terminal status: Complete, Failed or Bounced. *)
Definition terminal_status (st : option string) : Prop :=
  st = Some "Complete" ∨ st = Some "Failed" ∨ st = Some "Bounced".

#[global] Instance terminal_status_dec st : Decision (terminal_status st).
Proof. unfold terminal_status. apply _. Defined.

(** The clients of the job: the requested ones, or every client named in
    the snapshot when none is requested. *)
Definition clients_in_scope (requestedClients : list string)
    (results : Results) : list string :=
  match requestedClients with
  | [] => elements (dom results : gset string)
  | _ :: _ => requestedClients
  end.

(** The entry that a snapshot holds for a client. *)
Definition snapshot_entry (results : Results) (id : string)
  : option ClientData :=
  match results !! id with
  | Some (Client data) => Some data
  | Some Falsy | None => None
  end.

(** A client has appeared in a snapshot. *)
Definition appeared (results : Results) (id : string) : Prop :=
  is_Some (snapshot_entry results id).

#[global] Instance appeared_dec results id : Decision (appeared results id).
Proof. unfold appeared. apply _. Defined.

(** A non-empty artifact URL has been captured for a client. *)
Definition has_url (capturedUrls : CapturedUrls) (id : string) : Prop :=
  ∃ u, capturedUrls !! id = Some u ∧ u ≠ "".

#[global] Instance has_url_dec capturedUrls id :
  Decision (has_url capturedUrls id).
Proof.
  unfold has_url. destruct (capturedUrls !! id) as [u|].
  - destruct (decide (u = "")) as [->|Hne].
    + right. intros (u' & [= <-] & Hu). by apply Hu.
    + left. by exists u.
  - right. by intros (u' & [=] & _).
Defined.

(** The status the backend reports for a client in a snapshot. *)
Definition reported_status (results : Results) (id : string) : option string :=
  snapshot_entry results id ≫= status.

(** No client bears the name of a member of [Object.prototype]. *)
Definition plain_names (ids : list string) : Prop :=
  Forall (fun id => id ∉ Object_prototype) ids.

#[global] Instance plain_names_dec ids : Decision (plain_names ids).
Proof. unfold plain_names. apply _. Defined.

(** Every appeared client has a terminal status. *)
Definition AllFinished (requestedClients : list string) (results : Results)
  : Prop :=
  Forall (fun id => appeared results id →
                    terminal_status (reported_status results id))
         (clients_in_scope requestedClients results).

#[global] Instance AllFinished_dec requestedClients results :
  Decision (AllFinished requestedClients results).
Proof. unfold AllFinished. apply _. Defined.

(** Every requested client has appeared. *)
Definition AllRequestedAppeared (requestedClients : list string)
    (results : Results) : Prop :=
  Forall (appeared results) (clients_in_scope requestedClients results).

#[global] Instance AllRequestedAppeared_dec requestedClients results :
  Decision (AllRequestedAppeared requestedClients results).
Proof. unfold AllRequestedAppeared. apply _. Defined.

(** Every terminal-success client has a captured non-empty artifact URL. *)
Definition AllCompleteHaveUrls (requestedClients : list string)
    (results : Results) (capturedUrls : CapturedUrls) : Prop :=
  Forall (fun id => reported_status results id = Some "Complete" →
                    has_url capturedUrls id)
         (clients_in_scope requestedClients results).

#[global] Instance AllCompleteHaveUrls_dec requestedClients results capturedUrls :
  Decision (AllCompleteHaveUrls requestedClients results capturedUrls).
Proof. unfold AllCompleteHaveUrls. apply _. Defined.

(** The ordered, short-circuit termination rule. *)
Definition exit_rule (requestedClients : list string) (results : Results)
    (capturedUrls : CapturedUrls) (attempt : nat) : bool :=
  if bool_decide (results = ∅) then false
  else if bool_decide (¬ AllFinished requestedClients results) then false
  else if bool_decide (¬ AllRequestedAppeared requestedClients results
                       ∧ attempt < 10) then false
  else if bool_decide (AllCompleteHaveUrls requestedClients results
                         capturedUrls ∨ 15 ≤ attempt) then true
  else false.

(** The session-wide reading of [allFinished]: [history] lists the
    snapshots of the attempts so far, the current one last; a client's
    status is the one of the latest snapshot it appears in. *)
Definition appeared_so_far (history : list Results) (id : string) : Prop :=
  Exists (fun results => appeared results id) history.

#[global] Instance appeared_so_far_dec history id :
  Decision (appeared_so_far history id).
Proof. unfold appeared_so_far. apply _. Defined.

Fixpoint latest_status (history : list Results) (id : string)
  : option string :=
  match history with
  | [] => None
  | results :: later =>
      if bool_decide (appeared_so_far later id) then latest_status later id
      else reported_status results id
  end.

Definition allFinished_session (history : list Results)
    (ids : list string) : Prop :=
  Forall (fun id => appeared_so_far history id →
                    terminal_status (latest_status history id)) ids.

(** The label in the claim's words: the string is cut into words (maximal
    runs of word characters) and single other characters, and the first
    character of each word is uppercased. *)
Definition starts_with_word (w : string) : bool :=
  match w with
  | EmptyString => false
  | String c _ => is_word c
  end.

Fixpoint chunks (s : string) : list string :=
  match s with
  | EmptyString => []
  | String c t =>
      match chunks t with
      | w :: ws =>
          if is_word c && starts_with_word w then String c w :: ws
          else String c EmptyString :: w :: ws
      | [] => [String c EmptyString]
      end
  end.

Definition capitalize (w : string) : string :=
  match w with
  | EmptyString => EmptyString
  | String c t => if is_word c then String (toUpperChar c) t else w
  end.

Definition label_of_words (s : string) : string :=
  String.concat "" (capitalize <$> chunks s).

(** The snapshots a run has processed: those of the attempts it fetched
    that were answered with data. *)
Definition processed (net : nat -> AxiosOutcome) (tr : list Event)
    (k : nat) (results : Results) : Prop :=
  EvFetch k ∈ tr ∧ fetchResults (net k) = inr (Some results).

Definition fetch_count (tr : list Event) : nat :=
  length (List.filter (fun e => match e with EvFetch _ => true | _ => false end)
            tr).

(** What processing one snapshot does to the entry [v = capturedUrls[id]]
    of a client that is checked. *)
Definition entry_step (results : Results) (id : string) (v : option string)
  : option string :=
  match client_of results id with
  | None => v
  | Some client =>
      if status_is "Complete" (status client) then
        match screenshots_default client with
        | Some u =>
            if truthy_string u && negb (truthy_at id v) then Some u else v
        | None => v
        end
      else if status_is "Failed" (status client)
              || status_is "Bounced" (status client) then
        if negb (truthy_at id v) then Some "" else v
      else v
  end.

(** The captured-URL map after a sequence of snapshots, each processed by
    one poll attempt. *)
Definition processAll (requestedClients : list string)
    (snapshots : list Results) (capturedUrls : CapturedUrls) : CapturedUrls :=
  foldl (fun caps results =>
           (processClientResults results requestedClients caps).2)
        capturedUrls snapshots.

(** The snapshots a run has processed, in order. *)
Definition snapshots_of (net : nat -> AxiosOutcome) (tr : list Event)
  : list Results :=
  omap (fun e => match e with
                 | EvFetch k =>
                     match fetchResults (net k) with
                     | inr (Some results) => Some results
                     | _ => None
                     end
                 | EvSleep _ => None
                 end) tr.

(** The captured-URL map the loop is left with. *)
Definition caps_of (e : LoopEnd) : option CapturedUrls :=
  match e with
  | Break capturedUrls | Exhausted capturedUrls => Some capturedUrls
  | Throw _ | OutOfFuel => None
  end.


Definition auth_message : string :=
  "Authentication failed - check your API credentials".

(** A snapshot reports a client Complete with a screenshot URL. *)
Definition completes_with (results : Results) (id u : string) : Prop :=
  ∃ d, snapshot_entry results id = Some d
       ∧ status d = Some "Complete" ∧ screenshots_default d = Some u.

(** A snapshot reports a client Failed or Bounced. *)
Definition fails_in (results : Results) (id : string) : Prop :=
  ∃ d, snapshot_entry results id = Some d
       ∧ (status d = Some "Failed" ∨ status d = Some "Bounced").

(** The non-empty screenshot URL that a snapshot reports for a client as
    Complete, and the first one that a sequence of snapshots reports. *)
Definition complete_url (results : Results) (id : string) : option string :=
  match snapshot_entry results id with
  | Some d =>
      match status d, screenshots_default d with
      | Some st, Some u =>
          if String.eqb st "Complete" && negb (String.eqb u "") then Some u
          else None
      | _, _ => None
      end
  | None => None
  end.

Fixpoint first_url (snapshots : list Results) (id : string) : option string :=
  match snapshots with
  | [] => None
  | results :: later =>
      match complete_url results id with
      | Some u => Some u
      | None => first_url later id
      end
  end.

(** The URL that an entry of the captured-URL map holds, the failure marker
    being none. *)
Definition captured_url (v : option string) : option string :=
  match v with
  | Some u => if truthy_string u then Some u else None
  | None => None
  end.

(** A client is among those the job asks for: it is requested, or none
    is. *)
Definition wanted (requestedClients : list string) (id : string) : Prop :=
  requestedClients = [] ∨ id ∈ requestedClients.

#[global] Instance wanted_dec requestedClients id :
  Decision (wanted requestedClients id).
Proof. unfold wanted. apply _. Defined.

(** The request of an attempt ended in an error. *)
Definition is_fetch_error (o : AxiosOutcome) : Prop :=
  match o with
  | Responded _ => False
  | AxiosError _ | OtherError => True
  end.

(* ===================================================================== *)
(** ** playwright.config.ts: the project name *)
(* ===================================================================== *)

(** The configuration file carries its own copy of the sanitizer, with the
    hyphen built in. *)
Module PlaywrightConfig.

Definition sanitizeFilename (name : string) : string :=
  String.substring 0 100
    (replaceSpaceRuns "-" false (filter_chars kept (toLowerCase name))).

(** [taskName ? sanitizeFilename(taskName) : 'staging'], [taskName] being
    [process.env.TASK_NAME]. *)
Definition projectName (taskName : option string) : string :=
  match taskName with
  | Some t => if truthy_string t then sanitizeFilename t else "staging"
  | None => "staging"
  end.

End PlaywrightConfig.

(* ===================================================================== *)
(** ** blueprint.spec.ts: the screenshot file name *)
(* ===================================================================== *)

(** [[a-z0-9]]. *)
Definition is_alnum (c : ascii) : bool := is_lower c || is_digit c.

(** [s.replace(/[^a-z0-9]+/g, '-')]: every maximal run of other characters
    becomes one hyphen. *)
Fixpoint replaceOtherRuns (in_run : bool) (s : string) : string :=
  match s with
  | EmptyString => EmptyString
  | String c t =>
      if is_alnum c then String c (replaceOtherRuns false t)
      else if in_run then replaceOtherRuns true t
           else String "-" (replaceOtherRuns true t)
  end.

(** [preview.client.toLowerCase().replace(/[^a-z0-9]+/g, '-')]. *)
Definition screenshotBase (client : string) : string :=
  replaceOtherRuns false (toLowerCase client).

Definition screenshotName (client : string) : string :=
  (screenshotBase client ++ ".png")%string.

(** No two hyphens in a row. *)
Fixpoint no_double_hyphen (s : string) : bool :=
  match s with
  | EmptyString => true
  | String c t =>
      match t with
      | String d _ =>
          negb ((code c =? 45)%N && (code d =? 45)%N) && no_double_hyphen t
      | EmptyString => true
      end
  end.

Definition underscore_to_hyphen (c : ascii) : ascii :=
  if (code c =? 95)%N then "-"%char else c.

(** The characters of a screenshot base name: [a-z0-9-]. *)
Definition alnum_or_hyphen (c : ascii) : bool :=
  is_alnum c || (code c =? 45)%N.

Definition starts_with_hyphen (s : string) : bool :=
  match s with
  | EmptyString => false
  | String c _ => (code c =? 45)%N
  end.

(** What the screenshot name keeps of a character: its lowercase form when
    that is in [a-z0-9], a hyphen otherwise. *)
Definition screenshot_class (c : ascii) : ascii :=
  if is_alnum (toLowerChar c) then toLowerChar c else "-"%char.

(** The fetches and sleeps of [n] attempts from [attempt] on: a fetch per
    attempt, a sleep between two fetches, none after the last. *)
Fixpoint schedule (attempt n : nat) : list Event :=
  match n with
  | 0 => []
  | S n' =>
      match n' with
      | 0 => [EvFetch attempt]
      | S _ => EvFetch attempt :: EvSleep attempt :: schedule (S attempt) n'
      end
  end.

(* ===================================================================== *)
(** ** The figures that buildFinalResults and showProgress print *)
(* ===================================================================== *)

(** [Object.keys(successfulUrls).length]. *)
Definition successCount (requestedClients : list string)
    (capturedUrls : CapturedUrls) : nat :=
  length (map_to_list (buildFinalResults requestedClients capturedUrls)).*1.

(** [Object.values(capturedUrls).filter(url => url === '').length]. *)
Definition failedCount (capturedUrls : CapturedUrls) : nat :=
  length (List.filter (fun url => String.eqb url "")
            (map_to_list capturedUrls).*2).

(** [requestedClients.filter(id => !(id in capturedUrls))]. *)
Definition neverAppeared (requestedClients : list string)
    (capturedUrls : CapturedUrls) : list string :=
  List.filter
    (fun id => negb (bool_decide (is_Some (capturedUrls !! id))
                     || inherited id))
    requestedClients.

(** [successCount === requestedClients.length]: the "All n screenshot(s)
    ready" message is printed rather than the warning. *)
Definition allReady (requestedClients : list string)
    (capturedUrls : CapturedUrls) : bool :=
  successCount requestedClients capturedUrls =? length requestedClients.

(** The lines of showProgress, console texts being kept as data:
    "Progress: n/m captured", "Pending: ..." and
    "Complete but URL missing: ...". *)
Inductive ProgressLine :=
| ProgressCaptured (successCount total : nat)
| ProgressPending (ids : list string)
| ProgressUrlMissing (ids : list string).

(** [Object.keys(capturedUrls).filter(id => capturedUrls[id] !== '').length]. *)
Definition progressCount (capturedUrls : CapturedUrls) : nat :=
  length (List.filter
            (fun id => negb (bool_decide (capturedUrls !! id = Some "")))
            (map_to_list capturedUrls).*1).

Definition progressPending (requestedClients : list string)
    (results : Results) : list string :=
  List.filter
    (fun id =>
       match client_of results id with
       | None => true
       | Some client =>
           negb (status_is "Complete" (status client))
           && negb (status_is "Failed" (status client))
           && negb (status_is "Bounced" (status client))
       end)
    requestedClients.

Definition progressCompleteNoUrl (requestedClients : list string)
    (results : Results) (capturedUrls : CapturedUrls) : list string :=
  List.filter
    (fun id =>
       status_is "Complete" (client_of results id ≫= status)
       && negb (truthy_at id (capturedUrls !! id)))
    requestedClients.

Definition showProgress (requestedClients : list string) (results : Results)
    (capturedUrls : CapturedUrls) (attempt : nat) (showDebug : bool)
  : list ProgressLine :=
  if negb (attempt mod 5 =? 0) && negb showDebug then []
  else
    ProgressCaptured (progressCount capturedUrls) (length requestedClients)
    :: if negb showDebug then []
       else
         let pending := progressPending requestedClients results in
         let completeNoUrl :=
           progressCompleteNoUrl requestedClients results capturedUrls in
         ((if 0 <? length pending then [ProgressPending pending] else [])
          ++ (if 0 <? length completeNoUrl
              then [ProgressUrlMissing completeNoUrl] else []))%list.

(* ===================================================================== *)
(** ** service-factory.ts and the head of the service class *)
(* ===================================================================== *)

(** An instance of [EmailOnAcidService]. *)
Record EmailOnAcidService := {
  apiKey : string;
  password : string;
  baseUrl : string
}.

(** The constructor. *)
Definition new_EmailOnAcidService (key pass : string)
  : Throws EmailOnAcidService :=
  if negb (truthy_string key) || negb (truthy_string pass)
  then inl "EmailOnAcidService: API key and password are required."
  else inr {| apiKey := key; password := pass;
              baseUrl := "https://api.emailonacid.com" |}.

(** [accountPassword] is [None] when the optional argument is left out.
    The case ['litmus'] has no statement of its own and falls through to
    [default]. *)
Definition getEmailPreviewService (serviceName key : string)
    (accountPassword : option string) : Throws EmailOnAcidService :=
  let selector := toLowerCase serviceName in
  if String.eqb selector "emailonacid" then
    match accountPassword with
    | Some pass =>
        if truthy_string pass then new_EmailOnAcidService key pass
        else inl "EmailOnAcidService requires both API key and password."
    | None => inl "EmailOnAcidService requires both API key and password."
    end
  else if String.eqb selector "litmus" then
    inl ("Unsupported preview service: " ++ serviceName)%string
  else inl ("Unsupported preview service: " ++ serviceName)%string.

(** How the [axios.post] of injectHtml ends: a response with
    [response.data?.id] ([None] when it is missing), or an error with its
    message. *)
Inductive PostOutcome :=
| PostResponded (id : option string)
| PostFailed (message : string).

(** injectHtml, by how its request ends; the result is the [test_id] of
    the returned object.  The payload of the request is not modelled.  The
    error thrown in the [try] block is caught, printed and thrown again, as
    every other error is. *)
Definition injectHtml (o : PostOutcome) : Throws string :=
  match o with
  | PostResponded (Some id) =>
      if truthy_string id then inr id
      else inl "Email on Acid did not return a test ID."
  | PostResponded None => inl "Email on Acid did not return a test ID."
  | PostFailed message => inl message
  end.

(* ===================================================================== *)
(** ** global-setup.ts *)
(* ===================================================================== *)

(** [s.trim()]: white space and line terminators are the characters of
    [\s]. *)
Fixpoint trimStart (s : string) : string :=
  match s with
  | EmptyString => EmptyString
  | String c t => if is_space c then trimStart t else s
  end.

Fixpoint trimEnd (s : string) : string :=
  match s with
  | EmptyString => EmptyString
  | String c t =>
      match trimEnd t with
      | EmptyString => if is_space c then EmptyString
                       else String c EmptyString
      | t' => String c t'
      end
  end.

Definition trim (s : string) : string := trimEnd (trimStart s).

(** [handleError] throws a new error with this message. *)
Definition handleError (message : string) : string :=
  ("Preview generation failed: " ++ message)%string.

(** What globalSetup reads from outside, and how its requests end.
    [defaultClients] is how [getDesiredApiClients()] ends: the client ids of
    default-clients-eoa.json, or the error of reading or parsing it.
    [mkdirError] is the message of the error that making sure the output
    folders exist throws, [None] when they are there or are created.
    [writeError path] is the message of the error that [writeFileSync]
    throws for the file at [path], [None] when the file is written. *)
Record SetupWorld := {
  env : string → option string;
  defaultClients : Throws (list string);
  readEmail : string → option string;
  nowLocale : string;
  verboseTimestamp : string;
  post : PostOutcome;
  net : nat → AxiosOutcome;
  maxAttempts : Q;
  mkdirError : option string;
  writeError : string → option string
}.

(** What globalSetup does to the outside: the upload of injectHtml, the
    fetches and sleeps of getPreviewUrls, and the files it has written,
    the JSON text being kept as the list it serializes; a write that throws
    leaves no file.  The output folders themselves are not recorded. *)
Inductive SetupAction :=
| ActUpload (html subject : string) (clients : list string)
| ActPoll (ev : Event)
| ActWrite (path : string) (previews : list GeneratedPreview).

Inductive SetupEnd :=
| SetupSkipped
| SetupFinished
| SetupThrew (message : string)
| SetupUnfinished.

Section GlobalSetup.

(** [String.prototype.toUpperCase], and the three [resolve(DIR, name)]. *)
Variable toUpperCase : string → string.
Variables resolveTemp resolveArchive resolveEmails : string → string.

Definition getServiceCredentials (e : string → option string)
  : Throws (string * string * string) :=
  let serviceToUse := toLowerCase <$> e "EMAIL_PREVIEW_SERVICE" in
  let keyName :=
    (match serviceToUse with
     | Some s => toUpperCase s
     | None => "undefined"
     end ++ "_API_KEY")%string in
  let key := e keyName in
  let accountPassword := e "EMAILONACID_ACCOUNT_PASSWORD" in
  match serviceToUse, key, accountPassword with
  | Some s, Some k, Some p =>
      if truthy_string s && truthy_string k && truthy_string p
      then inr (s, k, p)
      else inl "Missing EMAIL_PREVIEW_SERVICE, its API key, or EMAILONACID_ACCOUNT_PASSWORD."
  | _, _, _ =>
      inl "Missing EMAIL_PREVIEW_SERVICE, its API key, or EMAILONACID_ACCOUNT_PASSWORD."
  end.

(** [process.env.EXISTING_EOA_TEST_ID || process.env.EOA_TEST_ID || '']. *)
Definition existingTestId (e : string → option string) : string :=
  if truthy (e "EXISTING_EOA_TEST_ID")
  then default "" (e "EXISTING_EOA_TEST_ID")
  else if truthy (e "EOA_TEST_ID") then default "" (e "EOA_TEST_ID")
  else "".

(** STEP A: the test id, with the upload when one is made. *)
Definition obtainTestId (w : SetupWorld) (taskName sanitizedTaskName : string)
    (desiredApiClients : list string) : list SetupAction * Throws string :=
  let existing := existingTestId (env w) in
  if truthy_string existing then
    let testId := trim existing in
    if negb (truthy_string testId)
    then ([], inl "Provided existing test ID is empty.")
    else ([], inr testId)
  else
    let EMAIL_HTML_FILE := resolveEmails (sanitizedTaskName ++ ".html")%string in
    match readEmail w EMAIL_HTML_FILE with
    | None =>
        ([], inl ("Could not find email HTML file at " ++ EMAIL_HTML_FILE
                  ++ ". Place it there or set EXISTING_EOA_TEST_ID.")%string)
    | Some emailHtmlContent =>
        let emailSubject :=
          (taskName ++ " - EOA Preview - " ++ nowLocale w)%string in
        ([ActUpload emailHtmlContent emailSubject desiredApiClients],
         injectHtml (post w))
    end.

Definition globalSetup (w : SetupWorld) : list SetupAction * SetupEnd :=
  match env w "TASK_NAME" with
  | None => ([], SetupSkipped)
  | Some taskName =>
      if negb (truthy_string taskName) then ([], SetupSkipped)
      else
        let sanitizedTaskName := sanitizeFilename taskName true in
        let GENERATED_URLS_FILE :=
          resolveTemp ("generated-preview-urls-" ++ sanitizedTaskName
                       ++ ".json")%string in
        match defaultClients w with
        | inl message => ([], SetupThrew message)
        | inr desiredApiClients =>
            match getServiceCredentials (env w) with
            | inl message => ([], SetupThrew message)
            | inr (serviceToUse, key, accountPassword) =>
                match mkdirError w with
                | Some message => ([], SetupThrew message)
                | None =>
                match getEmailPreviewService serviceToUse key
                        (Some accountPassword) with
                | inl message => ([], SetupThrew message)
                | inr previewService =>
                    match obtainTestId w taskName sanitizedTaskName
                            desiredApiClients with
                    | (acts, inl message) =>
                        (acts, SetupThrew (handleError message))
                    | (acts, inr testId) =>
                        let '(tr, outcome) :=
                          getPreviewUrls (net w) (maxAttempts w)
                            (Some testId) desiredApiClients in
                        let polled := (acts ++ (ActPoll <$> tr))%list in
                        match outcome with
                        | Thrown message =>
                            (polled, SetupThrew (handleError message))
                        | Unfinished => (polled, SetupUnfinished)
                        | Returned previewUrlsMap =>
                            let previews :=
                              generatedPreviews previewUrlsMap in
                            let archiveFileName :=
                              ("generated-preview-urls-" ++ sanitizedTaskName
                               ++ "-" ++ verboseTimestamp w ++ ".json")%string
                            in
                            match writeError w GENERATED_URLS_FILE with
                            | Some message =>
                                (polled, SetupThrew (handleError message))
                            | None =>
                                let saved :=
                                  (polled
                                   ++ [ActWrite GENERATED_URLS_FILE
                                         previews])%list in
                                match writeError w
                                        (resolveArchive archiveFileName) with
                                | Some message =>
                                    (saved, SetupThrew (handleError message))
                                | None =>
                                    ((saved
                                      ++ [ActWrite
                                            (resolveArchive archiveFileName)
                                            previews])%list,
                                     SetupFinished)
                                end
                            end
                        end
                    end
                end
                end
            end
        end
  end.

End GlobalSetup.

(** The paths of the two files of a task: the preview file and its
    archive copy. *)
Definition previewFile (resolveTemp : string → string) (taskName : string)
  : string :=
  resolveTemp ("generated-preview-urls-" ++ sanitizeFilename taskName true
               ++ ".json")%string.

Definition archiveFile (resolveArchive : string → string) (w : SetupWorld)
    (taskName : string) : string :=
  resolveArchive ("generated-preview-urls-" ++ sanitizeFilename taskName true
                  ++ "-" ++ verboseTimestamp w ++ ".json")%string.

Definition is_write (a : SetupAction) : bool :=
  match a with ActWrite _ _ => true | _ => false end.

Definition is_upload (a : SetupAction) : bool :=
  match a with ActUpload _ _ _ => true | _ => false end.

(** The steps of globalSetup before STEP A succeed: TASK_NAME is set, the
    clients file is read, the credentials are found, the output folders
    are there and the factory accepts the credentials. *)
Definition configured (toUpperCase : string → string) (w : SetupWorld)
    (taskName : string) (desiredApiClients : list string) : Prop :=
  env w "TASK_NAME" = Some taskName
  ∧ taskName ≠ ""
  ∧ defaultClients w = inr desiredApiClients
  ∧ mkdirError w = None
  ∧ ∃ s k p svc,
      getServiceCredentials toUpperCase (env w) = inr (s, k, p)
      ∧ getEmailPreviewService s k (Some p) = inr svc.

(** A sample environment and world, for the examples below: the id of an
    existing test is given, with blanks around it. *)
Definition sample_env (existing : string) (k : string) : option string :=
  if String.eqb k "TASK_NAME" then Some "EB 21397 Staging"
  else if String.eqb k "EMAIL_PREVIEW_SERVICE" then Some "EmailOnAcid"
  else if String.eqb k "EMAILONACID_API_KEY" then Some "key"
  else if String.eqb k "EMAILONACID_ACCOUNT_PASSWORD" then Some "secret"
  else if String.eqb k "EXISTING_EOA_TEST_ID" then Some existing
  else None.

Definition sample_snapshot : Results :=
  {[ "gmail" := Client {| status := Some "Complete";
                          screenshots_default := Some "https://shots/g.png" |} ]}.

Definition sample_world (existing : string) : SetupWorld :=
  {| env := sample_env existing;
     defaultClients := inr ["gmail"];
     readEmail := fun _ => None;
     nowLocale := "1/1/2025, 10:00:00 AM";
     verboseTimestamp := "2025-01-01-10-00-00-000Z";
     post := PostFailed "Network Error";
     net := fun _ => Responded (Some sample_snapshot);
     maxAttempts := 3;
     mkdirError := None;
     writeError := fun _ => None |}.

Definition sample_toUpperCase (s : string) : string :=
  map_chars toUpperChar s.

(** The sample world with an archive folder that cannot be written to, and
    a world without any environment variable. *)
Definition sample_world_no_archive (existing : string) : SetupWorld :=
  {| env := sample_env existing;
     defaultClients := inr ["gmail"];
     readEmail := fun _ => None;
     nowLocale := "1/1/2025, 10:00:00 AM";
     verboseTimestamp := "2025-01-01-10-00-00-000Z";
     post := PostFailed "Network Error";
     net := fun _ => Responded (Some sample_snapshot);
     maxAttempts := 3;
     mkdirError := None;
     writeError := fun path =>
       if String.prefix "temp/archives/" path
       then Some "EACCES: permission denied" else None |}.

Definition sample_world_no_env : SetupWorld :=
  {| env := fun _ => None;
     defaultClients := inr ["gmail"];
     readEmail := fun _ => None;
     nowLocale := "1/1/2025, 10:00:00 AM";
     verboseTimestamp := "2025-01-01-10-00-00-000Z";
     post := PostFailed "Network Error";
     net := fun _ => Responded (Some sample_snapshot);
     maxAttempts := 3;
     mkdirError := None;
     writeError := fun _ => None |}.

(* ===================================================================== *)
(** ** blueprint.spec.ts: the generated tests *)
(* ===================================================================== *)

(** One [test(...)] of the suite: its title, the screenshot it compares
    with and the page it opens. *)
Record BlueprintTest := {
  title : string;
  screenshot : string;
  page : string
}.

(** [generatedPreviews.forEach(preview => test(...))]. *)
Definition blueprintTests (previews : list GeneratedPreview)
  : list BlueprintTest :=
  (fun preview =>
     {| title := (name preview ++ " (" ++ client preview ++ ")")%string;
        screenshot := screenshotName (client preview);
        page := url preview |}) <$> previews.

(** The suite that blueprint.spec.ts declares.  [loaded] is the list
    parsed from the preview file of a path, [None] when the file is
    missing or cannot be parsed; the file holds JSON text, kept here as the
    list it stands for.  tests/blueprint.spec.ts and src/global-setup.ts
    both resolve the temp folder one level above their own folder, which
    is the project root: [resolveTemp] is the same function for both. *)
Inductive Suite :=
| SuiteSkipped (skipped : string)
| SuiteChecks (describe : string) (tests : list BlueprintTest)
| SuiteEmpty (describe skipped : string).

Definition blueprintSuite (resolveTemp : string → string)
    (taskId : option string)
    (loaded : string → option (list GeneratedPreview)) : Suite :=
  match taskId with
  | None => SuiteSkipped "TASK_NAME not set"
  | Some t =>
      if negb (truthy_string t) then SuiteSkipped "TASK_NAME not set"
      else
        let sanitizedTaskId := sanitizeFilename t true in
        let GENERATED_URLS_FILE :=
          resolveTemp ("generated-preview-urls-" ++ sanitizedTaskId
                       ++ ".json")%string in
        let generatedPreviews := default [] (loaded GENERATED_URLS_FILE) in
        if 0 <? length generatedPreviews
        then SuiteChecks ("Visual Email Checks: " ++ t)%string
               (blueprintTests generatedPreviews)
        else SuiteEmpty ("No Previews Available: " ++ t)%string
               "No preview URLs found; global setup may have failed."
  end.

(** The files that a run of globalSetup leaves: for each path, what was
    written to it last. *)
Definition files_after (acts : list SetupAction) (path : string)
  : option (list GeneratedPreview) :=
  foldl (fun found a =>
           match a with
           | ActWrite p previews =>
               if String.eqb p path then Some previews else found
           | _ => found
           end) None acts.

(* ===================================================================== *)
(** ** global-setup.ts, the variant that always uploads *)
(* ===================================================================== *)

Module UploadOnly.

Section GlobalSetup.

Variable toUpperCase : string → string.
Variables resolveTemp resolveArchive resolveEmails : string → string.

Definition getServiceCredentials (e : string → option string)
  : Throws (string * string * string) :=
  let serviceToUse := toLowerCase <$> e "EMAIL_PREVIEW_SERVICE" in
  let keyName :=
    (match serviceToUse with
     | Some s => toUpperCase s
     | None => "undefined"
     end ++ "_API_KEY")%string in
  let key := e keyName in
  let accountPassword := e "EMAILONACID_ACCOUNT_PASSWORD" in
  match serviceToUse, key, accountPassword with
  | Some s, Some k, Some p =>
      if truthy_string s && truthy_string k && truthy_string p
      then inr (s, k, p)
      else inl "Missing EMAIL_PREVIEW_SERVICE, API key, or EOA password."
  | _, _, _ => inl "Missing EMAIL_PREVIEW_SERVICE, API key, or EOA password."
  end.

Definition globalSetup (w : SetupWorld) : list SetupAction * SetupEnd :=
  match env w "TASK_NAME" with
  | None => ([], SetupSkipped)
  | Some taskName =>
      if negb (truthy_string taskName) then ([], SetupSkipped)
      else
        let sanitizedTaskName := sanitizeFilename taskName true in
        let EMAIL_HTML_FILE :=
          resolveEmails (sanitizedTaskName ++ ".html")%string in
        let GENERATED_URLS_FILE :=
          resolveTemp ("generated-preview-urls-" ++ sanitizedTaskName
                       ++ ".json")%string in
        match readEmail w EMAIL_HTML_FILE with
        | None =>
            ([], SetupThrew ("Missing email HTML file: "
                             ++ EMAIL_HTML_FILE)%string)
        | Some emailHtmlContent =>
            match defaultClients w with
            | inl message => ([], SetupThrew message)
            | inr desiredApiClients =>
                match getServiceCredentials (env w) with
                | inl message => ([], SetupThrew message)
                | inr (serviceToUse, key, accountPassword) =>
                    match mkdirError w with
                    | Some message => ([], SetupThrew message)
                    | None =>
                    match getEmailPreviewService serviceToUse key
                            (Some accountPassword) with
                    | inl message => ([], SetupThrew message)
                    | inr previewService =>
                        let emailSubject :=
                          (taskName ++ " - EOA Preview - " ++ nowLocale w)%string
                        in
                        let upload :=
                          [ActUpload emailHtmlContent emailSubject
                             desiredApiClients] in
                        match injectHtml (post w) with
                        | inl message =>
                            (upload, SetupThrew (handleError message))
                        | inr test_id =>
                            let '(tr, outcome) :=
                              getPreviewUrls (net w) (maxAttempts w)
                                (Some test_id) desiredApiClients in
                            let polled := (upload ++ (ActPoll <$> tr))%list in
                            match outcome with
                            | Thrown message =>
                                (polled, SetupThrew (handleError message))
                            | Unfinished => (polled, SetupUnfinished)
                            | Returned previewUrlsMap =>
                                let previews :=
                                  generatedPreviews previewUrlsMap in
                                let archiveFileName :=
                                  ("generated-preview-urls-"
                                   ++ sanitizedTaskName ++ "-"
                                   ++ verboseTimestamp w ++ ".json")%string in
                                match writeError w GENERATED_URLS_FILE with
                                | Some message =>
                                    (polled,
                                     SetupThrew (handleError message))
                                | None =>
                                    let saved :=
                                      (polled
                                       ++ [ActWrite GENERATED_URLS_FILE
                                             previews])%list in
                                    match writeError w
                                            (resolveArchive archiveFileName)
                                    with
                                    | Some message =>
                                        (saved,
                                         SetupThrew (handleError message))
                                    | None =>
                                        ((saved
                                          ++ [ActWrite
                                                (resolveArchive
                                                   archiveFileName)
                                                previews])%list,
                                         SetupFinished)
                                    end
                                end
                            end
                        end
                    end
                    end
                end
            end
        end
  end.

End GlobalSetup.

End UploadOnly.

(* ===================================================================== *)
(** ** createAuthHeader *)
(* ===================================================================== *)

(** [Buffer.from(s)]: the UTF-8 bytes of a string whose code units are
    below 256; a byte is a number below 256. *)
Definition utf8_of_char (c : ascii) : list N :=
  if (code c <? 128)%N then [code c]
  else [(192 + code c / 64)%N; (128 + code c mod 64)%N].

Fixpoint utf8 (s : string) : list N :=
  match s with
  | EmptyString => []
  | String c t => (utf8_of_char c ++ utf8 t)%list
  end.

(** The base64 alphabet: A-Z, a-z, 0-9, + and /. *)
Definition base64_char (n : N) : ascii :=
  if (n <? 26)%N then ascii_of_N (65 + n)
  else if (n <? 52)%N then ascii_of_N (71 + n)
  else if (n <? 62)%N then ascii_of_N (n - 4)
  else if (n =? 62)%N then "+"%char
  else "/"%char.

(** [buffer.toString('base64')]: three bytes give four characters, the
    last group being padded with [=]. *)
Fixpoint base64 (bytes : list N) : string :=
  match bytes with
  | [] => EmptyString
  | a :: [] =>
      String (base64_char (a / 4))
        (String (base64_char (a mod 4 * 16)) "==")
  | a :: b :: [] =>
      String (base64_char (a / 4))
        (String (base64_char (a mod 4 * 16 + b / 16))
           (String (base64_char (b mod 16 * 4)) "="))
  | a :: b :: c :: rest =>
      String (base64_char (a / 4))
        (String (base64_char (a mod 4 * 16 + b / 16))
           (String (base64_char (b mod 16 * 4 + c / 64))
              (String (base64_char (c mod 64)) (base64 rest))))
  end%N.

Definition createAuthHeader (key pass : string) : string :=
  ("Basic " ++ base64 (utf8 (key ++ ":" ++ pass)))%string.

(** Reading base64 back, to show that nothing is lost. *)
Definition base64_index (c : ascii) : N :=
  let n := code c in
  if between 65 90 c then (n - 65)%N
  else if between 97 122 c then (n - 71)%N
  else if between 48 57 c then (n + 4)%N
  else if (n =? 43)%N then 62%N
  else 63%N.

Fixpoint unbase64 (s : string) : list N :=
  match s with
  | String c0 (String c1 (String c2 (String c3 rest))) =>
      let x0 := base64_index c0 in
      let x1 := base64_index c1 in
      let x2 := base64_index c2 in
      let x3 := base64_index c3 in
      if (code c2 =? 61)%N then [(x0 * 4 + x1 / 16)%N]
      else if (code c3 =? 61)%N
      then [(x0 * 4 + x1 / 16)%N; (x1 mod 16 * 16 + x2 / 4)%N]
      else ((x0 * 4 + x1 / 16)%N :: (x1 mod 16 * 16 + x2 / 4)%N
            :: (x2 mod 4 * 64 + x3)%N :: unbase64 rest)
  | _ => []
  end.

(** The numbers below 64. *)
Definition sextets : list N := N.of_nat <$> seq 0 64.

Definition is_base64_char (c : ascii) : bool :=
  is_upper c || is_lower c || is_digit c
  || (code c =? 43)%N || (code c =? 47)%N || (code c =? 61)%N.

Definition has_colon (s : string) : bool :=
  negb (all_chars (fun c => negb (code c =? 58)%N) s).

(* ===================================================================== *)
(** * Properties *)
(* ===================================================================== *)

Example sanitize_doc_hyphen :
  sanitizeFilename "EB 21397 Staging" true = "eb-21397-staging".
Proof. reflexivity. Qed.

Example sanitize_doc_underscore :
  sanitizeFilename "EB 21397 Staging" false = "eb_21397_staging".
Proof. reflexivity. Qed.

(* --------------------------------------------------------------------- *)
(** ** The sanitizer *)
(* --------------------------------------------------------------------- *)

Ltac by_char c :=
  destruct c as [[] [] [] [] [] [] [] []]; vm_compute; congruence.

Section Sanitizer.

Lemma kept_not_space_final sep c :
  kept c = true → is_space c = false → final sep c = true.
Proof.
  unfold final. intros Hk Hs.
  assert (is_lower c || is_digit c || (code c =? 45)%N || (code c =? 46)%N
          = true) as ->; [|done].
  revert Hk Hs. by_char c.
Qed.

Lemma final_sep sep : final sep sep = true.
Proof.
  unfold final. rewrite Ascii.eqb_refl. by rewrite orb_true_r.
Qed.

Lemma final_hyphen_lower c : final "-" c = true → toLowerChar c = c.
Proof. by_char c. Qed.

Lemma final_underscore_lower c : final "_" c = true → toLowerChar c = c.
Proof. by_char c. Qed.

Lemma final_hyphen_kept c : final "-" c = true → kept c = true.
Proof. by_char c. Qed.

Lemma final_underscore_kept c :
  final "_" c = true → kept c = not_underscore c.
Proof. by_char c. Qed.

Lemma final_not_space sep c :
  is_space sep = false → final sep c = true → is_space c = false.
Proof.
  unfold final. intros Hsep Hf.
  destruct (Ascii.eqb c sep) eqn:E.
  - apply Ascii.eqb_eq in E. by subst.
  - rewrite orb_false_r in Hf. revert Hf. by_char c.
Qed.

Lemma kept_final sep c : kept c = true → final sep c = true ∨ is_space c = true.
Proof.
  intros Hk. destruct (is_space c) eqn:E; [by right|left].
  by apply kept_not_space_final.
Qed.

Lemma all_chars_filter p s : all_chars p (filter_chars p s) = true.
Proof.
  induction s as [|c t IH]; simpl; [done|].
  destruct (p c) eqn:E; simpl; [by rewrite E|done].
Qed.

Lemma all_chars_impl (p q : ascii → bool) s :
  (∀ c, p c = true → q c = true) →
  all_chars p s = true → all_chars q s = true.
Proof.
  intros Hpq. induction s as [|c t IH]; simpl; [done|].
  intros [Hc Ht]%andb_true_iff. rewrite (Hpq _ Hc). simpl. auto.
Qed.

Lemma filter_chars_id p s : all_chars p s = true → filter_chars p s = s.
Proof.
  induction s as [|c t IH]; simpl; [done|].
  intros [Hc Ht]%andb_true_iff. rewrite Hc. f_equal. auto.
Qed.

Lemma filter_chars_ext (p q : ascii → bool) (r : ascii → bool) s :
  (∀ c, r c = true → p c = q c) →
  all_chars r s = true → filter_chars p s = filter_chars q s.
Proof.
  intros Hpq. induction s as [|c t IH]; simpl; [done|].
  intros [Hc Ht]%andb_true_iff. rewrite (Hpq _ Hc), (IH Ht). done.
Qed.

Lemma filter_chars_all (p r : ascii → bool) s :
  all_chars r s = true → all_chars r (filter_chars p s) = true.
Proof.
  induction s as [|c t IH]; simpl; [done|].
  intros [Hc Ht]%andb_true_iff.
  destruct (p c); simpl; [rewrite Hc; simpl|]; auto.
Qed.

Lemma filter_chars_length p s :
  String.length (filter_chars p s) ≤ String.length s.
Proof.
  induction s as [|c t IH]; simpl; [done|].
  destruct (p c); simpl; lia.
Qed.

Lemma map_chars_id f s :
  all_chars (fun c => Ascii.eqb (f c) c) s = true → map_chars f s = s.
Proof.
  induction s as [|c t IH]; simpl; [done|].
  intros [Hc Ht]%andb_true_iff. apply Ascii.eqb_eq in Hc.
  rewrite Hc. f_equal. auto.
Qed.

Lemma replaceSpaceRuns_final sep b s :
  all_chars kept s = true →
  all_chars (final sep) (replaceSpaceRuns sep b s) = true.
Proof.
  revert b. induction s as [|c t IH]; intros b; simpl; [done|].
  intros [Hc Ht]%andb_true_iff.
  destruct (is_space c) eqn:E.
  - destruct b; simpl; [|rewrite final_sep; simpl]; auto.
  - simpl. rewrite (kept_not_space_final sep c Hc E). simpl. auto.
Qed.

Lemma replaceSpaceRuns_id sep b s :
  all_chars (fun c => negb (is_space c)) s = true →
  replaceSpaceRuns sep b s = s.
Proof.
  revert b. induction s as [|c t IH]; intros b; simpl; [done|].
  intros [Hc Ht]%andb_true_iff. apply negb_true_iff in Hc.
  rewrite Hc. f_equal. auto.
Qed.

Lemma substring_all p n s :
  all_chars p s = true → all_chars p (String.substring 0 n s) = true.
Proof.
  revert s. induction n as [|n IH]; intros [|c t]; simpl; try done.
  intros [Hc Ht]%andb_true_iff. rewrite Hc. simpl. auto.
Qed.

Lemma substring_length n s : String.length (String.substring 0 n s) ≤ n.
Proof.
  revert s. induction n as [|n IH]; intros [|c t]; simpl; try lia.
  specialize (IH t). lia.
Qed.

Lemma substring_id n s :
  String.length s ≤ n → String.substring 0 n s = s.
Proof.
  revert s. induction n as [|n IH]; intros [|c t]; simpl; try done;
    try lia.
  intros Hl. f_equal. apply IH. lia.
Qed.

Lemma sanitizeFilename_final (name : string) (useHyphens : bool) :
  all_chars (final (if useHyphens then "-"%char else "_"%char))
    (sanitizeFilename name useHyphens) = true.
Proof.
  unfold sanitizeFilename.
  apply substring_all, replaceSpaceRuns_final, all_chars_filter.
Qed.

Lemma sanitizeFilename_length name useHyphens :
  String.length (sanitizeFilename name useHyphens) ≤ 100.
Proof. apply substring_length. Qed.

(** On a string that is already an output, a second pass only applies the
    first [replace]. *)
Lemma sanitizeFilename_on_output sep s useHyphens :
  is_space sep = false →
  (∀ c, final sep c = true → toLowerChar c = c) →
  all_chars (final sep) s = true →
  String.length s ≤ 100 →
  sanitizeFilename s useHyphens = filter_chars kept s.
Proof.
  intros Hsep Hlow Hs Hlen. unfold sanitizeFilename, toLowerCase.
  rewrite map_chars_id.
  2:{ eapply all_chars_impl; [|exact Hs]. intros c Hc.
      apply Ascii.eqb_eq. by apply Hlow. }
  rewrite replaceSpaceRuns_id.
  2:{ apply filter_chars_all. eapply all_chars_impl; [|exact Hs].
      intros c Hc. apply negb_true_iff. by eapply final_not_space. }
  apply substring_id. etrans; [apply filter_chars_length|done].
Qed.

End Sanitizer.

(** C7, as stated, fails for the underscore separator: the second pass
    strips the underscores that the first one put in. *)
Lemma sanitizeFilename_underscore_not_idempotent :
  sanitizeFilename "a b" false = "a_b"
  ∧ sanitizeFilename (sanitizeFilename "a b" false) false = "ab"
  ∧ sanitizeFilename (sanitizeFilename "a b" false) false
    ≠ sanitizeFilename "a b" false.
Proof. repeat split; vm_compute; congruence. Qed.

(** C7 (amended): with the hyphen separator sanitizeFilename is idempotent;
    with the underscore separator a second application removes the
    underscores and changes nothing else; with either separator the output
    consists of characters of [a-z0-9.-] and the separator only and is at
    most 100 characters long. *)
Theorem sanitizeFilename_stable (name : string) (useHyphens : bool) :
  sanitizeFilename (sanitizeFilename name true) true
  = sanitizeFilename name true
  ∧ sanitizeFilename (sanitizeFilename name false) false
    = filter_chars not_underscore (sanitizeFilename name false)
  ∧ all_chars (final (if useHyphens then "-"%char else "_"%char))
      (sanitizeFilename name useHyphens) = true
  ∧ String.length (sanitizeFilename name useHyphens) ≤ 100.
Proof.
  split; [|split; [|split]].
  - rewrite (sanitizeFilename_on_output "-"); try done.
    + apply filter_chars_id.
      eapply all_chars_impl; [apply final_hyphen_kept|].
      apply (sanitizeFilename_final name true).
    + apply final_hyphen_lower.
    + apply (sanitizeFilename_final name true).
    + apply sanitizeFilename_length.
  - rewrite (sanitizeFilename_on_output "_"); try done.
    + eapply filter_chars_ext; [apply final_underscore_kept|].
      apply (sanitizeFilename_final name false).
    + apply final_underscore_lower.
    + apply (sanitizeFilename_final name false).
    + apply sanitizeFilename_length.
  - apply sanitizeFilename_final.
  - apply sanitizeFilename_length.
Qed.

(* --------------------------------------------------------------------- *)
(** ** Processing a snapshot *)
(* --------------------------------------------------------------------- *)

Section Processing.

Implicit Types (results : Results) (capturedUrls caps : CapturedUrls).
Implicit Types (id clientId : string) (v : option string).

Lemma truthy_string_spec (s : string) : truthy_string s = true ↔ s ≠ "".
Proof.
  unfold truthy_string. rewrite negb_true_iff.
  destruct (String.eqb_spec s ""); split; congruence.
Qed.

Lemma truthy_Some v : truthy v = true ↔ ∃ u, v = Some u ∧ u ≠ "".
Proof.
  destruct v as [u|]; simpl.
  - rewrite truthy_string_spec. split; [by exists u|].
    by intros (u' & [= <-] & Hu).
  - split; [done|]. by intros (u' & [=] & _).
Qed.

Lemma status_is_spec lit (st : option string) :
  status_is lit st = true ↔ st = Some lit.
Proof.
  destruct st as [s|]; simpl; [|done].
  destruct (String.eqb_spec s lit); split; congruence.
Qed.

Lemma truthy_at_Some id u : truthy_at id (Some u) = truthy_string u.
Proof. done. Qed.

Lemma truthy_truthy_at id v : truthy v = true → truthy_at id v = true.
Proof. by destruct v. Qed.

Lemma inherited_spec id : inherited id = false ↔ id ∉ Object_prototype.
Proof. unfold inherited. by rewrite bool_decide_eq_false. Qed.

Lemma truthy_at_plain id v : inherited id = false → truthy_at id v = truthy v.
Proof. intros H. destruct v; [done|]. apply H. Qed.

(** Without a status of its own an inherited member is never Complete,
    Failed or Bounced: a client that is, is held by the snapshot. *)
Lemma client_of_status results id d :
  client_of results id = Some d → is_Some (status d) →
  snapshot_entry results id = Some d.
Proof.
  unfold client_of, snapshot_entry.
  destruct (results !! id) as [[|d']|]; [done|done|].
  destruct (inherited id); [|done]. intros [= <-] [st Hst]. done.
Qed.

Lemma snapshot_entry_client_of results id d :
  snapshot_entry results id = Some d → client_of results id = Some d.
Proof.
  unfold client_of, snapshot_entry. by destruct (results !! id) as [[|d']|].
Qed.

Lemma client_of_plain results id :
  inherited id = false → client_of results id = snapshot_entry results id.
Proof.
  intros H. unfold client_of, snapshot_entry.
  destruct (results !! id) as [[|d']|]; [done|done|]. by rewrite H.
Qed.

(** The entry of a client whose URL is captured stays. *)
Lemma entry_step_truthy results id v :
  truthy_at id v = true → entry_step results id v = v.
Proof.
  intros Hv. unfold entry_step. rewrite Hv. simpl.
  repeat case_match; try done.
  by rewrite andb_false_r in *.
Qed.

Lemma entry_step_idemp results id v :
  entry_step results id (entry_step results id v)
  = entry_step results id v.
Proof.
  destruct (truthy_at id v) eqn:Hv.
  { by rewrite !(entry_step_truthy results id v Hv). }
  unfold entry_step.
  destruct (client_of results id) as [d|]; [|done].
  destruct (status_is "Complete" (status d)).
  - destruct (screenshots_default d) as [u|]; [|done].
    rewrite Hv. simpl. rewrite andb_true_r.
    destruct (truthy_string u) eqn:Hu; simpl.
    + by rewrite Hu.
    + done.
  - destruct (status_is "Failed" (status d) || status_is "Bounced" (status d));
      [|done].
    by rewrite Hv.
Qed.

(** Where the guard [!capturedUrls[clientId]] lets the write through, the
    property is created or overwritten. *)
Lemma assign_guarded clientId value caps :
  truthy_at clientId (caps !! clientId) = false →
  assign clientId value caps = <[clientId := value]> caps.
Proof.
  unfold assign, truthy_at. intros H.
  destruct (String.eqb_spec clientId "__proto__") as [->|Hne]; [|done].
  destruct (caps !! "__proto__") as [u|] eqn:E; [|done].
  rewrite bool_decide_eq_true_2; [done|by eexists].
Qed.

Lemma handleCompleteClient_lookup clientId (d : ClientData) caps id :
  handleCompleteClient clientId d caps !! id
  = if decide (clientId = id)
    then match screenshots_default d with
         | Some u =>
             if truthy_string u && negb (truthy_at id (caps !! id))
             then Some u else caps !! id
         | None => caps !! id
         end
    else caps !! id.
Proof.
  unfold handleCompleteClient.
  destruct (screenshots_default d) as [u|]; [|by case_decide].
  destruct (truthy_string u); simpl; [|by case_decide].
  case_decide as E; [subst id|].
  - destruct (truthy_at clientId (caps !! clientId)) eqn:Ht; simpl; [done|].
    by rewrite assign_guarded, lookup_insert_eq.
  - destruct (truthy_at clientId (caps !! clientId)) eqn:Ht; simpl; [done|].
    by rewrite assign_guarded, lookup_insert_ne.
Qed.

Lemma handleFailedClient_lookup clientId st caps id :
  handleFailedClient clientId st caps !! id
  = if decide (clientId = id)
    then if negb (truthy_at id (caps !! id)) then Some "" else caps !! id
    else caps !! id.
Proof.
  unfold handleFailedClient.
  case_decide as E; [subst id|].
  - destruct (truthy_at clientId (caps !! clientId)) eqn:Ht; simpl; [done|].
    by rewrite assign_guarded, lookup_insert_eq.
  - destruct (truthy_at clientId (caps !! clientId)) eqn:Ht; simpl; [done|].
    by rewrite assign_guarded, lookup_insert_ne.
Qed.

(** The loop changes the entries of the checked clients only, each by
    [entry_step]. *)
Lemma processClients_lookup results clients found caps id :
  (processClients results clients found caps).2 !! id
  = if bool_decide (id ∈ clients)
    then entry_step results id (caps !! id)
    else caps !! id.
Proof.
  revert found caps.
  induction clients as [|c rest IH]; intros found caps; simpl; [done|].
  assert (∀ found' caps',
    caps' !! c = entry_step results c (caps !! c) →
    (∀ j, j ≠ c → caps' !! j = caps !! j) →
    (processClients results rest found' caps').2 !! id
    = if bool_decide (id ∈ c :: rest)
      then entry_step results id (caps !! id) else caps !! id) as Hstep.
  { intros found' caps' Hc Hother. rewrite IH.
    destruct (decide (id = c)) as [->|Hne].
    - rewrite (bool_decide_eq_true_2 (c ∈ c :: rest)) by constructor.
      rewrite Hc. case_bool_decide; [apply entry_step_idemp|done].
    - rewrite (Hother _ Hne).
      apply (f_equal (fun b : bool => if b then _ else _)).
      apply bool_decide_ext. rewrite elem_of_cons.
      split; [by right|by intros [?|?]]. }
  destruct (client_of results c) as [d|] eqn:Hd.
  - destruct (status_is "Complete" (status d)) eqn:HC;
      [|destruct (status_is "Failed" (status d)
                  || status_is "Bounced" (status d)) eqn:HF].
    + apply Hstep.
      * rewrite handleCompleteClient_lookup, decide_True by done.
        unfold entry_step. by rewrite Hd, HC.
      * intros j Hj.
        by rewrite handleCompleteClient_lookup, decide_False.
    + apply Hstep.
      * rewrite handleFailedClient_lookup, decide_True by done.
        unfold entry_step. by rewrite Hd, HC, HF.
      * intros j Hj. by rewrite handleFailedClient_lookup, decide_False.
    + apply Hstep; [|done]. unfold entry_step. by rewrite Hd, HC, HF.
  - apply Hstep; [|done]. unfold entry_step. by rewrite Hd.
Qed.

(** [clientsFound] does not depend on the captured URLs. *)
Lemma processClients_found results clients found caps caps' :
  (processClients results clients found caps).1
  = (processClients results clients found caps').1.
Proof.
  revert found caps caps'.
  induction clients as [|c rest IH]; intros found caps caps'; simpl; [done|].
  repeat case_match; apply IH.
Qed.

Lemma processClientResults_lookup results req caps id :
  (processClientResults results req caps).2 !! id
  = if bool_decide (id ∈ clientsToCheck req results)
    then entry_step results id (caps !! id)
    else caps !! id.
Proof. apply processClients_lookup. Qed.

Lemma processClientResults_truthy results req caps id :
  truthy_at id (caps !! id) = true →
  (processClientResults results req caps).2 !! id = caps !! id.
Proof.
  intros Hv. rewrite processClientResults_lookup.
  case_bool_decide; [by apply entry_step_truthy|done].
Qed.

Lemma processAll_truthy req snapshots caps id :
  truthy_at id (caps !! id) = true →
  processAll req snapshots caps !! id = caps !! id.
Proof.
  revert caps. induction snapshots as [|r rest IH]; intros caps Hv; [done|].
  simpl. change (foldl _ ?c rest) with (processAll req rest c).
  rewrite IH; rewrite processClientResults_truthy; done.
Qed.

(** The clients that the code checks are the clients of the job. *)
Lemma clientsToCheck_scope (req : list string) results id :
  id ∈ clientsToCheck req results ↔ id ∈ clients_in_scope req results.
Proof.
  unfold clientsToCheck, clients_in_scope, Object_keys.
  destruct req as [|a req]; simpl; [|done].
  rewrite elem_of_elements, elem_of_dom, list_elem_of_fmap. split.
  - intros ([k v] & -> & Hin). apply elem_of_map_to_list in Hin. by exists v.
  - intros [v Hv]. exists (id, v). split; [done|].
    by apply elem_of_map_to_list.
Qed.

End Processing.

(** C8: processing a snapshot a second time, on the map the first pass
    left, changes nothing: the same clients are found and the captured-URL
    map is the same. *)
Theorem processClientResults_idempotent (results : Results)
    (requestedClients : list string) (capturedUrls : CapturedUrls) :
  processClientResults results requestedClients
    (processClientResults results requestedClients capturedUrls).2
  = processClientResults results requestedClients capturedUrls.
Proof.
  apply injective_projections.
  - apply processClients_found.
  - apply map_eq. intros id. rewrite !processClientResults_lookup.
    case_bool_decide; [apply entry_step_idemp|done].
Qed.

(** C2, as stated, fails for a recorded failure: the marker of a client seen
    Failed on attempt 1 (while another client keeps the loop polling) is
    replaced by the URL of a later snapshot that reports it Complete. *)
Lemma failed_marker_replaced_by_later_url :
  let req := ["a"; "b"] in
  let s1 : Results :=
    {[ "a" := Client {| status := Some "Failed"; screenshots_default := None |};
       "b" := Client {| status := Some "Processing";
                        screenshots_default := None |} ]} in
  let s2 : Results :=
    {[ "a" := Client {| status := Some "Complete";
                        screenshots_default := Some "https://shots/a.png" |};
       "b" := Client {| status := Some "Complete";
                        screenshots_default := Some "https://shots/b.png" |} ]} in
  let p1 := processClientResults s1 req ∅ in
  let p2 := processClientResults s2 req p1.2 in
  p1.2 !! "a" = Some ""
  ∧ checkIfShouldExit req s1 p1.2 p1.1 1 = false
  ∧ p2.2 !! "a" = Some "https://shots/a.png"
  ∧ p2.2 !! "a" ≠ p1.2 !! "a".
Proof. repeat split; vm_compute; congruence. Qed.

(** C2 (amended): an entry that holds a non-empty URL is changed by no
    sequence of later snapshots.  An entry that holds the failure marker is
    replaced by the URL when a later snapshot reports the client, being one
    of the clients of the job, Complete with a non-empty screenshot URL, and
    is kept by every other snapshot. *)
Theorem recorded_outcome_monotone (requestedClients : list string)
    (snapshots : list Results) (results : Results)
    (capturedUrls : CapturedUrls) (id v : string) :
  capturedUrls !! id = Some v →
  (v ≠ "" → processAll requestedClients snapshots capturedUrls !! id = Some v)
  ∧ (v = "" →
     let caps' := (processClientResults results requestedClients capturedUrls).2 in
     (∀ u, id ∈ clients_in_scope requestedClients results →
           completes_with results id u → u ≠ "" →
           caps' !! id = Some u)
     ∧ (¬ (id ∈ clients_in_scope requestedClients results
           ∧ ∃ u, completes_with results id u ∧ u ≠ "") →
        caps' !! id = Some "")).
Proof.
  intros Hv. split.
  - intros Hne. rewrite processAll_truthy; [done|].
    rewrite Hv. by apply truthy_string_spec.
  - intros ->. cbv zeta. rewrite processClientResults_lookup.
    assert (bool_decide (id ∈ clientsToCheck requestedClients results)
            = bool_decide (id ∈ clients_in_scope requestedClients results))
      as -> by apply bool_decide_ext, clientsToCheck_scope.
    rewrite Hv. unfold entry_step. cbn [truthy_at truthy_string String.eqb negb].
    split.
    + intros u Hin (d & Hd & Hst & Hsh) Hu.
      rewrite bool_decide_eq_true_2 by done.
      rewrite (snapshot_entry_client_of _ _ _ Hd), Hst, Hsh. simpl.
      apply truthy_string_spec in Hu. by rewrite Hu.
    + intros Hnot. case_bool_decide as Hin; [|done].
      destruct (client_of results id) as [d|] eqn:Hd; [|done].
      destruct (status_is "Complete" (status d)) eqn:HC.
      * apply status_is_spec in HC.
        destruct (screenshots_default d) as [u|] eqn:Hu; [|done].
        destruct (truthy_string u) eqn:Ht; simpl; [|done].
        destruct Hnot. split; [done|]. exists u.
        split; [|by apply truthy_string_spec]. exists d.
        split; [|done]. apply client_of_status; [done|by rewrite HC].
      * by destruct (status_is "Failed" (status d)
                     || status_is "Bounced" (status d)).
Qed.

Lemma recorded_outcome_monotone_witness :
  let caps : CapturedUrls := {[ "a" := "https://shots/a.png"; "b" := "" ]} in
  let late : Results :=
    {[ "a" := Client {| status := Some "Failed";
                        screenshots_default := None |};
       "b" := Client {| status := Some "Complete";
                        screenshots_default := Some "https://shots/b.png" |} ]} in
  let busy : Results :=
    {[ "b" := Client {| status := Some "Processing";
                        screenshots_default := None |} ]} in
  caps !! "a" = Some "https://shots/a.png"
  ∧ caps !! "b" = Some ""
  ∧ processAll ["a"; "b"] [late; late] caps !! "a"
    = Some "https://shots/a.png"
  ∧ (processClientResults late ["a"; "b"] caps).2 !! "b"
    = Some "https://shots/b.png"
  ∧ (processClientResults busy ["a"; "b"] caps).2 !! "b" = Some "".
Proof.
  intros caps late busy.
  assert (caps !! "a" = Some "https://shots/a.png") as Ha by reflexivity.
  assert (caps !! "b" = Some "") as Hb by reflexivity.
  split; [exact Ha|]. split; [exact Hb|]. split; [|split].
  - destruct (recorded_outcome_monotone ["a"; "b"] [late; late] late caps
                "a" "https://shots/a.png" Ha) as [H _].
    apply H. discriminate.
  - destruct (recorded_outcome_monotone ["a"; "b"] [] late caps "b" "" Hb)
      as [_ H].
    destruct (H eq_refl) as [Hreplaced _].
    apply Hreplaced.
    + apply list_elem_of_In. simpl. auto.
    + eexists. repeat split; reflexivity.
    + discriminate.
  - destruct (recorded_outcome_monotone ["a"; "b"] [] busy caps "b" "" Hb)
      as [_ H].
    destruct (H eq_refl) as [_ Hkept].
    apply Hkept. intros (_ & u & (d & Hd & Hst & _) & _).
    vm_compute in Hd. injection Hd as <-. discriminate Hst.
Defined.

(* --------------------------------------------------------------------- *)
(** ** The polling loop *)
(* --------------------------------------------------------------------- *)

Section Numbers.

Implicit Types (a n : nat) (m : Q).

Lemma attempt_le_spec a m :
  attempt_le a m = true ↔ (Z.of_nat a ≤ Qfloor m)%Z.
Proof.
  unfold attempt_le, whole. rewrite Qle_bool_iff. split.
  - intros H. apply Z.lt_succ_r. rewrite Zlt_Qlt.
    eapply Qle_lt_trans; [exact H|]. apply (Qlt_floor m).
  - intros H. eapply Qle_trans; [|apply Qfloor_le]. by rewrite <- Zle_Qle.
Qed.

Lemma attempt_lt_spec a m :
  attempt_lt a m = true ↔ (Z.of_nat a < Qceiling m)%Z.
Proof.
  unfold attempt_lt, whole. rewrite negb_true_iff.
  rewrite <- not_true_iff_false, Qle_bool_iff. split.
  - intros H. apply Qnot_le_lt in H. rewrite Zlt_Qlt.
    eapply Qlt_le_trans; [exact H|]. apply Qle_ceiling.
  - intros H. apply Qlt_not_le.
    eapply Qle_lt_trans; [|apply (Qceiling_lt m)].
    rewrite <- Zle_Qle. lia.
Qed.

Lemma attempt_le_whole a n : attempt_le a (whole n) = (a <=? n).
Proof.
  apply eq_true_iff_eq. rewrite attempt_le_spec. unfold whole.
  rewrite Qfloor_Z, Nat.leb_le. lia.
Qed.

Lemma attempt_lt_whole a n : attempt_lt a (whole n) = (a <? n).
Proof.
  apply eq_true_iff_eq. rewrite attempt_lt_spec. unfold whole.
  rewrite Qceiling_Z, Nat.ltb_lt. lia.
Qed.

Lemma budget_whole n : budget (whole n) = n.
Proof. unfold budget, whole. rewrite Qfloor_Z. lia. Qed.

(** An attempt that the bound admits is within the budget. *)
Lemma attempt_le_budget a m : attempt_le a m = true → a ≤ budget m.
Proof. rewrite attempt_le_spec. unfold budget. lia. Qed.


Lemma attempt_lt_le a m : attempt_lt a m = true → attempt_le (S a) m = false →
  attempt_le a m = true ∧ (Z.of_nat a < Qceiling m)%Z
  ∧ Qfloor m = Z.of_nat a.
Proof.
  rewrite attempt_lt_spec, <- not_true_iff_false, !attempt_le_spec.
  pose proof (Qfloor_le m) as Hf. pose proof (Qle_ceiling m) as Hc.
  assert (Qceiling m ≤ Qfloor m + 1)%Z as Hcf.
  { unfold Qceiling. pose proof (Qfloor_le (- m)) as H1.
    pose proof (Qlt_floor m) as H2.
    assert (inject_Z (- (Qfloor m + 1)) < - m)%Q as H3.
    { rewrite inject_Z_opp. by apply Qopp_lt_compat. }
    assert (- (Qfloor m + 1) ≤ Qfloor (- m))%Z; [|lia].
    apply Z.lt_succ_r. rewrite Zlt_Qlt.
    eapply Qlt_trans; [exact H3|]. apply (Qlt_floor (- m)). }
  lia.
Qed.

Lemma attempt_le_S_lt a m : attempt_le (S a) m = true → attempt_lt a m = true.
Proof.
  rewrite attempt_le_spec, attempt_lt_spec.
  assert (Qfloor m ≤ Qceiling m)%Z; [|lia].
  rewrite Zle_Qle. eapply Qle_trans; [apply Qfloor_le|apply Qle_ceiling].
Qed.

End Numbers.

Lemma elem_of_after (maxAttempts : Q) (ev : Event) (attempt : nat)
    (r : list Event * LoopEnd) :
  ev ∈ (after (EvFetch attempt :: wait attempt maxAttempts) r).1 ↔
  ev = EvFetch attempt
  ∨ (ev = EvSleep attempt ∧ attempt_lt attempt maxAttempts = true)
  ∨ ev ∈ r.1.
Proof.
  unfold after, wait. simpl. rewrite elem_of_cons, elem_of_app.
  destruct (attempt_lt attempt maxAttempts).
  - rewrite list_elem_of_singleton. tauto.
  - rewrite elem_of_nil. split; [tauto|].
    intros [?|[[_ ?]|?]]; [tauto|done|tauto].
Qed.

Section Polling.

Variable net : nat → AxiosOutcome.
Variable emailClients : list string.
Variable maxAttempts : Q.

Implicit Types (fuel attempt k : nat) (caps : CapturedUrls).
Implicit Types (tr : list Event) (e : LoopEnd).

Abbreviation loop := (pollLoop net emailClients maxAttempts).

Lemma loop_done fuel attempt caps :
  attempt_le attempt maxAttempts = false →
  loop fuel attempt caps = ([], Exhausted caps).
Proof. intros H. destruct fuel; simpl; by rewrite H. Qed.

Lemma loop_step fuel attempt caps :
  attempt_le attempt maxAttempts = true →
  loop (S fuel) attempt caps
  = match fetchResults (net attempt) with
    | inl msg => ([EvFetch attempt], Throw msg)
    | inr None =>
        after (EvFetch attempt :: wait attempt maxAttempts)
          (loop fuel (S attempt) caps)
    | inr (Some results) =>
        let p := processClientResults results emailClients caps in
        if checkIfShouldExit emailClients results p.2 p.1 attempt
        then ([EvFetch attempt], Break p.2)
        else after (EvFetch attempt :: wait attempt maxAttempts)
               (loop fuel (S attempt) p.2)
    end.
Proof.
  intros H. simpl. rewrite H. simpl.
  destruct (fetchResults (net attempt)) as [msg|[results|]]; try done.
  by destruct (processClientResults results emailClients caps).
Qed.

Lemma fetch_count_after attempt r :
  fetch_count (after (EvFetch attempt :: wait attempt maxAttempts) r).1
  = S (fetch_count r.1).
Proof.
  unfold after, fetch_count, wait. simpl.
  destruct (attempt_lt attempt maxAttempts); simpl; done.
Qed.

Lemma snapshots_of_after attempt r :
  snapshots_of net (after (EvFetch attempt :: wait attempt maxAttempts) r).1
  = match fetchResults (net attempt) with
    | inr (Some results) => results :: snapshots_of net r.1
    | _ => snapshots_of net r.1
    end.
Proof.
  unfold after, snapshots_of, wait. simpl.
  destruct (attempt_lt attempt maxAttempts); simpl;
    by destruct (fetchResults (net attempt)) as [|[|]].
Qed.

(** The recursion never runs out before the loop is left. *)
Lemma loop_fuel fuel attempt caps :
  budget maxAttempts < fuel + attempt → (loop fuel attempt caps).2 ≠ OutOfFuel.
Proof.
  revert attempt caps.
  induction fuel as [|fuel IH]; intros attempt caps Hf.
  - destruct (attempt_le attempt maxAttempts) eqn:Hle;
      [apply attempt_le_budget in Hle; lia|by rewrite loop_done].
  - destruct (attempt_le attempt maxAttempts) eqn:Hle;
      [|by rewrite loop_done].
    rewrite loop_step by done.
    destruct (fetchResults (net attempt)) as [msg|[results|]]; simpl.
    + done.
    + case_match; simpl; [done|]. apply IH. lia.
    + apply IH. lia.
Qed.

(** One fetch per attempt, for consecutive attempts. *)
Lemma loop_fetches fuel attempt caps :
  fetch_count (loop fuel attempt caps).1 ≤ S (budget maxAttempts) - attempt
  ∧ ∀ k, EvFetch k ∈ (loop fuel attempt caps).1 →
         attempt ≤ k ≤ budget maxAttempts
         ∧ ∀ j, attempt ≤ j ≤ k → EvFetch j ∈ (loop fuel attempt caps).1.
Proof.
  revert attempt caps.
  induction fuel as [|fuel IH]; intros attempt caps.
  { destruct (attempt_le attempt maxAttempts) eqn:Hle.
    - simpl. rewrite Hle. simpl.
      split; [unfold fetch_count; simpl; lia|]. by intros k ?%elem_of_nil.
    - rewrite loop_done by done. simpl.
      split; [unfold fetch_count; simpl; lia|]. by intros k ?%elem_of_nil. }
  destruct (attempt_le attempt maxAttempts) eqn:Hle.
  2:{ rewrite loop_done by done. simpl.
      split; [unfold fetch_count; simpl; lia|]. by intros k ?%elem_of_nil. }
  rewrite loop_step by done. apply attempt_le_budget in Hle.
  assert (∀ caps',
    let r := after (EvFetch attempt :: wait attempt maxAttempts)
               (loop fuel (S attempt) caps') in
    fetch_count r.1 ≤ S (budget maxAttempts) - attempt
    ∧ ∀ k, EvFetch k ∈ r.1 →
           attempt ≤ k ≤ budget maxAttempts
           ∧ ∀ j, attempt ≤ j ≤ k → EvFetch j ∈ r.1)
    as Hrec.
  { intros caps' r. subst r. destruct (IH (S attempt) caps') as [Hc Hk].
    split; [rewrite fetch_count_after; lia|].
    intros k Hin. apply (elem_of_after maxAttempts) in Hin as [[= ->]|[[[=] _]|Hin]].
    - split; [lia|]. intros j Hj. apply (elem_of_after maxAttempts). left.
      f_equal. lia.
    - destruct (Hk k Hin) as [Hr Hj]. split; [lia|].
      intros j Hjk. apply (elem_of_after maxAttempts).
      destruct (decide (j = attempt)) as [->|Hne]; [by left|].
      right; right. apply Hj. lia. }
  assert (fetch_count [EvFetch attempt] ≤ S (budget maxAttempts) - attempt
    ∧ ∀ k, EvFetch k ∈ [EvFetch attempt] →
           attempt ≤ k ≤ budget maxAttempts
           ∧ ∀ j, attempt ≤ j ≤ k → EvFetch j ∈ [EvFetch attempt]) as Hone.
  { split; [unfold fetch_count; simpl; lia|].
    intros k [= ->]%list_elem_of_singleton. split; [lia|].
    intros j Hj. apply list_elem_of_singleton. f_equal. lia. }
  destruct (fetchResults (net attempt)) as [msg|[results|]]; simpl.
  - exact Hone.
  - case_match; [exact Hone|apply Hrec].
  - apply Hrec.
Qed.

(** The map the loop is left with is the one obtained by processing, in
    order, the snapshots it fetched. *)
Lemma loop_caps fuel attempt caps caps' :
  caps_of (loop fuel attempt caps).2 = Some caps' →
  caps' = processAll emailClients
            (snapshots_of net (loop fuel attempt caps).1) caps.
Proof.
  revert attempt caps.
  induction fuel as [|fuel IH]; intros attempt caps.
  { simpl. destruct (attempt_le attempt maxAttempts); simpl; [done|].
    by intros [= <-]. }
  destruct (attempt_le attempt maxAttempts) eqn:Hle.
  2:{ rewrite loop_done by done. simpl. by intros [= <-]. }
  rewrite loop_step by done.
  destruct (fetchResults (net attempt)) as [msg|[results|]] eqn:Hf; simpl.
  - done.
  - case_match; simpl.
    + intros [= <-]. unfold snapshots_of. simpl. by rewrite Hf.
    + intros Hc. apply IH in Hc.
      pose proof (snapshots_of_after attempt
        (loop fuel (S attempt)
           (processClientResults results emailClients caps).2)) as Hs.
      unfold after in Hs. simpl in Hs. rewrite Hs, Hf. done.
  - intros Hc. apply IH in Hc.
    pose proof (snapshots_of_after attempt (loop fuel (S attempt) caps))
      as Hs.
    unfold after in Hs. simpl in Hs. rewrite Hs, Hf. done.
Qed.

(** The loop throws only the authentication error, on the last attempt
    it fetched. *)
Lemma loop_throw fuel attempt caps msg :
  (loop fuel attempt caps).2 = Throw msg →
  msg = auth_message
  ∧ ∃ k, net k = AxiosError (Some 401)
         ∧ EvFetch k ∈ (loop fuel attempt caps).1
         ∧ ∀ j, EvFetch j ∈ (loop fuel attempt caps).1 → j ≤ k.
Proof.
  revert attempt caps.
  induction fuel as [|fuel IH]; intros attempt caps.
  { simpl. by destruct (attempt_le attempt maxAttempts). }
  destruct (attempt_le attempt maxAttempts) eqn:Hle;
    [|by rewrite loop_done].
  rewrite loop_step by done.
  assert (∀ caps',
    (loop fuel (S attempt) caps').2 = Throw msg →
    let r := after (EvFetch attempt :: wait attempt maxAttempts)
               (loop fuel (S attempt) caps') in
    msg = auth_message
    ∧ ∃ k, net k = AxiosError (Some 401) ∧ EvFetch k ∈ r.1
           ∧ ∀ j, EvFetch j ∈ r.1 → j ≤ k) as Hrec.
  { intros caps' H r. subst r.
    destruct (IH _ _ H) as (-> & k & Hk & Hin & Hmax). split; [done|].
    exists k. split; [done|]. split.
    - apply (elem_of_after maxAttempts). by right; right.
    - intros j Hj. apply (elem_of_after maxAttempts) in Hj as [[= ->]|[[[=] _]|Hj]];
        [|by apply Hmax].
      destruct (loop_fetches fuel (S attempt) caps') as [_ Hb].
      destruct (Hb k Hin) as [? _]. lia. }
  destruct (fetchResults (net attempt)) as [m|[results|]] eqn:Hf; simpl.
  - intros [= <-]. unfold fetchResults in Hf.
    destruct (net attempt) as [[d|]|st|] eqn:Hn; try done.
    case_bool_decide as E; [|done]. injection Hf as <-. subst st.
    split; [done|]. exists attempt. split; [done|].
    split; [by apply list_elem_of_singleton|].
    by intros j [= ->]%list_elem_of_singleton.
  - case_match; simpl; [done|]. apply Hrec.
  - apply Hrec.
Qed.


End Polling.

(* --------------------------------------------------------------------- *)
(** ** The returned mapping *)
(* --------------------------------------------------------------------- *)

Section FinalResults.

Implicit Types (caps acc : CapturedUrls) (id u : string).

Lemma assign_lookup_ne (k u j : string) (acc : CapturedUrls) :
  j ≠ k → assign k u acc !! j = acc !! j.
Proof.
  intros Hne. unfold assign.
  destruct (String.eqb k "__proto__" && negb (bool_decide (is_Some (acc !! k))));
    [done|by rewrite lookup_insert_ne].
Qed.

Lemma build_fold_lookup (l : list (string * string)) acc id :
  NoDup l.*1 →
  (∀ k, k ∈ l.*1 → acc !! k = None) →
  foldl (fun successfulUrls '(id, url) =>
           if truthy_string url && negb (String.eqb url "")
           then assign id url successfulUrls
           else successfulUrls) acc l !! id
  = match (list_to_map l : CapturedUrls) !! id with
    | Some u =>
        if truthy_string u && negb (String.eqb id "__proto__") then Some u
        else acc !! id
    | None => acc !! id
    end.
Proof.
  revert acc. induction l as [|[k u] l IH]; intros acc Hnd Hacc; [done|].
  apply NoDup_cons in Hnd as [Hk Hnd]. simpl.
  assert (acc !! k = None) as Hkacc by (apply Hacc; by left).
  assert (∀ acc' : CapturedUrls,
    (∀ j, j ≠ k → acc' !! j = acc !! j) →
    ∀ j, j ∈ l.*1 → acc' !! j = None) as Hrest.
  { intros acc' Hsame j Hj. rewrite Hsame; [apply Hacc; by right|].
    intros ->. done. }
  rewrite IH; [|done|].
  2:{ apply Hrest. intros j Hj.
      destruct (truthy_string u && negb (String.eqb u "")); [|done].
      by apply assign_lookup_ne. }
  destruct (decide (id = k)) as [->|Hne].
  - rewrite lookup_insert_eq.
    rewrite (not_elem_of_list_to_map_1 _ _ Hk).
    unfold truthy_string, assign. rewrite Hkacc.
    rewrite (bool_decide_eq_false_2 (is_Some None)) by (by intros [? ?]).
    destruct (String.eqb u ""); simpl; [done|].
    rewrite andb_true_r.
    destruct (String.eqb k "__proto__"); simpl; [done|].
    by rewrite lookup_insert_eq.
  - rewrite lookup_insert_ne by done.
    assert ((if truthy_string u && negb (String.eqb u "")
             then assign k u acc else acc) !! id = acc !! id) as ->; [|done].
    destruct (truthy_string u && negb (String.eqb u "")); [|done].
    by apply assign_lookup_ne.
Qed.

(** The returned mapping holds the non-empty entries of the captured
    map, and nothing else; an entry under [__proto__] is lost. *)
Lemma buildFinalResults_lookup req caps id :
  buildFinalResults req caps !! id
  = match caps !! id with
    | Some u =>
        if truthy_string u && negb (String.eqb id "__proto__") then Some u
        else None
    | None => None
    end.
Proof.
  unfold buildFinalResults.
  rewrite build_fold_lookup;
    [|apply NoDup_fst_map_to_list|intros; apply lookup_empty].
  by rewrite list_to_map_to_list.
Qed.

Lemma buildFinalResults_Some req caps id u :
  buildFinalResults req caps !! id = Some u
  ↔ caps !! id = Some u ∧ u ≠ "" ∧ id ≠ "__proto__".
Proof.
  rewrite buildFinalResults_lookup.
  destruct (caps !! id) as [v|]; [|by split; [|intros []]].
  destruct (truthy_string v) eqn:E; simpl.
  - apply truthy_string_spec in E.
    destruct (String.eqb_spec id "__proto__") as [->|Hne]; simpl.
    + split; [done|]. by intros (_ & _ & ?).
    + split; [by intros [= <-]|]. by intros [[= <-] _].
  - split; [done|]. intros [[= <-] [Hu%truthy_string_spec _]]. congruence.
Qed.

Lemma buildFinalResults_plain req caps id :
  id ≠ "__proto__" →
  buildFinalResults req caps !! id = captured_url (caps !! id).
Proof.
  intros Hne. rewrite buildFinalResults_lookup. unfold captured_url.
  destruct (caps !! id) as [u|]; [|done].
  apply String.eqb_neq in Hne. rewrite Hne. by rewrite andb_true_r.
Qed.

Lemma proto_inherited : inherited "__proto__" = true.
Proof. done. Qed.

Lemma elem_of_snapshots_of net tr r :
  r ∈ snapshots_of net tr ↔ ∃ k, processed net tr k r.
Proof.
  unfold snapshots_of, processed. rewrite list_elem_of_omap. split.
  - intros ([k|k] & Hin & Hr); [|done]. exists k. split; [done|].
    destruct (fetchResults (net k)) as [|[r'|]]; congruence.
  - intros (k & Hin & Hr). exists (EvFetch k). by rewrite Hr.
Qed.

(** Where an entry of the map comes from. *)
Lemma entry_step_origin results id v w :
  entry_step results id v = Some w →
  v = Some w
  ∨ (w = "" ∧ fails_in results id)
  ∨ (w ≠ "" ∧ completes_with results id w).
Proof.
  unfold entry_step, fails_in, completes_with.
  destruct (client_of results id) as [d|] eqn:Hd; [|by left].
  destruct (status_is "Complete" (status d)) eqn:HC.
  - apply status_is_spec in HC.
    destruct (screenshots_default d) as [u|] eqn:Hu; [|by left].
    destruct (truthy_string u && negb (truthy_at id v)) eqn:E; [|by left].
    apply andb_true_iff in E as [E%truthy_string_spec _].
    intros [= <-]. right; right. split; [done|]. exists d.
    split; [|done]. apply client_of_status; [done|by rewrite HC].
  - destruct (status_is "Failed" (status d)
              || status_is "Bounced" (status d)) eqn:HF; [|by left].
    destruct (negb (truthy_at id v)); [|by left].
    intros [= <-]. right; left. split; [done|]. exists d.
    apply orb_true_iff in HF as [H%status_is_spec|H%status_is_spec];
      (split; [apply client_of_status; [done|by rewrite H]|auto]).
Qed.

Lemma processAll_cons req r snapshots caps :
  processAll req (r :: snapshots) caps
  = processAll req snapshots (processClientResults r req caps).2.
Proof. done. Qed.

Lemma processAll_origin req snapshots caps id w :
  processAll req snapshots caps !! id = Some w →
  caps !! id = Some w
  ∨ (w = "" ∧ ∃ r, r ∈ snapshots ∧ fails_in r id)
  ∨ (w ≠ "" ∧ ∃ r, r ∈ snapshots ∧ id ∈ clientsToCheck req r
                   ∧ completes_with r id w).
Proof.
  revert caps. induction snapshots as [|r rest IH]; intros caps; [by left|].
  rewrite processAll_cons. intros H.
  destruct (IH _ H) as [Hc|[[-> (r' & Hin & Hf)]|[Hw (r' & Hin & Hf)]]].
  - rewrite processClientResults_lookup in Hc.
    case_bool_decide as Hid; [|by left].
    destruct (entry_step_origin _ _ _ _ Hc) as [?|[[-> Hf]|[Hw Hf]]].
    + by left.
    + right; left. split; [done|]. exists r. split; [by left|done].
    + right; right. split; [done|]. exists r. split; [by left|done].
  - right; left. split; [done|]. exists r'. split; [by right|done].
  - right; right. split; [done|]. exists r'. split; [by right|done].
Qed.

Lemma complete_url_spec results id u :
  complete_url results id = Some u ↔ completes_with results id u ∧ u ≠ "".
Proof.
  unfold complete_url, completes_with.
  destruct (snapshot_entry results id) as [[st sh]|]; simpl.
  2:{ split; [done|]. by intros [(d & [=] & _) _]. }
  destruct st as [st|], sh as [v|]; simpl;
    try (split; [done|]; intros [(d & [= <-] & Hs & Hv) _]; simpl in *;
         congruence).
  destruct (String.eqb_spec st "Complete") as [->|Hst]; simpl.
  - destruct (String.eqb_spec v "") as [->|Hv]; simpl.
    + split; [done|]. intros [(d & [= <-] & _ & Hu) Hne]. simpl in Hu.
      congruence.
    + split.
      * intros [= <-]. split; [|done]. by eexists.
      * intros [(d & [= <-] & _ & Hu) _]. simpl in Hu. congruence.
  - split; [done|]. intros [(d & [= <-] & Hs & _) _]. simpl in Hs. congruence.
Qed.

Lemma first_url_Some snapshots id u :
  first_url snapshots id = Some u →
  u ≠ "" ∧ ∃ r, r ∈ snapshots ∧ completes_with r id u.
Proof.
  induction snapshots as [|r rest IH]; simpl; [done|].
  destruct (complete_url r id) as [u'|] eqn:E.
  - intros [= ->]. apply complete_url_spec in E as [Hc Hne].
    split; [done|]. exists r. split; [by left|done].
  - intros H. destruct (IH H) as (Hne & r' & Hin & Hc).
    split; [done|]. exists r'. split; [by right|done].
Qed.

Lemma first_url_None snapshots id :
  first_url snapshots id = None ↔
  ∀ r u, r ∈ snapshots → completes_with r id u → u = "".
Proof.
  induction snapshots as [|r rest IH]; simpl.
  { split; [|done]. by intros _ r u ?%elem_of_nil. }
  destruct (complete_url r id) as [u'|] eqn:E.
  - split; [done|]. intros H. apply complete_url_spec in E as [Hc Hne].
    destruct Hne. apply (H r); [by left|done].
  - rewrite IH. split.
    + intros H r' u Hin Hc.
      apply elem_of_cons in Hin as [Heq|Hin]; [subst r'|by apply (H r')].
      destruct (decide (u = "")) as [|Hne]; [done|].
      assert (complete_url r id = Some u) as Hs
        by (by apply complete_url_spec).
      congruence.
    + intros H r' u Hin. apply H. by right.
Qed.

(** What one snapshot does to the URL held for a client whose name is not
    that of an inherited member. *)
Lemma entry_step_url results id v :
  inherited id = false →
  captured_url (entry_step results id v)
  = match captured_url v with
    | Some u => Some u
    | None => complete_url results id
    end.
Proof.
  intros Hid.
  assert (truthy_at id v = bool_decide (is_Some (captured_url v))) as Ht.
  { rewrite truthy_at_plain by done. destruct v as [u|]; simpl; [|done].
    by destruct (truthy_string u). }
  destruct (captured_url v) as [u0|] eqn:Hv.
  { rewrite entry_step_truthy; [done|]. rewrite Ht.
    by apply bool_decide_eq_true_2. }
  assert (truthy_at id v = false) as Hf.
  { rewrite Ht. apply bool_decide_eq_false_2. by intros [? ?]. }
  unfold entry_step, complete_url.
  rewrite client_of_plain by done.
  destruct (snapshot_entry results id) as [[st sh]|]; simpl; [|done].
  rewrite Hf. simpl.
  destruct st as [st|]; simpl; [|by rewrite Hv].
  destruct (String.eqb st "Complete"); simpl.
  - destruct sh as [u|]; simpl; [|by rewrite Hv].
    rewrite andb_true_r. unfold truthy_string.
    destruct (String.eqb u "") eqn:Eu; simpl; [by rewrite Hv|].
    unfold truthy_string. by rewrite Eu.
  - assert (captured_url
              (if String.eqb st "Failed" || String.eqb st "Bounced"
               then Some "" else v) = None) as Hm.
    { by destruct (String.eqb st "Failed" || String.eqb st "Bounced"). }
    rewrite Hm. by destruct sh.
Qed.

Lemma clientsToCheck_wanted req results id :
  wanted req id → inherited id = false →
  id ∈ clientsToCheck req results ∨ client_of results id = None.
Proof.
  intros [->|Hin] Hid.
  - unfold clientsToCheck, Object_keys. simpl.
    destruct (results !! id) as [c|] eqn:E.
    + left. apply list_elem_of_fmap. exists (id, c).
      split; [done|]. by apply elem_of_map_to_list.
    + right. unfold client_of. by rewrite E, Hid.
  - left. unfold clientsToCheck. destruct req; [by apply elem_of_nil in Hin|].
    done.
Qed.

Lemma clientsToCheck_unwanted req results id :
  ¬ wanted req id → id ∉ clientsToCheck req results.
Proof.
  intros Hw Hin. apply Hw. unfold clientsToCheck in Hin.
  destruct req; [by left|by right].
Qed.

(** The URL held for a client after a sequence of snapshots. *)
Lemma processAll_url req snapshots caps id :
  wanted req id → inherited id = false →
  captured_url (processAll req snapshots caps !! id)
  = match captured_url (caps !! id) with
    | Some u => Some u
    | None => first_url snapshots id
    end.
Proof.
  intros Hw Hid. revert caps.
  induction snapshots as [|r rest IH]; intros caps.
  { simpl. by destruct (captured_url (caps !! id)). }
  rewrite processAll_cons, IH.
  assert ((processClientResults r req caps).2 !! id
          = entry_step r id (caps !! id)) as ->.
  { rewrite processClientResults_lookup.
    destruct (clientsToCheck_wanted req r id Hw Hid) as [Hin|Hnone].
    - by rewrite bool_decide_eq_true_2.
    - case_bool_decide; [done|]. unfold entry_step. by rewrite Hnone. }
  rewrite entry_step_url by done. simpl.
  by destruct (captured_url (caps !! id)), (complete_url r id).
Qed.

Lemma processAll_unwanted req snapshots caps id :
  ¬ wanted req id → processAll req snapshots caps !! id = caps !! id.
Proof.
  intros Hw. revert caps.
  induction snapshots as [|r rest IH]; intros caps; [done|].
  rewrite processAll_cons, IH, processClientResults_lookup.
  rewrite bool_decide_eq_false_2; [done|].
  by apply clientsToCheck_unwanted.
Qed.

(** Nothing is ever stored under the name of an inherited member. *)
Lemma processAll_inherited req snapshots id :
  inherited id = true → processAll req snapshots ∅ !! id = None.
Proof.
  intros Hid. rewrite processAll_truthy; [done|].
  by rewrite lookup_empty.
Qed.

(** The mapping that is built from the snapshots of a run. *)
Lemma final_urls req snapshots id :
  buildFinalResults req (processAll req snapshots ∅) !! id
  = if bool_decide (wanted req id ∧ id ∉ Object_prototype)
    then first_url snapshots id else None.
Proof.
  destruct (inherited id) eqn:Hid.
  - rewrite buildFinalResults_lookup, processAll_inherited by done.
    rewrite bool_decide_eq_false_2; [done|]. intros [_ H].
    apply inherited_spec in H. congruence.
  - rewrite buildFinalResults_plain.
    2:{ intros ->. by rewrite proto_inherited in Hid. }
    destruct (decide (wanted req id)) as [Hw|Hw].
    + rewrite processAll_url by done. rewrite lookup_empty. simpl.
      rewrite bool_decide_eq_true_2; [done|].
      split; [done|by apply inherited_spec].
    + rewrite processAll_unwanted by done. rewrite lookup_empty. simpl.
      rewrite bool_decide_eq_false_2; [done|]. by intros [? _].
Qed.

End FinalResults.

(* --------------------------------------------------------------------- *)
(** ** getPreviewUrls *)
(* --------------------------------------------------------------------- *)

Section Run.

Variable net : nat → AxiosOutcome.
Variable emailClients : list string.
Variable maxAttempts : Q.

Implicit Types (fuel attempt k : nat) (caps : CapturedUrls).

Abbreviation loop' := (pollLoop net emailClients maxAttempts).




(** An authentication failure on an attempt the loop fetches ends the
    loop there. *)
Lemma loop_auth fuel attempt caps k :
  net k = AxiosError (Some 401) →
  EvFetch k ∈ (loop' fuel attempt caps).1 →
  (loop' fuel attempt caps).2 = Throw auth_message
  ∧ ∀ j, EvFetch j ∈ (loop' fuel attempt caps).1 → j ≤ k.
Proof.
  intros Hk. revert attempt caps.
  induction fuel as [|fuel IH]; intros attempt caps.
  { simpl. destruct (attempt_le attempt maxAttempts); simpl;
      by intros ?%elem_of_nil. }
  destruct (attempt_le attempt maxAttempts) eqn:Hle.
  2:{ rewrite loop_done by done. by intros ?%elem_of_nil. }
  rewrite loop_step by done.
  destruct (decide (k = attempt)) as [->|Hne].
  { rewrite Hk. simpl. intros _. split; [done|].
    by intros j [= ->]%list_elem_of_singleton. }
  assert (∀ caps',
    let r := after (EvFetch attempt :: wait attempt maxAttempts)
               (loop' fuel (S attempt) caps') in
    EvFetch k ∈ r.1 →
    r.2 = Throw auth_message ∧ ∀ j, EvFetch j ∈ r.1 → j ≤ k) as Hrec.
  { intros caps' r Hin. subst r.
    apply (elem_of_after maxAttempts) in Hin.
    destruct Hin as [Hin|[[Hin _]|Hin]]; [congruence|discriminate|].
    destruct (IH _ _ Hin) as [He Hmax]. split; [done|].
    intros j Hj. apply (elem_of_after maxAttempts) in Hj.
    destruct Hj as [Hj|[[Hj _]|Hj]]; [|discriminate|by apply Hmax].
    injection Hj as ->.
    destruct (loop_fetches net emailClients maxAttempts fuel (S attempt)
                caps') as [_ Hb].
    destruct (Hb k Hin) as [? _]. lia. }
  destruct (fetchResults (net attempt)) as [m|[results|]]; simpl.
  - intros [= ->]%list_elem_of_singleton. done.
  - case_match; [|apply Hrec].
    intros [= ->]%list_elem_of_singleton. done.
  - apply Hrec.
Qed.

Lemma run_unfold (test_id : option string) :
  truthy test_id = true →
  getPreviewUrls net maxAttempts test_id emailClients
  = ((loop' (budget maxAttempts) 1 ∅).1,
     match (loop' (budget maxAttempts) 1 ∅).2 with
     | Break capturedUrls | Exhausted capturedUrls =>
         Returned (buildFinalResults emailClients capturedUrls)
     | Throw msg => Thrown msg
     | OutOfFuel => Unfinished
     end).
Proof.
  intros Ht. unfold getPreviewUrls. rewrite Ht. simpl.
  by destruct (loop' (budget maxAttempts) 1 ∅).
Qed.

End Run.

(** All requested clients Complete with URLs on attempt 3 of 60: the loop
    is left on attempt 3. *)
Example early_termination :
  let done_ : Results :=
    {[ "gmail" := Client {| status := Some "Complete";
                            screenshots_default := Some "https://shots/g.png" |} ]} in
  let busy : Results :=
    {[ "gmail" := Client {| status := Some "Processing";
                            screenshots_default := None |} ]} in
  let net := fun k => Responded (Some (if k <? 3 then busy else done_)) in
  getPreviewUrls net 60 (Some "t-1") ["gmail"]
  = ([EvFetch 1; EvSleep 1; EvFetch 2; EvSleep 2; EvFetch 3],
     Returned {[ "gmail" := "https://shots/g.png" ]}).
Proof. vm_compute. reflexivity. Qed.

(** A requested client that never appears holds the loop until attempt 10,
    the others being finished from the start. *)
Example grace_floor :
  let snap : Results :=
    {[ "gmail" := Client {| status := Some "Complete";
                            screenshots_default := Some "https://shots/g.png" |} ]} in
  let run := getPreviewUrls (fun _ => Responded (Some snap)) 60 (Some "t-1")
               ["gmail"; "aol"] in
  fetch_count run.1 = 10
  ∧ run.2 = Returned {[ "gmail" := "https://shots/g.png" ]}.
Proof. split; vm_compute; reflexivity. Qed.

(** C10: with a missing or empty [test_id], getPreviewUrls throws
    "Missing test ID" having done nothing: no status fetch, no sleep, and no
    captured-URL map is returned. *)
Theorem getPreviewUrls_missing_test_id (net : nat → AxiosOutcome)
    (maxAttempts : nat) (test_id : option string)
    (emailClients : list string) :
  test_id = None ∨ test_id = Some "" →
  getPreviewUrls net maxAttempts test_id emailClients
  = ([], Thrown "Missing test ID").
Proof. by intros [-> | ->]. Qed.

Lemma getPreviewUrls_missing_test_id_witness :
  (Some "" = None ∨ Some "" = Some "")
  ∧ getPreviewUrls (fun _ => Responded None) 60 (Some "") ["gmail_webmail"]
    = ([], Thrown "Missing test ID").
Proof.
  split; [by right|].
  apply (getPreviewUrls_missing_test_id (fun _ => Responded None) 60 (Some "")
           ["gmail_webmail"]).
  by right.
Defined.



(** C5: a fetch that ends in an error other than an HTTP 401 is a soft
    failure: [fetchResults] returns [null], the attempt performs its fetch
    and its wait, the captured-URL map is passed on unchanged and the loop
    goes on with the next attempt.  An HTTP 401 makes [fetchResults] throw;
    the loop ends on that attempt with the exception, and a run that
    fetches such an attempt throws and fetches no later one. *)
Theorem poll_error_handling (net : nat → AxiosOutcome)
    (emailClients : list string) (maxAttempts fuel attempt : nat)
    (capturedUrls : CapturedUrls) (test_id : option string) :
  attempt ≤ maxAttempts →
  is_fetch_error (net attempt) →
  (net attempt ≠ AxiosError (Some 401) →
   fetchResults (net attempt) = inr None
   ∧ pollLoop net emailClients maxAttempts (S fuel) attempt capturedUrls
     = after (EvFetch attempt :: wait attempt maxAttempts)
         (pollLoop net emailClients maxAttempts fuel (S attempt)
            capturedUrls))
  ∧ (net attempt = AxiosError (Some 401) →
     fetchResults (net attempt) = inl auth_message
     ∧ pollLoop net emailClients maxAttempts (S fuel) attempt capturedUrls
       = ([EvFetch attempt], Throw auth_message)
     ∧ let run := getPreviewUrls net maxAttempts test_id emailClients in
       (EvFetch attempt ∈ run.1 →
        run.2 = Thrown auth_message
        ∧ ∀ j, EvFetch j ∈ run.1 → j ≤ attempt)).
Proof.
  intros Hle Herr.
  assert (attempt_le attempt maxAttempts = true) as Hle'.
  { rewrite attempt_le_whole. by apply Nat.leb_le. }
  split.
  - intros Hne.
    assert (fetchResults (net attempt) = inr None) as Hf.
    { destruct (net attempt) as [d|st|]; simpl in *; [done| |done].
      case_bool_decide; [congruence|done]. }
    split; [done|]. by rewrite loop_step, Hf.
  - intros H401.
    assert (fetchResults (net attempt) = inl auth_message) as Hf.
    { by rewrite H401. }
    split; [done|]. split; [by rewrite loop_step, Hf|].
    simpl. destruct (truthy test_id) eqn:Ht.
    + rewrite run_unfold by done. simpl. intros Hin.
      destruct (loop_auth net emailClients maxAttempts
                  (budget maxAttempts) 1 ∅ attempt H401 Hin) as [-> Hmax].
      done.
    + unfold getPreviewUrls. rewrite Ht. simpl. by intros ?%elem_of_nil.
Qed.

Lemma poll_error_handling_witness :
  let net := fun k : nat =>
    if k =? 2 then AxiosError (Some 401) else AxiosError (Some 500) in
  let run := getPreviewUrls net 5 (Some "t-1") ["gmail_webmail"] in
  (1 ≤ 5 ∧ is_fetch_error (net 1) ∧ net 1 ≠ AxiosError (Some 401))
  ∧ (2 ≤ 5 ∧ is_fetch_error (net 2) ∧ net 2 = AxiosError (Some 401))
  ∧ pollLoop net ["gmail_webmail"] 5 5 1 ∅
    = ([EvFetch 1; EvSleep 1; EvFetch 2], Throw auth_message)
  ∧ EvFetch 2 ∈ run.1
  ∧ run.2 = Thrown auth_message
  ∧ ∀ j, EvFetch j ∈ run.1 → j ≤ 2.
Proof.
  intros net run.
  destruct (poll_error_handling net ["gmail_webmail"] 5 4 1 ∅ (Some "t-1"))
    as [Hsoft _]; [lia|exact I|].
  destruct Hsoft as [_ Hstep]; [discriminate|].
  destruct (poll_error_handling net ["gmail_webmail"] 5 3 2 ∅ (Some "t-1"))
    as [_ Hauth]; [lia|exact I|].
  destruct Hauth as (_ & Hthrow & Hrun); [reflexivity|].
  assert (EvFetch 2 ∈ run.1) as Hin.
  { apply list_elem_of_In. vm_compute. auto. }
  split; [split; [lia|split; [exact I|discriminate]]|].
  split; [split; [lia|split; [exact I|reflexivity]]|].
  split.
  { change (pollLoop net ["gmail_webmail"] (whole 5) 5 1 ∅
            = ([EvFetch 1; EvSleep 1; EvFetch 2], Throw auth_message)).
    rewrite Hstep, Hthrow. reflexivity. }
  split; [exact Hin|].
  exact (Hrun Hin).
Defined.

(** C4, as stated, fails in two ways.  A client that a processed snapshot
    reports Failed gets an entry all the same when a later processed
    snapshot reports it Complete with a URL: here "a" on attempts 1 and 2,
    "b" keeping the loop polling after attempt 1.  And a client that bears
    the name of a member of [Object.prototype] gets no entry although the
    snapshot reports it Complete with a URL: [capturedUrls[clientId]] is
    then the inherited member, and nothing is stored. *)
Lemma partial_success_fails :
  let s1 : Results :=
    {[ "a" := Client {| status := Some "Failed"; screenshots_default := None |};
       "b" := Client {| status := Some "Processing";
                        screenshots_default := None |} ]} in
  let s2 : Results :=
    {[ "a" := Client {| status := Some "Complete";
                        screenshots_default := Some "https://shots/a.png" |};
       "b" := Client {| status := Some "Complete";
                        screenshots_default := Some "https://shots/b.png" |} ]} in
  let net := fun k : nat => Responded (Some (if k =? 1 then s1 else s2)) in
  let run := getPreviewUrls net 60 (Some "t-1") ["a"; "b"] in
  let s3 : Results :=
    {[ "constructor" :=
         Client {| status := Some "Complete";
                   screenshots_default := Some "https://shots/c.png" |} ]} in
  let run' := getPreviewUrls (fun _ => Responded (Some s3)) 60 (Some "t-1")
                ["constructor"] in
  (processed net run.1 1 s1 ∧ fails_in s1 "a"
   ∧ processed net run.1 2 s2 ∧ completes_with s2 "b" "https://shots/b.png"
   ∧ run.2 = Returned {[ "a" := "https://shots/a.png";
                         "b" := "https://shots/b.png" ]})
  ∧ (processed (fun _ => Responded (Some s3)) run'.1 1 s3
     ∧ completes_with s3 "constructor" "https://shots/c.png"
     ∧ run'.2 = Returned ∅).
Proof.
  intros s1 s2 net run s3 run'.
  assert (run = ([EvFetch 1; EvSleep 1; EvFetch 2],
                 Returned {[ "a" := "https://shots/a.png";
                             "b" := "https://shots/b.png" ]})) as ->
    by (vm_compute; reflexivity).
  assert (run' = ([EvFetch 1], Returned ∅)) as ->
    by (vm_compute; reflexivity).
  split; [split; [|split; [|split; [|split]]]|split; [|split]].
  - split; [|reflexivity]. apply list_elem_of_In. simpl. auto.
  - eexists. split; [reflexivity|]. by left.
  - split; [|reflexivity]. apply list_elem_of_In. simpl. auto.
  - eexists. repeat split; reflexivity.
  - reflexivity.
  - split; [|reflexivity]. apply list_elem_of_In. simpl. auto.
  - eexists. repeat split; reflexivity.
  - reflexivity.
Qed.

(** C4 (amended): the mapping getPreviewUrls returns holds, for every
    client that is asked for (a requested client, or any client when none
    is requested) and does not bear the name of a member of
    [Object.prototype], the first non-empty screenshot URL that a processed
    snapshot reports for it as Complete, and nothing else.  So when a
    processed snapshot reports such a client A Complete with a non-empty
    URL, no processed snapshot reports B Complete with a non-empty URL (B
    being reported Failed or Bounced), and C appears in no snapshot within
    the attempt budget, the mapping holds for A a URL reported for it and no
    entry for B or for C. *)
Theorem partial_success_materializes (net : nat → AxiosOutcome)
    (maxAttempts : nat) (test_id : option string)
    (emailClients : list string) (tr : list Event) (urls : CapturedUrls)
    (A B C : string) :
  getPreviewUrls net maxAttempts test_id emailClients = (tr, Returned urls) →
  (∀ id, urls !! id
         = if bool_decide (wanted emailClients id ∧ id ∉ Object_prototype)
           then first_url (snapshots_of net tr) id else None)
  ∧ (wanted emailClients A → A ∉ Object_prototype →
     (∃ k r u, processed net tr k r ∧ completes_with r A u ∧ u ≠ "") →
     ∃ k r u, processed net tr k r ∧ completes_with r A u ∧ u ≠ ""
              ∧ urls !! A = Some u)
  ∧ ((∀ k r u, processed net tr k r → completes_with r B u → u = "") →
     urls !! B = None)
  ∧ ((∀ k r, 1 ≤ k ≤ maxAttempts → fetchResults (net k) = inr (Some r) →
             ¬ appeared r C) →
     urls !! C = None).
Proof.
  intros Hrun.
  destruct (truthy test_id) eqn:Ht.
  2:{ unfold getPreviewUrls in Hrun. rewrite Ht in Hrun. simpl in Hrun.
      congruence. }
  rewrite run_unfold, budget_whole in Hrun by done.
  injection Hrun as Htr Hout.
  set (l := pollLoop net emailClients maxAttempts maxAttempts 1 ∅) in *.
  assert (∃ caps, caps_of l.2 = Some caps
                  ∧ urls = buildFinalResults emailClients caps)
    as (caps & Hcaps & ->).
  { destruct l.2 as [c|c|m|]; try done; injection Hout as <-; by exists c. }
  apply loop_caps in Hcaps. fold l in Hcaps. rewrite Htr in Hcaps.
  subst caps.
  assert (∀ id u,
    buildFinalResults emailClients
      (processAll emailClients (snapshots_of net tr) ∅) !! id = Some u →
    u ≠ "" ∧ ∃ k r, processed net tr k r ∧ completes_with r id u) as Hsome.
  { intros id u. rewrite final_urls. case_bool_decide; [|done].
    intros (Hne & r & Hin & Hc)%first_url_Some. split; [done|].
    apply elem_of_snapshots_of in Hin as [k Hk]. by exists k, r. }
  split; [intros id; apply final_urls|]. split; [|split].
  - intros Hw HA (k & r & u & Hp & Hc & Hne).
    destruct (buildFinalResults emailClients
                (processAll emailClients (snapshots_of net tr) ∅) !! A)
      as [u'|] eqn:E.
    + destruct (Hsome _ _ E) as (Hne' & k' & r' & Hp' & Hc').
      by exists k', r', u'.
    + rewrite final_urls, bool_decide_eq_true_2 in E by done.
      destruct Hne. apply (proj1 (first_url_None _ _) E r); [|done].
      apply elem_of_snapshots_of. by exists k.
  - intros HB.
    destruct (buildFinalResults emailClients
                (processAll emailClients (snapshots_of net tr) ∅) !! B)
      as [u|] eqn:E; [|done].
    destruct (Hsome _ _ E) as (Hne & k & r & Hp & Hc).
    destruct Hne. by apply (HB k r).
  - intros HC.
    destruct (buildFinalResults emailClients
                (processAll emailClients (snapshots_of net tr) ∅) !! C)
      as [u|] eqn:E; [|done].
    destruct (Hsome _ _ E) as (Hne & k & r & [Hin Hf] & d & Hd & _).
    rewrite <- Htr in Hin.
    destruct (loop_fetches net emailClients maxAttempts maxAttempts 1 ∅)
      as [_ Hb].
    destruct (Hb k Hin) as [Hr _]. rewrite budget_whole in Hr.
    destruct (HC k r Hr Hf). by exists d.
Qed.

Lemma partial_success_materializes_witness :
  let snap : Results :=
    {[ "gmail" := Client {| status := Some "Complete";
                            screenshots_default := Some "https://shots/g.png" |};
       "lotus" := Client {| status := Some "Bounced";
                            screenshots_default := None |} ]} in
  let net := fun _ : nat => Responded (Some snap) in
  let req := ["gmail"; "lotus"; "aol"] in
  let tr := [EvFetch 1; EvSleep 1; EvFetch 2] in
  let urls : CapturedUrls := {[ "gmail" := "https://shots/g.png" ]} in
  getPreviewUrls net 2 (Some "t-1") req = (tr, Returned urls)
  ∧ processed net tr 1 snap
  ∧ completes_with snap "gmail" "https://shots/g.png"
  ∧ fails_in snap "lotus"
  ∧ ¬ appeared snap "aol"
  ∧ (∃ k r u, processed net tr k r ∧ completes_with r "gmail" u ∧ u ≠ ""
              ∧ urls !! "gmail" = Some u)
  ∧ urls !! "lotus" = None ∧ urls !! "aol" = None.
Proof.
  intros snap net req tr urls.
  assert (getPreviewUrls net 2 (Some "t-1") req = (tr, Returned urls)) as Hrun.
  { vm_compute. reflexivity. }
  assert (processed net tr 1 snap) as Hp.
  { split; [|reflexivity]. apply list_elem_of_In. simpl. auto. }
  assert (completes_with snap "gmail" "https://shots/g.png") as Hc.
  { eexists. repeat split; reflexivity. }
  assert (fails_in snap "lotus") as Hf.
  { eexists. split; [reflexivity|]. right. reflexivity. }
  assert (¬ appeared snap "aol") as Hn.
  { intros [d Hd]. discriminate Hd. }
  destruct (partial_success_materializes net 2 (Some "t-1") req tr urls
              "gmail" "lotus" "aol" Hrun)
    as (_ & HA & HB & HC).
  split; [exact Hrun|]. split; [exact Hp|]. split; [exact Hc|].
  split; [exact Hf|]. split; [exact Hn|]. split; [|split].
  - apply HA.
    + right. apply list_elem_of_In. simpl. auto.
    + intros H. apply list_elem_of_In in H. simpl in H.
      repeat (destruct H as [H|H]; [discriminate H|]). exact H.
    + exists 1, snap, "https://shots/g.png".
      split; [exact Hp|]. split; [exact Hc|discriminate].
  - apply HB. intros k r u [_ Hk] (d & Hd & Hs & _).
    injection Hk as <-. vm_compute in Hd. injection Hd as <-.
    discriminate Hs.
  - apply HC. intros k r _ Hk. injection Hk as <-. exact Hn.
Defined.

(* --------------------------------------------------------------------- *)
(** ** The exit decision *)
(* --------------------------------------------------------------------- *)

Section ExitDecision.

Implicit Types (results : Results) (caps : CapturedUrls) (id : string).
Implicit Types (req : list string).

Lemma filter_length_le {A} (f : A → bool) (l : list A) :
  length (List.filter f l) ≤ length l.
Proof. induction l as [|x l IH]; simpl; [done|]. destruct (f x); simpl; lia. Qed.

(** A filter keeps the length exactly when it keeps everything. *)
Lemma filter_length_all {A} (f : A → bool) (l : list A) :
  length (List.filter f l) = length l ↔ Forall (fun x => f x = true) l.
Proof.
  induction l as [|x l IH]; simpl; [by split|].
  rewrite Forall_cons. destruct (f x) eqn:E; simpl.
  - rewrite <- IH. split; [intros [=]; by split|intros [_ ->]; done].
  - pose proof (filter_length_le f l). split; [lia|intros [[=] _]].
Qed.

Lemma Forall_filter_iff {A} (P : A → Prop) (f : A → bool) (l : list A) :
  Forall P (List.filter f l) ↔ Forall (fun x => f x = true → P x) l.
Proof.
  induction l as [|x l IH]; simpl; [by split|].
  rewrite Forall_cons. destruct (f x) eqn:E.
  - rewrite Forall_cons, IH.
    split; [intros [? ?]; by split|intros [Hx ?]; split; auto].
  - rewrite IH. split; [intros ?; by split|by intros [_ ?]].
Qed.

Lemma eqb_bool_decide (b : bool) (P : Prop) `{!Decision P} :
  (b = true ↔ P) → b = bool_decide P.
Proof.
  intros H. symmetry. destruct b.
  - apply bool_decide_eq_true_2. by apply H.
  - apply bool_decide_eq_false_2. intros HP. apply H in HP. discriminate.
Qed.

(** The status read through [results[id]] is the one the snapshot
    reports: an inherited member has none. *)
Lemma status_reported results id :
  client_of results id ≫= status = reported_status results id.
Proof.
  unfold client_of, reported_status, snapshot_entry.
  destruct (results !! id) as [[|d]|]; simpl; try done.
  by destruct (inherited id).
Qed.

Lemma is_finished_spec results id :
  is_finished results id = true
  ↔ terminal_status (reported_status results id).
Proof.
  unfold is_finished, terminal_status. rewrite status_reported.
  rewrite !orb_true_iff, !status_is_spec. tauto.
Qed.

Lemma snapshot_empty results :
  (length (Object_keys results) =? 0) = bool_decide (results = ∅).
Proof.
  apply eqb_bool_decide. rewrite Nat.eqb_eq. unfold Object_keys.
  rewrite length_fmap, length_zero_iff_nil. apply map_to_list_empty_iff.
Qed.

Lemma Forall_scope (P : string → Prop) req results :
  Forall P (clientsToCheck req results)
  ↔ Forall P (clients_in_scope req results).
Proof.
  rewrite !Forall_forall. split; intros H id Hin; apply H;
    by apply clientsToCheck_scope.
Qed.

Lemma Forall_iff_plain (P Q : string → Prop) (l : list string) :
  plain_names l →
  (∀ id, inherited id = false → P id ↔ Q id) →
  Forall P l ↔ Forall Q l.
Proof.
  unfold plain_names. rewrite !Forall_forall. intros Hp HPQ.
  split; intros H id Hin; apply HPQ; auto; apply inherited_spec; auto.
Qed.

Lemma plain_scope req results :
  plain_names (clients_in_scope req results) →
  plain_names (clientsToCheck req results).
Proof. unfold plain_names. by rewrite Forall_scope. Qed.

Lemma appeared_plain results id :
  inherited id = false →
  is_Some (client_of results id) ↔ appeared results id.
Proof. intros H. unfold appeared. by rewrite client_of_plain. Qed.

Lemma allFinished_spec req results :
  plain_names (clients_in_scope req results) →
  allFinished req results = true ↔ AllFinished req results.
Proof.
  intros Hp.
  unfold allFinished, finishedClients, appearedClients, AllFinished.
  rewrite Nat.eqb_eq, filter_length_all, Forall_filter_iff.
  rewrite <- Forall_scope.
  apply Forall_iff_plain; [by apply plain_scope|]. intros id Hid.
  by rewrite bool_decide_eq_true, is_finished_spec, appeared_plain.
Qed.

Lemma allRequestedAppeared_spec req results :
  plain_names (clients_in_scope req results) →
  allRequestedAppeared req results = true ↔ AllRequestedAppeared req results.
Proof.
  intros Hp.
  unfold allRequestedAppeared, appearedClients, AllRequestedAppeared.
  rewrite Nat.eqb_eq, filter_length_all.
  rewrite <- Forall_scope.
  apply Forall_iff_plain; [by apply plain_scope|]. intros id Hid.
  by rewrite bool_decide_eq_true, appeared_plain.
Qed.

Lemma has_url_plain caps id :
  inherited id = false →
  truthy_at id (caps !! id)
  && match caps !! id with
     | Some u => negb (String.eqb u "")
     | None => true
     end = true ↔ has_url caps id.
Proof.
  intros Hid. rewrite truthy_at_plain by done.
  unfold has_url. rewrite andb_true_iff, truthy_Some.
  split; [tauto|]. intros (u & Hu & Hne). split; [by exists u|].
  rewrite Hu. apply negb_true_iff. by apply String.eqb_neq.
Qed.

Lemma allCompleteHaveUrls_spec req results caps :
  plain_names (clients_in_scope req results) →
  allCompleteHaveUrls req results caps = true
  ↔ AllCompleteHaveUrls req results caps.
Proof.
  intros Hp.
  unfold allCompleteHaveUrls, completeWithUrls, completeClients,
    appearedClients, AllCompleteHaveUrls.
  rewrite Nat.eqb_eq, filter_length_all, !Forall_filter_iff.
  rewrite <- Forall_scope.
  apply Forall_iff_plain; [by apply plain_scope|]. intros id Hid.
  rewrite bool_decide_eq_true, status_is_spec.
  rewrite has_url_plain, appeared_plain by done.
  unfold reported_status, appeared. rewrite client_of_plain by done.
  split; [|tauto]. intros H Hst. apply H; [|done].
  by destruct (snapshot_entry results id).
Qed.

(** When the decision is to stop. *)
Lemma checkIfShouldExit_true_iff req results caps found attempt :
  plain_names (clients_in_scope req results) →
  checkIfShouldExit req results caps found attempt = true
  ↔ results ≠ ∅
    ∧ AllFinished req results
    ∧ (AllRequestedAppeared req results ∨ 10 ≤ attempt)
    ∧ (AllCompleteHaveUrls req results caps ∨ 15 ≤ attempt).
Proof.
  intros Hp.
  unfold checkIfShouldExit. rewrite snapshot_empty.
  pose proof (allFinished_spec req results Hp) as HF.
  pose proof (allRequestedAppeared_spec req results Hp) as HA.
  pose proof (allCompleteHaveUrls_spec req results caps Hp) as HU.
  unfold waitedLongEnough, triedEnoughForScreenshots.
  case_bool_decide as He; [by split; [|intros [? _]]|].
  destruct (allFinished req results);
    [|split; [done|intros (_ & H%HF & _); done]].
  destruct (allRequestedAppeared req results),
    (allCompleteHaveUrls req results caps),
    (Nat.leb_spec 10 attempt), (Nat.leb_spec 15 attempt); simpl;
    (split; [intros ?; try done; try lia|]);
    try (intros (_ & _ & [?%HA|?] & [?%HU|?]); try done; lia);
    repeat split; try done; try (by apply HF); try (by left; apply HA);
    try (by left; apply HU); try (by right).
Qed.

End ExitDecision.

(** C1, as stated, fails for a client that bears the name of a member of
    [Object.prototype]: [results[id]] is then the inherited member where
    the snapshot has no entry, so that the client counts as appeared and
    never has a terminal status.  Here "constructor" is requested and does
    not appear, the only appeared client is Complete with its URL captured,
    and the attempt is the 15th: the rule says stop, the code goes on. *)
Lemma checkIfShouldExit_inherited_name :
  let req := ["gmail"; "constructor"] in
  let snap : Results :=
    {[ "gmail" := Client {| status := Some "Complete";
                            screenshots_default := Some "https://shots/g.png" |} ]} in
  let p := processClientResults snap req ∅ in
  p.2 = {[ "gmail" := "https://shots/g.png" ]}
  ∧ ¬ appeared snap "constructor"
  ∧ exit_rule req snap p.2 15 = true
  ∧ checkIfShouldExit req snap p.2 p.1 15 = false.
Proof.
  intros req snap p.
  split; [by vm_compute|]. split; [by intros [d Hd]|].
  split; by vm_compute.
Qed.

(** C1 (amended): on every poll attempt in which no client of the job (a
    requested client, or a client named in the snapshot when none is
    requested) bears the name of a member of [Object.prototype], the exit
    decision is the ordered, short-circuit rule taken over these clients:
    continue on an empty snapshot; continue unless every appeared client
    has a terminal status; continue while some client has not appeared and
    attempt < 10; stop when every terminal-success client has a captured
    non-empty URL or attempt >= 15; continue otherwise. *)
Theorem checkIfShouldExit_rule (requestedClients : list string)
    (results : Results) (capturedUrls : CapturedUrls)
    (clientsInResults : list string) (attempt : nat) :
  plain_names (clients_in_scope requestedClients results) →
  checkIfShouldExit requestedClients results capturedUrls clientsInResults
    attempt
  = exit_rule requestedClients results capturedUrls attempt.
Proof.
  intros Hp. unfold checkIfShouldExit, exit_rule.
  rewrite snapshot_empty.
  rewrite (eqb_bool_decide _ _ (allFinished_spec requestedClients results Hp)).
  rewrite (eqb_bool_decide _ _
             (allRequestedAppeared_spec requestedClients results Hp)).
  rewrite (eqb_bool_decide _ _
             (allCompleteHaveUrls_spec requestedClients results capturedUrls
                Hp)).
  unfold waitedLongEnough, triedEnoughForScreenshots.
  destruct (Nat.leb_spec 10 attempt), (Nat.leb_spec 15 attempt);
    repeat case_bool_decide; simpl; try done; try lia; try tauto;
    exfalso; intuition lia.
Qed.

Lemma checkIfShouldExit_rule_witness :
  let req := ["gmail"; "aol"] in
  let snap : Results :=
    {[ "gmail" := Client {| status := Some "Complete";
                            screenshots_default := Some "https://shots/g.png" |} ]} in
  let caps : CapturedUrls := {[ "gmail" := "https://shots/g.png" ]} in
  plain_names (clients_in_scope req snap)
  ∧ checkIfShouldExit req snap caps ["gmail"] 9 = false
  ∧ exit_rule req snap caps 9 = false
  ∧ checkIfShouldExit req snap caps ["gmail"] 10 = true
  ∧ exit_rule req snap caps 10 = true.
Proof.
  intros req snap caps.
  assert (plain_names (clients_in_scope req snap)) as Hp.
  { unfold plain_names. simpl. repeat constructor;
      (intros H; apply list_elem_of_In in H; simpl in H;
       repeat (destruct H as [H|H]; [discriminate H|]); exact H). }
  pose proof (checkIfShouldExit_rule req snap caps ["gmail"] 9 Hp) as H9.
  pose proof (checkIfShouldExit_rule req snap caps ["gmail"] 10 Hp) as H10.
  assert (exit_rule req snap caps 9 = false) as E9 by (by vm_compute).
  assert (exit_rule req snap caps 10 = true) as E10 by (by vm_compute).
  split; [exact Hp|]. split; [by rewrite H9|]. split; [exact E9|].
  split; [by rewrite H10|exact E10].
Defined.

(** C6, as stated, fails: [allFinished] looks at the current snapshot only.
    A requested client seen with a non-terminal status on attempt 1 and
    missing from the snapshot of attempt 2 does not keep [allFinished] from
    holding on attempt 2, although it has appeared in the session and its
    last reported status is not terminal. *)
Lemma allFinished_forgets_earlier_snapshots :
  let req := ["a"; "b"] in
  let s1 : Results :=
    {[ "a" := Client {| status := Some "Processing";
                        screenshots_default := None |};
       "b" := Client {| status := Some "Complete";
                        screenshots_default := Some "https://shots/b.png" |} ]} in
  let s2 : Results :=
    {[ "b" := Client {| status := Some "Complete";
                        screenshots_default := Some "https://shots/b.png" |} ]} in
  checkIfShouldExit req s1 (processClientResults s1 req ∅).2 [] 1 = false
  ∧ allFinished req s2 = true
  ∧ appeared_so_far [s1; s2] "a"
  ∧ latest_status [s1; s2] "a" = Some "Processing"
  ∧ ¬ allFinished_session [s1; s2] req.
Proof.
  intros req s1 s2.
  assert (appeared_so_far [s1; s2] "a") as Ha.
  { apply Exists_cons_hd. by eexists. }
  split; [by vm_compute|]. split; [by vm_compute|]. split; [exact Ha|].
  split; [by vm_compute|].
  intros H. apply Forall_cons in H as [H _]. specialize (H Ha).
  vm_compute in H. destruct H as [H|[H|H]]; discriminate H.
Qed.

(** A requested client that bears the name of a member of
    [Object.prototype] and is missing from the snapshot keeps [allFinished]
    from holding, although every client that appears in the snapshot has a
    terminal status. *)
Example allFinished_inherited_name :
  let snap : Results :=
    {[ "gmail" := Client {| status := Some "Complete";
                            screenshots_default := None |} ]} in
  allFinished ["gmail"; "constructor"] snap = false
  ∧ AllFinished ["gmail"; "constructor"] snap.
Proof.
  intros snap. split; [by vm_compute|].
  unfold AllFinished, clients_in_scope.
  apply Forall_cons. split; [intros _; by left|].
  apply Forall_cons. split; [by intros [d Hd]|]. constructor.
Qed.

(** C6 (amended): when no client of the job (a requested client, or a
    client named in the snapshot when none is requested) bears the name of a
    member of [Object.prototype], [allFinished] holds iff every client of
    the job that appears in the current snapshot has a terminal status in
    that snapshot; this is the session-wide reading whenever no client of
    the job that appeared in an earlier snapshot is missing from the current
    one. *)
Theorem allFinished_current_snapshot (requestedClients : list string)
    (earlier : list Results) (results : Results) :
  plain_names (clients_in_scope requestedClients results) →
  (allFinished requestedClients results = true
   ↔ ∀ id, id ∈ clients_in_scope requestedClients results →
           appeared results id →
           terminal_status (reported_status results id))
  ∧ ((∀ id, id ∈ clients_in_scope requestedClients results →
            appeared_so_far earlier id → appeared results id) →
     (allFinished requestedClients results = true
      ↔ allFinished_session (earlier ++ [results])
          (clients_in_scope requestedClients results))).
Proof.
  intros Hp. split.
  - rewrite allFinished_spec by done. unfold AllFinished.
    by rewrite Forall_forall.
  - intros Hstable. rewrite allFinished_spec by done.
    unfold AllFinished, allFinished_session. rewrite !Forall_forall.
    assert (∀ id, appeared results id →
                  latest_status (earlier ++ [results]) id
                  = reported_status results id) as Hlast.
    { intros id Hid. clear Hstable.
      induction earlier as [|e rest IH]; simpl; [done|].
      rewrite bool_decide_eq_true_2; [apply IH|].
      apply Exists_app. right. by apply Exists_cons_hd. }
    split; intros H id Hin.
    + intros Hsofar.
      assert (appeared results id) as Hid.
      { apply Exists_app in Hsofar as [He|Hc]; [by apply Hstable|].
        by apply Exists_cons in Hc as [?|?%Exists_nil]. }
      rewrite Hlast by done. by apply H.
    + intros Hid. rewrite <- Hlast by done. apply H; [done|].
      apply Exists_app. right. by apply Exists_cons_hd.
Qed.

Lemma allFinished_current_snapshot_witness :
  let s1 : Results :=
    {[ "a" := Client {| status := Some "Processing";
                        screenshots_default := None |} ]} in
  let s2 : Results :=
    {[ "a" := Client {| status := Some "Failed";
                        screenshots_default := None |} ]} in
  plain_names (clients_in_scope ["a"] s2)
  ∧ allFinished ["a"] s2 = true ∧ allFinished_session [s1; s2] ["a"].
Proof.
  intros s1 s2.
  assert (plain_names (clients_in_scope ["a"] s2)) as Hp.
  { unfold plain_names. simpl. repeat constructor.
    intros H. apply list_elem_of_In in H. simpl in H.
    repeat (destruct H as [H|H]; [discriminate H|]). exact H. }
  destruct (allFinished_current_snapshot ["a"] [s1] s2 Hp) as [_ Hsession].
  assert (allFinished ["a"] s2 = true) as Hfin by reflexivity.
  split; [exact Hp|]. split; [exact Hfin|].
  apply Hsession; [|exact Hfin].
  intros id Hid _. apply list_elem_of_singleton in Hid. subst id.
  by eexists.
Defined.

(* --------------------------------------------------------------------- *)
(** ** The preview list *)
(* --------------------------------------------------------------------- *)

Section Previews.

Lemma concat_empty_cons (w : string) (ws : list string) :
  String.concat "" (w :: ws) = (w ++ String.concat "" ws)%string.
Proof.
  destruct ws as [|w' ws]; simpl; [|done].
  induction w as [|c w IH]; [done|].
  change (String c w = String c (w ++ ""))%string. by f_equal.
Qed.

(** The scan of the regular expression, started after a word character or
    not, against the cut into words. *)
Lemma upperAtWordStart_chunks (b : bool) (s : string) :
  upperAtWordStart b s
  = match chunks s with
    | [] => EmptyString
    | w :: ws =>
        ((if b && starts_with_word w then w else capitalize w)
         ++ String.concat "" (capitalize <$> ws))%string
    end.
Proof.
  revert b. induction s as [|c t IH]; intros b; [done|].
  simpl. rewrite IH.
  destruct (chunks t) as [|w ws].
  - unfold starts_with_word, capitalize. destruct (is_word c), b; reflexivity.
  - destruct (is_word c && starts_with_word w) eqn:E.
    + apply andb_true_iff in E as [Hc Hw].
      assert (capitalize (String c w) = String (toUpperChar c) w) as ->.
      { simpl. by rewrite Hc. }
      change (starts_with_word (String c w)) with (is_word c).
      rewrite Hc. destruct b; reflexivity.
    + rewrite fmap_cons, concat_empty_cons.
      change (starts_with_word (String c "")) with (is_word c).
      change (capitalize (String c ""))
        with (if is_word c then String (toUpperChar c) "" else String c "").
      destruct (is_word c), b; reflexivity.
Qed.

Lemma upperAtWordStart_words (s : string) :
  upperAtWordStart false s = label_of_words s.
Proof.
  rewrite upperAtWordStart_chunks. unfold label_of_words.
  destruct (chunks s) as [|w ws]; [done|].
  by rewrite fmap_cons, concat_empty_cons.
Qed.

End Previews.

Example previewName_gmail :
  previewName "gmail_webmail" = "Gmail Webmail Preview".
Proof. reflexivity. Qed.

Example previewName_outlook :
  previewName "outlook_2021-win10" = "Outlook 2021-Win10 Preview".
Proof. reflexivity. Qed.

(** C9: for every entry (client, url) of the mapping the poller returned,
    the preview list holds one record for that client; its name is the
    client identifier with every underscore replaced by a space and the
    first character of each word uppercased, followed by " Preview"; its url
    is the captured URL and its client the identifier, both unchanged. *)
Theorem generatedPreviews_entry (previewUrlsMap : CapturedUrls)
    (c u : string) :
  previewUrlsMap !! c = Some u →
  let p := {| name := (label_of_words (underscoresToSpaces c) ++ " Preview")%string;
              url := u; client := c |} in
  p ∈ generatedPreviews previewUrlsMap
  ∧ ∀ q, q ∈ generatedPreviews previewUrlsMap → client q = c → q = p.
Proof.
  intros Hc p. unfold generatedPreviews. split.
  - apply list_elem_of_fmap. exists (c, u). split.
    + unfold p, previewName. by rewrite upperAtWordStart_words.
    + by apply elem_of_map_to_list.
  - intros q [[c' u'] [-> Hin]]%list_elem_of_fmap. simpl. intros ->.
    apply elem_of_map_to_list in Hin. rewrite Hc in Hin. injection Hin as <-.
    unfold p, previewName. by rewrite upperAtWordStart_words.
Qed.

Lemma generatedPreviews_entry_witness :
  let m : CapturedUrls := {[ "gmail_webmail" := "https://shots/g.png" ]} in
  m !! "gmail_webmail" = Some "https://shots/g.png"
  ∧ {| name := "Gmail Webmail Preview"; url := "https://shots/g.png";
       client := "gmail_webmail" |} ∈ generatedPreviews m.
Proof.
  intros m. split; [reflexivity|].
  apply (generatedPreviews_entry m "gmail_webmail" "https://shots/g.png").
  reflexivity.
Defined.

(* ===================================================================== *)
(** * More of the code *)
(* ===================================================================== *)

(* --------------------------------------------------------------------- *)
(** ** More on the sanitizer *)
(* --------------------------------------------------------------------- *)

Section SanitizerMore.

Lemma toLowerChar_idemp c : toLowerChar (toLowerChar c) = toLowerChar c.
Proof. by_char c. Qed.

Lemma toLowerCase_idemp s : toLowerCase (toLowerCase s) = toLowerCase s.
Proof.
  unfold toLowerCase. induction s as [|c t IH]; simpl; [done|].
  by rewrite toLowerChar_idemp, IH.
Qed.

Lemma replaceSpaceRuns_empty sep b s :
  replaceSpaceRuns sep b s = "" →
  s = "" ∨ (b = true ∧ all_chars is_space s = true).
Proof.
  revert b. induction s as [|c t IH]; intros b; simpl; [by left|].
  destruct (is_space c) eqn:E; [|done].
  destruct b; [|done]. intros H. right. split; [done|].
  destruct (IH true H) as [->|[_ Ht]]; simpl; [done|by rewrite Ht].
Qed.

Lemma substring_empty n s :
  String.substring 0 (S n) s = "" → s = "".
Proof. by destruct s. Qed.

Lemma filter_chars_empty p s :
  filter_chars p s = "" ↔ all_chars (fun c => negb (p c)) s = true.
Proof.
  induction s as [|c t IH]; simpl; [done|].
  destruct (p c); simpl; [by split|done].
Qed.

Lemma all_chars_map p f s :
  all_chars p (map_chars f s) = all_chars (fun c => p (f c)) s.
Proof. induction s as [|c t IH]; simpl; [done|]. by rewrite IH. Qed.

Lemma final_underscore_not_hyphen_swap c :
  kept c = true →
  underscore_to_hyphen c = c.
Proof. by_char c. Qed.

Lemma map_replaceSpaceRuns b s :
  all_chars kept s = true →
  map_chars underscore_to_hyphen (replaceSpaceRuns "_" b s)
  = replaceSpaceRuns "-" b s.
Proof.
  revert b. induction s as [|c t IH]; intros b; simpl; [done|].
  intros [Hc Ht]%andb_true_iff.
  destruct (is_space c).
  - destruct b; simpl; by rewrite IH.
  - simpl. by rewrite final_underscore_not_hyphen_swap, IH.
Qed.

Lemma map_substring f n s :
  map_chars f (String.substring 0 n s) = String.substring 0 n (map_chars f s).
Proof.
  revert s. induction n as [|n IH]; intros [|c t]; simpl; try done.
  by rewrite IH.
Qed.

End SanitizerMore.

(** X1: sanitizeFilename returns the empty string exactly when the first
    replace strips every character of the input, which includes the empty
    input; a single kept character, white space included, gives a
    non-empty name. *)
Theorem sanitizeFilename_empty_iff (name : string) (useHyphens : bool) :
  sanitizeFilename name useHyphens = ""
  ↔ all_chars (fun c => negb (kept (toLowerChar c))) name = true.
Proof.
  unfold sanitizeFilename, toLowerCase.
  rewrite <- (all_chars_map (fun c => negb (kept c)) toLowerChar name).
  rewrite <- filter_chars_empty. split.
  - intros H%substring_empty.
    by apply replaceSpaceRuns_empty in H as [H|[[=] _]].
  - by intros ->.
Qed.

(** X2: sanitizeFilename does not see the case of its input: lowercasing
    the name first gives the same result. *)
Theorem sanitizeFilename_case_insensitive (name : string)
    (useHyphens : bool) :
  sanitizeFilename (toLowerCase name) useHyphens
  = sanitizeFilename name useHyphens.
Proof. unfold sanitizeFilename. by rewrite toLowerCase_idemp. Qed.

(** X3: the two separator modes differ in the separator only: turning
    every underscore of the underscore-mode result into a hyphen gives the
    hyphen-mode result. *)
Theorem sanitizeFilename_modes_agree (name : string) :
  map_chars underscore_to_hyphen (sanitizeFilename name false)
  = sanitizeFilename name true.
Proof.
  unfold sanitizeFilename. rewrite map_substring.
  by rewrite map_replaceSpaceRuns by apply all_chars_filter.
Qed.

(** X4: the project name of playwright.config.ts is the hyphen-mode
    sanitized task name that globalSetup and the test file use for the
    preview file whenever TASK_NAME is set and not empty, and "staging"
    otherwise; in both cases it consists of characters of [a-z0-9.-] only
    and is at most 100 characters long. *)
Theorem projectName_agrees (taskName : option string) :
  (∀ t, taskName = Some t → t ≠ "" →
        PlaywrightConfig.projectName taskName = sanitizeFilename t true)
  ∧ (taskName = None ∨ taskName = Some "" →
     PlaywrightConfig.projectName taskName = "staging")
  ∧ all_chars (final "-") (PlaywrightConfig.projectName taskName) = true
  ∧ String.length (PlaywrightConfig.projectName taskName) ≤ 100.
Proof.
  split; [|split; [|split]].
  - intros t -> Ht%truthy_string_spec. simpl. by rewrite Ht.
  - by intros [-> | ->].
  - destruct taskName as [t|]; simpl; [|done].
    destruct (truthy_string t); [|done].
    apply (sanitizeFilename_final t true).
  - destruct taskName as [t|]; simpl; [|lia].
    destruct (truthy_string t); [|simpl; lia].
    apply (sanitizeFilename_length t true).
Qed.

Lemma projectName_agrees_witness :
  Some "EB 21397 Staging" = Some "EB 21397 Staging"
  ∧ "EB 21397 Staging" ≠ ""
  ∧ PlaywrightConfig.projectName (Some "EB 21397 Staging")
    = sanitizeFilename "EB 21397 Staging" true
  ∧ PlaywrightConfig.projectName None = "staging".
Proof.
  split; [reflexivity|]. split; [discriminate|]. split.
  - destruct (projectName_agrees (Some "EB 21397 Staging")) as [H _].
    apply H; [reflexivity|discriminate].
  - destruct (projectName_agrees None) as (_ & H & _).
    apply H. by left.
Defined.

(* --------------------------------------------------------------------- *)
(** ** The screenshot file name *)
(* --------------------------------------------------------------------- *)

Section Screenshot.

Lemma is_alnum_not_hyphen c : is_alnum c = true → (code c =? 45)%N = false.
Proof. by_char c. Qed.

Lemma is_alnum_lower c : is_alnum c = true → toLowerChar c = c.
Proof. by_char c. Qed.

Lemma hyphen_code c : (code c =? 45)%N = true → c = "-"%char.
Proof. by_char c. Qed.

Lemma replaceOtherRuns_chars b s :
  all_chars alnum_or_hyphen (replaceOtherRuns b s) = true.
Proof.
  revert b. induction s as [|c t IH]; intros b; simpl; [done|].
  destruct (is_alnum c) eqn:E; simpl.
  - unfold alnum_or_hyphen at 1. by rewrite E, IH.
  - destruct b; simpl; by rewrite IH.
Qed.

Lemma replaceOtherRuns_in_run s :
  starts_with_hyphen (replaceOtherRuns true s) = false.
Proof.
  induction s as [|c t IH]; simpl; [done|].
  destruct (is_alnum c) eqn:E; simpl; [by apply is_alnum_not_hyphen|done].
Qed.

Lemma no_double_hyphen_cons c t :
  no_double_hyphen (String c t)
  = negb ((code c =? 45)%N && starts_with_hyphen t) && no_double_hyphen t.
Proof. destruct t as [|d t]; simpl; [|done]. by rewrite andb_false_r. Qed.

Lemma replaceOtherRuns_no_double b s :
  no_double_hyphen (replaceOtherRuns b s) = true.
Proof.
  revert b. induction s as [|c t IH]; intros b; [done|].
  cbn [replaceOtherRuns].
  destruct (is_alnum c) eqn:E.
  - rewrite no_double_hyphen_cons, IH, (is_alnum_not_hyphen c E). done.
  - destruct b; [apply IH|].
    rewrite no_double_hyphen_cons, IH, replaceOtherRuns_in_run.
    by rewrite andb_false_r.
Qed.

(** A base name is left as it is. *)
Lemma replaceOtherRuns_fixed b s :
  all_chars alnum_or_hyphen s = true →
  no_double_hyphen s = true →
  (b = true → starts_with_hyphen s = false) →
  replaceOtherRuns b s = s.
Proof.
  revert b. induction s as [|c t IH]; intros b; [done|].
  rewrite no_double_hyphen_cons. cbn [replaceOtherRuns all_chars].
  intros [Hc Ht]%andb_true_iff [Hd Hn]%andb_true_iff Hb.
  destruct (is_alnum c) eqn:E.
  - f_equal. apply IH; done.
  - unfold alnum_or_hyphen in Hc. rewrite E in Hc. simpl in Hc.
    rewrite Hc in Hd. simpl in Hd. apply negb_true_iff in Hd.
    destruct b; [specialize (Hb eq_refl); simpl in Hb; congruence|].
    rewrite (hyphen_code c Hc). f_equal. by apply IH.
Qed.

Lemma alnum_or_hyphen_lower s :
  all_chars alnum_or_hyphen s = true → toLowerCase s = s.
Proof.
  intros H. apply map_chars_id. eapply all_chars_impl; [|exact H].
  intros c Hc. apply Ascii.eqb_eq. revert Hc. by_char c.
Qed.

Lemma screenshot_class_alnum c :
  is_alnum (toLowerChar c) = is_alnum (screenshot_class c).
Proof. by_char c. Qed.

Lemma screenshot_class_lower c :
  is_alnum (toLowerChar c) = true →
  toLowerChar (screenshot_class c) = toLowerChar c.
Proof. by_char c. Qed.

Lemma toLowerChar_class_alnum c :
  is_alnum (toLowerChar (screenshot_class c)) = is_alnum (toLowerChar c).
Proof. by_char c. Qed.

Lemma screenshotBase_class b s :
  replaceOtherRuns b (toLowerCase (map_chars screenshot_class s))
  = replaceOtherRuns b (toLowerCase s).
Proof.
  unfold toLowerCase. revert b.
  induction s as [|c t IH]; intros b; simpl; [done|].
  rewrite toLowerChar_class_alnum.
  destruct (is_alnum (toLowerChar c)) eqn:E.
  - by rewrite screenshot_class_lower, IH.
  - destruct b; by rewrite IH.
Qed.

End Screenshot.

(** X5: the screenshot file name of a client is a base name followed by
    ".png"; the base consists of characters of [a-z0-9-] only, never has
    two hyphens in a row, and is left unchanged when the same
    transformation is applied to it again. *)
Theorem screenshotName_shape (client : string) :
  screenshotName client = (screenshotBase client ++ ".png")%string
  ∧ all_chars alnum_or_hyphen (screenshotBase client) = true
  ∧ no_double_hyphen (screenshotBase client) = true
  ∧ screenshotBase (screenshotBase client) = screenshotBase client.
Proof.
  split; [done|]. split; [apply replaceOtherRuns_chars|].
  split; [apply replaceOtherRuns_no_double|].
  unfold screenshotBase at 1.
  rewrite alnum_or_hyphen_lower by apply replaceOtherRuns_chars.
  apply replaceOtherRuns_fixed; [apply replaceOtherRuns_chars| |done].
  apply replaceOtherRuns_no_double.
Qed.

(** X6: two client identifiers that differ only in the case of their
    letters and in which characters outside [a-z0-9] they have at the same
    places get the same screenshot file name, hence the same baseline. *)
Theorem screenshotName_collides (client1 client2 : string) :
  map_chars screenshot_class client1 = map_chars screenshot_class client2 →
  screenshotName client1 = screenshotName client2.
Proof.
  intros H. unfold screenshotName, screenshotBase. f_equal.
  by rewrite <- (screenshotBase_class false client1), H, screenshotBase_class.
Qed.

Lemma screenshotName_collides_witness :
  map_chars screenshot_class "Gmail_Web" = map_chars screenshot_class "gmail web"
  ∧ screenshotName "Gmail_Web" = screenshotName "gmail web".
Proof.
  split; [reflexivity|].
  apply (screenshotName_collides "Gmail_Web" "gmail web"). reflexivity.
Defined.

(* --------------------------------------------------------------------- *)
(** ** More on processing a snapshot *)
(* --------------------------------------------------------------------- *)

Section ProcessingMore.

Implicit Types (results : Results) (caps : CapturedUrls) (id : string).

Lemma processClients_found_list results clients found caps :
  (processClients results clients found caps).1
  = (found ++ List.filter
               (fun id => bool_decide (is_Some (client_of results id)))
               clients)%list.
Proof.
  revert found caps.
  induction clients as [|c rest IH]; intros found caps; simpl.
  { by rewrite app_nil_r. }
  destruct (bool_decide (is_Some (client_of results c))) eqn:Hb.
  - apply bool_decide_eq_true in Hb as [d Hd]. rewrite Hd.
    repeat case_match; rewrite IH, <- app_assoc; done.
  - apply bool_decide_eq_false in Hb.
    destruct (client_of results c) as [d|]; [|apply IH].
    exfalso. apply Hb. by eexists.
Qed.

Lemma entry_step_is_Some results id (v : option string) :
  is_Some v → is_Some (entry_step results id v).
Proof.
  intros Hv. unfold entry_step. repeat case_match; done.
Qed.

Lemma entry_step_changes results id (v : option string) :
  entry_step results id v ≠ v →
  appeared results id ∧ terminal_status (reported_status results id).
Proof.
  unfold entry_step, appeared, reported_status, terminal_status.
  destruct (client_of results id) as [d|] eqn:Hd; [|done].
  assert (is_Some (status d) →
          snapshot_entry results id = Some d) as Hown
    by apply client_of_status, Hd.
  destruct (status_is "Complete" (status d)) eqn:HC.
  - apply status_is_spec in HC. intros _.
    rewrite Hown by (by rewrite HC). split; [done|by left].
  - destruct (status_is "Failed" (status d)
              || status_is "Bounced" (status d)) eqn:HF; [|done].
    intros _.
    apply orb_true_iff in HF as [H%status_is_spec|H%status_is_spec];
      rewrite Hown by (by rewrite H); (split; [done|]); simpl; auto.
Qed.

Lemma clientsToCheck_same_elements (req req' : list string) results :
  (∀ id, id ∈ req ↔ id ∈ req') →
  ∀ id, id ∈ clientsToCheck req results ↔ id ∈ clientsToCheck req' results.
Proof.
  intros Hsame. unfold clientsToCheck.
  destruct req as [|a req], req' as [|b req']; simpl; try done.
  - exfalso. destruct (Hsame b) as [_ H].
    by apply elem_of_nil in H; [|left].
  - exfalso. destruct (Hsame a) as [H _].
    by apply elem_of_nil in H; [|left].
Qed.

End ProcessingMore.

(** X7: the list of found clients that processClientResults returns is the
    list of appeared clients that checkIfShouldExit computes again from the
    same snapshot: the clients to check that the snapshot holds, in the
    order they are checked. *)
Theorem clientsFound_are_appearedClients (results : Results)
    (requestedClients : list string) (capturedUrls : CapturedUrls) :
  (processClientResults results requestedClients capturedUrls).1
  = appearedClients requestedClients results.
Proof. unfold processClientResults. by rewrite processClients_found_list. Qed.

(** X8: processing a snapshot never removes a key of the captured-URL map,
    leaves the entry of every client that is not checked as it is, and
    changes an entry only for a checked client that the snapshot reports
    with a terminal status. *)
Theorem processClientResults_frame (results : Results)
    (requestedClients : list string) (capturedUrls : CapturedUrls)
    (id : string) :
  let caps' := (processClientResults results requestedClients capturedUrls).2 in
  (is_Some (capturedUrls !! id) → is_Some (caps' !! id))
  ∧ (id ∉ clientsToCheck requestedClients results →
     caps' !! id = capturedUrls !! id)
  ∧ (caps' !! id ≠ capturedUrls !! id →
     id ∈ clientsToCheck requestedClients results
     ∧ appeared results id
     ∧ terminal_status (reported_status results id)).
Proof.
  simpl. rewrite processClientResults_lookup.
  case_bool_decide as Hin; (split; [|split]); try done.
  - apply entry_step_is_Some.
  - intros H. split; [done|]. by apply entry_step_changes in H.
Qed.

Lemma processClientResults_frame_witness :
  let caps : CapturedUrls := {[ "gmail" := "https://shots/g.png" ]} in
  let snap : Results :=
    {[ "aol" := Client {| status := Some "Bounced";
                          screenshots_default := None |} ]} in
  let caps' := (processClientResults snap ["aol"] caps).2 in
  (is_Some (caps !! "gmail") ∧ ("gmail" ∉ clientsToCheck ["aol"] snap)
   ∧ caps' !! "aol" ≠ caps !! "aol")
  ∧ caps' !! "gmail" = caps !! "gmail"
  ∧ is_Some (caps' !! "gmail")
  ∧ terminal_status (reported_status snap "aol").
Proof.
  intros caps snap caps'.
  assert (is_Some (caps !! "gmail")) as H1 by (by eexists).
  assert ("gmail" ∉ clientsToCheck ["aol"] snap) as H2.
  { intros H%list_elem_of_singleton. discriminate. }
  assert (caps' !! "aol" ≠ caps !! "aol") as H3 by (by vm_compute).
  split; [by repeat split|].
  destruct (processClientResults_frame snap ["aol"] caps "gmail")
    as (Hkeep & Hframe & _).
  destruct (processClientResults_frame snap ["aol"] caps "aol")
    as (_ & _ & Hchange).
  split; [exact (Hframe H2)|]. split; [exact (Hkeep H1)|].
  by destruct (Hchange H3) as (_ & _ & ?).
Defined.

(** X9: the captured-URL map that processing a snapshot leaves does not
    depend on the order of the requested clients nor on repetitions among
    them: two request lists with the same elements give the same map. *)
Theorem processClientResults_order_irrelevant (results : Results)
    (req req' : list string) (capturedUrls : CapturedUrls) :
  (∀ id, id ∈ req ↔ id ∈ req') →
  (processClientResults results req capturedUrls).2
  = (processClientResults results req' capturedUrls).2.
Proof.
  intros Hsame. apply map_eq. intros id.
  rewrite !processClientResults_lookup.
  apply (f_equal (fun b : bool => if b then _ else _)).
  apply bool_decide_ext. by apply clientsToCheck_same_elements.
Qed.

Lemma processClientResults_order_irrelevant_witness :
  let snap : Results :=
    {[ "gmail" := Client {| status := Some "Complete";
                            screenshots_default := Some "https://shots/g.png" |};
       "aol" := Client {| status := Some "Failed";
                          screenshots_default := None |} ]} in
  (∀ id, id ∈ ["gmail"; "aol"] ↔ id ∈ ["aol"; "gmail"; "aol"])
  ∧ (processClientResults snap ["gmail"; "aol"] ∅).2
    = (processClientResults snap ["aol"; "gmail"; "aol"] ∅).2.
Proof.
  intros snap.
  assert (∀ id, id ∈ ["gmail"; "aol"] ↔ id ∈ ["aol"; "gmail"; "aol"]) as H.
  { intros id. rewrite !elem_of_cons, !elem_of_nil. tauto. }
  split; [exact H|].
  apply (processClientResults_order_irrelevant snap ["gmail"; "aol"]
           ["aol"; "gmail"; "aol"] ∅ H).
Defined.

(* --------------------------------------------------------------------- *)
(** ** More on the exit decision *)
(* --------------------------------------------------------------------- *)


(** X10: the exit decision is monotone in the attempt number: a snapshot
    and captured-URL map that stop the loop on one attempt stop it on every
    later attempt too. *)
Theorem checkIfShouldExit_monotone (requestedClients : list string)
    (results : Results) (capturedUrls : CapturedUrls)
    (found found' : list string) (attempt later : nat) :
  checkIfShouldExit requestedClients results capturedUrls found attempt
  = true →
  attempt ≤ later →
  checkIfShouldExit requestedClients results capturedUrls found' later = true.
Proof.
  unfold checkIfShouldExit, waitedLongEnough, triedEnoughForScreenshots.
  intros H Hle. revert H.
  destruct (length (Object_keys results) =? 0); [done|].
  destruct (allFinished requestedClients results); cbn [negb]; [|done].
  destruct (allRequestedAppeared requestedClients results),
    (allCompleteHaveUrls requestedClients results capturedUrls),
    (Nat.leb_spec 10 attempt), (Nat.leb_spec 15 attempt),
    (Nat.leb_spec 10 later), (Nat.leb_spec 15 later);
    cbn [negb andb orb]; intros; try done; lia.
Qed.

Lemma checkIfShouldExit_monotone_witness :
  let snap : Results :=
    {[ "gmail" := Client {| status := Some "Complete";
                            screenshots_default := None |} ]} in
  checkIfShouldExit ["gmail"; "aol"] snap ∅ [] 15 = true
  ∧ 15 ≤ 40
  ∧ checkIfShouldExit ["gmail"; "aol"] snap ∅ ["gmail"] 40 = true.
Proof.
  intros snap.
  assert (checkIfShouldExit ["gmail"; "aol"] snap ∅ [] 15 = true) as H
    by reflexivity.
  split; [exact H|]. split; [lia|].
  apply (checkIfShouldExit_monotone ["gmail"; "aol"] snap ∅ [] ["gmail"]
           15 40 H).
  lia.
Defined.

(** X11: when no client of the job bears the name of a member of
    [Object.prototype], from attempt 15 on missing clients and missing
    screenshot URLs no longer hold the loop: the decision is to stop exactly
    when the snapshot is not empty and every appeared client has a terminal
    status; a client that appears with a non-terminal status holds the loop
    on every attempt. *)
Theorem checkIfShouldExit_late (requestedClients : list string)
    (results : Results) (capturedUrls : CapturedUrls)
    (found : list string) (attempt : nat) :
  plain_names (clients_in_scope requestedClients results) →
  (15 ≤ attempt →
   (checkIfShouldExit requestedClients results capturedUrls found attempt
    = true
    ↔ results ≠ ∅ ∧ AllFinished requestedClients results))
  ∧ (¬ AllFinished requestedClients results →
     checkIfShouldExit requestedClients results capturedUrls found attempt
     = false).
Proof.
  intros Hp. split.
  - intros Hle. rewrite checkIfShouldExit_true_iff by done.
    split; [intros (? & ? & _); done|].
    intros [? ?]. repeat split; try done; right; lia.
  - intros Hn. apply not_true_is_false.
    rewrite checkIfShouldExit_true_iff by done. by intros (_ & ? & _).
Qed.

Lemma checkIfShouldExit_late_witness :
  let busy : Results :=
    {[ "gmail" := Client {| status := Some "Processing";
                            screenshots_default := None |} ]} in
  let done_ : Results :=
    {[ "gmail" := Client {| status := Some "Complete";
                            screenshots_default := None |} ]} in
  plain_names ["gmail"; "aol"]
  ∧ 15 ≤ 15
  ∧ ¬ AllFinished ["gmail"; "aol"] busy
  ∧ checkIfShouldExit ["gmail"; "aol"] busy ∅ [] 59 = false
  ∧ (checkIfShouldExit ["gmail"; "aol"] done_ ∅ [] 15 = true
     ↔ done_ ≠ ∅ ∧ AllFinished ["gmail"; "aol"] done_).
Proof.
  intros busy done_.
  assert (plain_names ["gmail"; "aol"]) as Hp.
  { unfold plain_names. repeat constructor;
      (intros H; apply list_elem_of_In in H; simpl in H;
       repeat (destruct H as [H|H]; [discriminate H|]); exact H). }
  assert (¬ AllFinished ["gmail"; "aol"] busy) as Hn.
  { intros H. apply Forall_cons in H as [H _].
    destruct H as [H|[H|H]]; [by eexists|discriminate H..]. }
  split; [exact Hp|]. split; [lia|]. split; [exact Hn|]. split.
  - destruct (checkIfShouldExit_late ["gmail"; "aol"] busy ∅ [] 59 Hp)
      as [_ H].
    exact (H Hn).
  - destruct (checkIfShouldExit_late ["gmail"; "aol"] done_ ∅ [] 15 Hp)
      as [H _].
    apply H. lia.
Defined.

(** X12: when no client of the job bears the name of a member of
    [Object.prototype] and the loop stops on a snapshot it has just
    processed, before attempt 15 every client of the job that the snapshot
    reports Complete is in the returned mapping with a non-empty URL, and
    before attempt 10 every client of the job has an entry in the
    captured-URL map, so that none is reported as never appeared. *)
Theorem early_exit_is_complete (results : Results)
    (requestedClients : list string) (capturedUrls : CapturedUrls)
    (attempt : nat) (id : string) :
  let p := processClientResults results requestedClients capturedUrls in
  plain_names (clients_in_scope requestedClients results) →
  checkIfShouldExit requestedClients results p.2 p.1 attempt = true →
  id ∈ clients_in_scope requestedClients results →
  (attempt < 15 →
   reported_status results id = Some "Complete" →
   ∃ u, u ≠ "" ∧ buildFinalResults requestedClients p.2 !! id = Some u)
  ∧ (attempt < 10 → is_Some (p.2 !! id)).
Proof.
  intros p Hp Hexit Hin.
  apply checkIfShouldExit_true_iff in Hexit as (_ & HF & HA & HU); [|done].
  assert (inherited id = false) as Hid.
  { apply inherited_spec. unfold plain_names in Hp.
    rewrite Forall_forall in Hp. by apply Hp. }
  unfold AllFinished, AllRequestedAppeared, AllCompleteHaveUrls in *.
  rewrite Forall_forall in HF, HU.
  assert (attempt < 15 → reported_status results id = Some "Complete" →
          has_url p.2 id) as Hurl.
  { intros Hlt Hst. destruct HU as [HU|?]; [|lia]. by apply HU. }
  split.
  - intros Hlt Hst. destruct (Hurl Hlt Hst) as (u & Hu & Hne).
    exists u. split; [done|]. apply buildFinalResults_Some.
    split; [done|]. split; [done|]. intros ->. done.
  - intros Hlt. destruct HA as [HA|?]; [|lia].
    rewrite Forall_forall in HA.
    pose proof (HA id Hin) as Happ.
    destruct (HF id Hin Happ) as [Hst|Hst].
    { destruct (Hurl ltac:(lia) Hst) as (u & Hu & _). by eexists. }
    unfold p. rewrite processClientResults_lookup.
    rewrite bool_decide_eq_true_2 by (by apply clientsToCheck_scope).
    unfold entry_step. rewrite client_of_plain by done.
    destruct Happ as [d Hd]. rewrite Hd.
    unfold reported_status in Hst. rewrite Hd in Hst. simpl in Hst.
    assert (status_is "Complete" (status d) = false) as ->.
    { apply not_true_is_false. rewrite status_is_spec.
      destruct Hst as [-> | ->]; discriminate. }
    assert (status_is "Failed" (status d) || status_is "Bounced" (status d)
            = true) as ->.
    { apply orb_true_iff. rewrite !status_is_spec. tauto. }
    rewrite truthy_at_plain by done.
    destruct (truthy (capturedUrls !! id)) eqn:Ht; simpl; [|done].
    apply truthy_Some in Ht as (u & -> & _). done.
Qed.

Lemma early_exit_is_complete_witness :
  let snap : Results :=
    {[ "gmail" := Client {| status := Some "Complete";
                            screenshots_default := Some "https://shots/g.png" |};
       "aol" := Client {| status := Some "Failed";
                          screenshots_default := None |} ]} in
  let req := ["gmail"; "aol"] in
  let p := processClientResults snap req ∅ in
  plain_names (clients_in_scope req snap)
  ∧ checkIfShouldExit req snap p.2 p.1 3 = true
  ∧ (∃ u, u ≠ "" ∧ buildFinalResults req p.2 !! "gmail" = Some u)
  ∧ is_Some (p.2 !! "aol").
Proof.
  intros snap req p.
  assert (plain_names (clients_in_scope req snap)) as Hp.
  { unfold plain_names. simpl. repeat constructor;
      (intros H; apply list_elem_of_In in H; simpl in H;
       repeat (destruct H as [H|H]; [discriminate H|]); exact H). }
  assert (checkIfShouldExit req snap p.2 p.1 3 = true) as H by reflexivity.
  split; [exact Hp|]. split; [exact H|]. split.
  - destruct (early_exit_is_complete snap req ∅ 3 "gmail" Hp H) as [Hc _].
    + apply list_elem_of_In. simpl. auto.
    + apply Hc; [lia|reflexivity].
  - destruct (early_exit_is_complete snap req ∅ 3 "aol" Hp H) as [_ Hc].
    + apply list_elem_of_In. simpl. auto.
    + apply Hc. lia.
Defined.

(* --------------------------------------------------------------------- *)
(** ** More on the polling loop *)
(* --------------------------------------------------------------------- *)

Section PollingMore.

Variable net : nat → AxiosOutcome.
Variable emailClients : list string.
Variable maxAttempts : Q.

Implicit Types (fuel attempt : nat) (caps : CapturedUrls).

Lemma fetch_count_single attempt : fetch_count [EvFetch attempt] = 1.
Proof. done. Qed.

Lemma loop_fetches_once fuel attempt caps :
  attempt_le attempt maxAttempts = true →
  1 ≤ fetch_count
        (pollLoop net emailClients maxAttempts (S fuel) attempt caps).1.
Proof.
  intros Hle. rewrite loop_step by done.
  destruct (fetchResults (net attempt)) as [m|[results|]]; cbv zeta.
  - done.
  - case_match; [done|]. rewrite fetch_count_after. lia.
  - rewrite fetch_count_after. lia.
Qed.

(** A loop that has the fuel to go on and fetches nothing is beyond the
    bound. *)
Lemma loop_no_fetch fuel attempt caps :
  budget maxAttempts < fuel + attempt →
  fetch_count (pollLoop net emailClients maxAttempts fuel attempt caps).1 = 0 →
  attempt_le attempt maxAttempts = false.
Proof.
  intros Hf Hn. apply not_true_is_false. intros Hle.
  destruct fuel as [|fuel].
  - apply attempt_le_budget in Hle. lia.
  - pose proof (loop_fetches_once fuel attempt caps Hle). lia.
Qed.

Lemma schedule_more attempt n :
  1 ≤ n →
  schedule attempt (S n)
  = EvFetch attempt :: EvSleep attempt :: schedule (S attempt) n.
Proof. destruct n; [lia|done]. Qed.

(** The trace of the loop: the schedule of its fetches, followed by one
    more sleep when the attempts are used up and the bound lies strictly
    between the last attempt and the next. *)
Lemma loop_schedule fuel attempt caps :
  budget maxAttempts < fuel + attempt →
  let r := pollLoop net emailClients maxAttempts fuel attempt caps in
  let n := fetch_count r.1 in
  r.1 = schedule attempt n
  ∨ (r.1 = (schedule attempt n ++ [EvSleep (attempt + n - 1)])%list
     ∧ 1 ≤ n
     ∧ attempt + n - 1 = budget maxAttempts
     ∧ attempt_lt (attempt + n - 1) maxAttempts = true
     ∧ ∃ c, r.2 = Exhausted c).
Proof.
  revert attempt caps.
  induction fuel as [|fuel IH]; intros attempt caps Hf; cbv zeta.
  { destruct (attempt_le attempt maxAttempts) eqn:Hle;
      [apply attempt_le_budget in Hle; lia|].
    rewrite loop_done by done. by left. }
  destruct (attempt_le attempt maxAttempts) eqn:Hle;
    [|rewrite loop_done by done; by left].
  rewrite loop_step by done.
  assert (∀ caps',
    let r := after (EvFetch attempt :: wait attempt maxAttempts)
               (pollLoop net emailClients maxAttempts fuel (S attempt) caps')
    in
    let n := fetch_count r.1 in
    r.1 = schedule attempt n
    ∨ (r.1 = (schedule attempt n ++ [EvSleep (attempt + n - 1)])%list
       ∧ 1 ≤ n
       ∧ attempt + n - 1 = budget maxAttempts
       ∧ attempt_lt (attempt + n - 1) maxAttempts = true
       ∧ ∃ c, r.2 = Exhausted c)) as Hrec.
  { intros caps'. cbv zeta. rewrite fetch_count_after.
    set (r' := pollLoop net emailClients maxAttempts fuel (S attempt) caps').
    assert (budget maxAttempts < fuel + S attempt) as Hf' by lia.
    pose proof (IH (S attempt) caps' Hf') as Hr'. cbv zeta in Hr'.
    fold r' in Hr'.
    destruct (fetch_count r'.1) as [|n'] eqn:Hn.
    - (* the next attempt is beyond the bound *)
      pose proof (loop_no_fetch fuel (S attempt) caps' Hf' Hn) as Hgt.
      assert (r' = ([], Exhausted caps')) as Hdone
        by (unfold r'; by rewrite loop_done).
      rewrite Hdone. unfold after, wait. cbn [fst snd app].
      destruct (attempt_lt attempt maxAttempts) eqn:Hlt; [|by left].
      right. destruct (attempt_lt_le _ _ Hlt Hgt) as (_ & _ & Hfl).
      replace (attempt + 1 - 1) with attempt by lia.
      split; [done|]. split; [lia|]. split; [unfold budget; lia|].
      split; [done|]. by exists caps'.
    - (* the next attempt is made, so this one ends with a sleep *)
      assert (attempt_le (S attempt) maxAttempts = true) as Hnext.
      { apply not_false_iff_true. intros Hgt.
        unfold r' in Hn. rewrite loop_done in Hn by done. done. }
      apply attempt_le_S_lt in Hnext.
      unfold after, wait. rewrite Hnext. cbn [fst snd app].
      rewrite schedule_more by lia.
      replace (attempt + S (S n') - 1) with (S attempt + S n' - 1) by lia.
      destruct Hr' as [Hs|(Hs & H1 & Hb & Hlt & c & Hc)].
      + left. by rewrite Hs.
      + right. rewrite Hs. split; [done|]. split; [lia|]. split; [done|].
        split; [done|]. by exists c. }
  destruct (fetchResults (net attempt)) as [m|[results|]]; cbv zeta.
  - by left.
  - case_match; [by left|apply Hrec].
  - apply Hrec.
Qed.

End PollingMore.

Example sleep_after_last_fetch :
  getPreviewUrls (fun _ => AxiosError (Some 500)) (5 # 2) (Some "t-1")
    ["gmail"]
  = ([EvFetch 1; EvSleep 1; EvFetch 2; EvSleep 2], Returned ∅).
Proof. vm_compute. reflexivity. Qed.

(** X13: in every run the poller fetches attempts 1, 2, ..., n in order for
    some n and sleeps once between two consecutive fetches.  After the last
    fetch it sleeps only when the attempts are used up and [maxAttempts]
    lies strictly between that attempt and the next; it never does when
    [maxAttempts] is a whole number: the trace of the run is then the
    schedule of as many attempts as it has fetches. *)
Theorem getPreviewUrls_schedule (net : nat → AxiosOutcome)
    (maxAttempts : Q) (test_id : option string)
    (emailClients : list string) :
  let run := getPreviewUrls net maxAttempts test_id emailClients in
  let n := fetch_count run.1 in
  (run.1 = schedule 1 n
   ∨ (run.1 = (schedule 1 n ++ [EvSleep n])%list
      ∧ 1 ≤ n
      ∧ n = budget maxAttempts
      ∧ attempt_lt n maxAttempts = true
      ∧ ∃ urls, run.2 = Returned urls))
  ∧ (∀ m : nat, (maxAttempts == whole m)%Q → run.1 = schedule 1 n).
Proof.
  cbv zeta.
  assert (let run := getPreviewUrls net maxAttempts test_id emailClients in
          let n := fetch_count run.1 in
          run.1 = schedule 1 n
          ∨ (run.1 = (schedule 1 n ++ [EvSleep n])%list
             ∧ 1 ≤ n
             ∧ n = budget maxAttempts
             ∧ attempt_lt n maxAttempts = true
             ∧ ∃ urls, run.2 = Returned urls)) as Hrun.
  { cbv zeta. destruct (truthy test_id) eqn:Ht.
    2:{ left. unfold getPreviewUrls. by rewrite Ht. }
    rewrite run_unfold by done. cbn [fst snd].
    destruct (loop_schedule net emailClients maxAttempts
                (budget maxAttempts) 1 ∅) as [Hs|(Hs & H1 & Hb & Hlt & c & Hc)];
      [lia|by left|].
    right.
    replace (1 + fetch_count
                   (pollLoop net emailClients maxAttempts
                      (budget maxAttempts) 1 ∅).1 - 1)
      with (fetch_count
              (pollLoop net emailClients maxAttempts
                 (budget maxAttempts) 1 ∅).1) in * by lia.
    split; [done|]. split; [done|]. split; [done|]. split; [done|].
    rewrite Hc. by eexists. }
  split; [exact Hrun|].
  intros m Hm. destruct Hrun as [Hs|(_ & _ & Hb & Hlt & _)]; [done|].
  exfalso. apply attempt_lt_spec in Hlt.
  rewrite Hb in Hlt. unfold budget in Hlt.
  assert (Qceiling maxAttempts = Qfloor maxAttempts) as Hcf.
  { rewrite (Qceiling_comp _ _ Hm), (Qfloor_comp _ _ Hm). unfold whole.
    by rewrite Qceiling_Z, Qfloor_Z. }
  lia.
Qed.

Lemma getPreviewUrls_schedule_witness :
  let run := getPreviewUrls (fun _ => AxiosError (Some 500)) 3 (Some "t-1")
               ["gmail"] in
  (3 == whole 3)%Q
  ∧ run.1 = [EvFetch 1; EvSleep 1; EvFetch 2; EvSleep 2; EvFetch 3].
Proof.
  intros run.
  assert (3 == whole 3)%Q as Hm by reflexivity.
  split; [exact Hm|].
  destruct (getPreviewUrls_schedule (fun _ => AxiosError (Some 500)) 3
              (Some "t-1") ["gmail"]) as [_ H].
  exact (H 3 Hm).
Defined.

(** X14: when none of the requested clients bears the name of a member of
    [Object.prototype] and the first snapshot already reports every one of
    them Complete with a non-empty screenshot URL, the run makes that one
    fetch, does not sleep, and returns exactly the requested clients, each
    with the URL the snapshot reports. *)
Theorem getPreviewUrls_first_snapshot_complete (net : nat → AxiosOutcome)
    (maxAttempts : nat) (test_id : option string)
    (emailClients : list string) (results : Results) :
  truthy test_id = true →
  1 ≤ maxAttempts →
  emailClients ≠ [] →
  plain_names emailClients →
  fetchResults (net 1) = inr (Some results) →
  (∀ id, id ∈ emailClients → ∃ u, u ≠ "" ∧ completes_with results id u) →
  ∃ urls,
    getPreviewUrls net maxAttempts test_id emailClients
    = ([EvFetch 1], Returned urls)
    ∧ ∀ id u, urls !! id = Some u
              ↔ id ∈ emailClients ∧ completes_with results id u.
Proof.
  intros Ht Hmax Hne Hplain Hf Hall.
  set (p := processClientResults results emailClients ∅).
  assert (clientsToCheck emailClients results = emailClients) as Hctc.
  { unfold clientsToCheck. by destruct emailClients. }
  assert (clients_in_scope emailClients results = emailClients) as Hscope.
  { unfold clients_in_scope. by destruct emailClients. }
  assert (∀ id, id ∈ emailClients → inherited id = false) as Hown.
  { intros id Hin. apply inherited_spec. unfold plain_names in Hplain.
    rewrite Forall_forall in Hplain. by apply Hplain. }
  assert (∀ id, p.2 !! id
                = if bool_decide (id ∈ emailClients)
                  then entry_step results id None else None) as Hp.
  { intros id. unfold p.
    by rewrite processClientResults_lookup, Hctc, lookup_empty. }
  assert (∀ id u, id ∈ emailClients → completes_with results id u →
                  u ≠ "" ∧ p.2 !! id = Some u) as Hcap.
  { intros id u Hin (d & Hd & Hst & Hsh).
    destruct (Hall id Hin) as (u' & Hu' & d' & Hd' & _ & Hsh').
    rewrite Hd in Hd'. injection Hd' as <-.
    rewrite Hsh in Hsh'. injection Hsh' as <-. split; [done|].
    rewrite Hp, bool_decide_eq_true_2 by done.
    unfold entry_step. rewrite (snapshot_entry_client_of _ _ _ Hd), Hst.
    simpl. rewrite Hsh, (Hown id Hin).
    apply truthy_string_spec in Hu'. by rewrite Hu'. }
  assert (checkIfShouldExit emailClients results p.2 p.1 1 = true) as Hexit.
  { apply checkIfShouldExit_true_iff; [by rewrite Hscope|].
    unfold AllFinished, AllRequestedAppeared, AllCompleteHaveUrls.
    rewrite Hscope, !Forall_forall. split; [|split; [|split]].
    - destruct emailClients as [|a l]; [done|].
      destruct (Hall a) as (u & _ & d & Hd & _); [by left|].
      intros ->. unfold snapshot_entry in Hd. by rewrite lookup_empty in Hd.
    - intros id Hin _. destruct (Hall id Hin) as (u & _ & d & Hd & Hst & _).
      left. unfold reported_status. by rewrite Hd.
    - left. intros id Hin. destruct (Hall id Hin) as (u & _ & d & Hd & _).
      by exists d.
    - left. intros id Hin _. destruct (Hall id Hin) as (u & Hu & Hc).
      exists u. by destruct (Hcap id u Hin Hc). }
  exists (buildFinalResults emailClients p.2). split.
  - rewrite run_unfold, budget_whole by done.
    destruct maxAttempts as [|n]; [lia|].
    rewrite loop_step by (by rewrite attempt_le_whole).
    rewrite Hf. cbv zeta. fold p.
    by rewrite Hexit.
  - intros id u. rewrite buildFinalResults_Some, Hp. split.
    + intros [Hl _]. case_bool_decide as Hin; [|done].
      split; [done|].
      destruct (Hall id Hin) as (u' & Hu' & Hc).
      destruct (Hcap id u' Hin Hc) as [_ Hl'].
      rewrite Hp, bool_decide_eq_true_2 in Hl' by done.
      rewrite Hl in Hl'. by injection Hl' as <-.
    + intros [Hin Hc]. destruct (Hcap id u Hin Hc) as [Hu Hl].
      rewrite Hp in Hl. split; [done|]. split; [done|].
      intros ->. by pose proof (Hown _ Hin).
Qed.

Lemma getPreviewUrls_first_snapshot_complete_witness :
  let snap : Results :=
    {[ "gmail" := Client {| status := Some "Complete";
                            screenshots_default := Some "https://shots/g.png" |} ]} in
  let net := fun _ : nat => Responded (Some snap) in
  (truthy (Some "t-1") = true ∧ 1 ≤ 60 ∧ ["gmail"] ≠ []
   ∧ plain_names ["gmail"]
   ∧ fetchResults (net 1) = inr (Some snap))
  ∧ ∃ urls, getPreviewUrls net 60%nat (Some "t-1") ["gmail"]
            = ([EvFetch 1], Returned urls)
            ∧ ∀ id u, urls !! id = Some u
                      ↔ id ∈ ["gmail"] ∧ completes_with snap id u.
Proof.
  intros snap net.
  assert (plain_names ["gmail"]) as Hp.
  { unfold plain_names. repeat constructor.
    intros H. apply list_elem_of_In in H. simpl in H.
    repeat (destruct H as [H|H]; [discriminate H|]). exact H. }
  split; [split; [reflexivity|split; [lia|split; [discriminate|]]]|].
  { split; [exact Hp|reflexivity]. }
  apply (getPreviewUrls_first_snapshot_complete net 60 (Some "t-1") ["gmail"]
           snap); [reflexivity|lia|discriminate|exact Hp|reflexivity|].
  intros id Hid. apply list_elem_of_singleton in Hid. subst id.
  exists "https://shots/g.png". split; [discriminate|].
  eexists. repeat split; reflexivity.
Defined.

(* --------------------------------------------------------------------- *)
(** ** The returned mapping and the printed figures *)
(* --------------------------------------------------------------------- *)

Section Figures.

Implicit Types (caps : CapturedUrls) (req : list string) (id : string).

Lemma buildFinalResults_filter req caps :
  buildFinalResults req caps
  = filter (fun kv => kv.2 ≠ "" ∧ kv.1 ≠ "__proto__") caps.
Proof.
  apply map_eq. intros id. apply option_eq. intros u.
  rewrite buildFinalResults_Some, map_lookup_filter_Some. done.
Qed.

(** Without a property of its own under [__proto__], the mapping holds
    all the non-empty entries. *)
Lemma buildFinalResults_filter_plain req caps :
  caps !! "__proto__" = None →
  buildFinalResults req caps = filter (fun kv => kv.2 ≠ "") caps.
Proof.
  intros Hp. rewrite buildFinalResults_filter.
  apply map_filter_ext. intros i x Hi. simpl.
  split; [tauto|]. intros Hx. split; [done|]. intros ->. congruence.
Qed.

Lemma filter_length_Permutation {A} (f : A → bool) (l l' : list A) :
  l ≡ₚ l' → length (List.filter f l) = length (List.filter f l').
Proof.
  induction 1 as [|x l l' _ IH|x y l|l1 l2 l3 _ IH1 _ IH2]; simpl.
  - done.
  - destruct (f x); simpl; lia.
  - destruct (f x), (f y); simpl; lia.
  - lia.
Qed.

Lemma filter_length_split {A} (f : A → bool) (l : list A) :
  length (List.filter f l) + length (List.filter (fun x => negb (f x)) l)
  = length l.
Proof. induction l as [|x l IH]; simpl; [done|]. destruct (f x); simpl; lia. Qed.

(** Counting the values of a map that pass a test. *)
Lemma count_values (f : string → bool) caps :
  length (List.filter f (map_to_list caps).*2)
  = size (filter (fun kv : string * string => f kv.2 = true) caps).
Proof.
  induction caps as [|i x m Hi IH] using map_ind.
  { by rewrite map_filter_empty, map_to_list_empty, map_size_empty. }
  rewrite (filter_length_Permutation f _ ((i, x) :: map_to_list m).*2).
  2:{ by rewrite map_to_list_insert. }
  rewrite fmap_cons. cbn [List.filter snd]. destruct (f x) eqn:E.
  - rewrite map_filter_insert_True by done.
    rewrite map_size_insert_None; [cbn [length]; by rewrite IH|].
    by rewrite map_lookup_filter, Hi.
  - rewrite map_filter_insert_False by (simpl; congruence).
    rewrite delete_id by done. done.
Qed.

Lemma successCount_size req caps :
  caps !! "__proto__" = None →
  successCount req caps = size (filter (fun kv => kv.2 ≠ "") caps).
Proof.
  intros Hp. unfold successCount.
  by rewrite length_fmap, length_map_to_list, buildFinalResults_filter_plain.
Qed.

Lemma failedCount_size caps :
  failedCount caps = size (filter (fun kv => ¬ kv.2 ≠ "") caps).
Proof.
  unfold failedCount. rewrite count_values. f_equal.
  apply map_filter_ext. intros i x _. simpl.
  rewrite String.eqb_eq. split; [by intros -> ?|].
  intros H. by destruct (decide (x = "")).
Qed.

Lemma counts_size req caps :
  caps !! "__proto__" = None →
  successCount req caps + failedCount caps = size caps.
Proof.
  intros Hp. rewrite successCount_size, failedCount_size by done.
  rewrite <- map_size_disj_union by apply map_disjoint_filter_complement.
  by rewrite map_filter_union_complement.
Qed.

(** The keys of a map, filtered through their values. *)
Lemma progressCount_success req caps :
  caps !! "__proto__" = None →
  progressCount caps = successCount req caps.
Proof.
  intros Hp. rewrite successCount_size by done. unfold progressCount.
  assert (∀ l : list (string * string),
    (∀ k v, (k, v) ∈ l → caps !! k = Some v) →
    length (List.filter
              (fun id => negb (bool_decide (caps !! id = Some ""))) l.*1)
    = length (List.filter (fun u => negb (String.eqb u "")) l.*2)) as H.
  { induction l as [|[k v] l IH]; intros Hl; [done|].
    rewrite !fmap_cons. cbn [List.filter fst snd].
    rewrite (Hl k v) by (by left).
    assert (bool_decide (Some v = Some "") = String.eqb v "") as ->.
    { destruct (String.eqb_spec v "") as [->|Hne].
      - by apply bool_decide_eq_true_2.
      - apply bool_decide_eq_false_2. congruence. }
    destruct (String.eqb v ""); cbn [negb length]; rewrite IH; try done;
      intros k' v' ?; apply Hl; by right. }
  rewrite H by (intros k v ?; by apply elem_of_map_to_list).
  rewrite count_values. f_equal. apply map_filter_ext. intros i x _. simpl.
  rewrite negb_true_iff. by rewrite String.eqb_neq.
Qed.

Lemma processAll_keys req snapshots caps id :
  req ≠ [] →
  is_Some (processAll req snapshots caps !! id) →
  is_Some (caps !! id) ∨ id ∈ req.
Proof.
  intros Hne. revert caps.
  induction snapshots as [|r rest IH]; intros caps; [by left|].
  rewrite processAll_cons. intros [H|H]%IH; [|by right].
  rewrite processClientResults_lookup in H.
  case_bool_decide as Hin; [|by left].
  right. unfold clientsToCheck in Hin. by destruct req.
Qed.

Lemma clientsToCheck_requested req (results : Results) id :
  id ∈ req → clientsToCheck req results = req.
Proof.
  intros Hin. unfold clientsToCheck.
  destruct req; [by apply elem_of_nil in Hin|done].
Qed.

(** A duplicate-free list that covers the keys of a map splits into the
    keys and the rest. *)
Lemma neverAppeared_length req caps :
  NoDup req →
  plain_names req →
  (∀ id, is_Some (caps !! id) → id ∈ req) →
  size caps + length (neverAppeared req caps) = length req.
Proof.
  intros Hnd Hplain Hdom. unfold neverAppeared.
  assert (List.filter
            (fun id => negb (bool_decide (is_Some (caps !! id))
                             || inherited id)) req
          = List.filter
              (fun id => negb (bool_decide (is_Some (caps !! id)))) req)
    as ->.
  { apply List.filter_ext_in. intros id Hin%list_elem_of_In.
    unfold plain_names in Hplain. rewrite Forall_forall in Hplain.
    rewrite (proj2 (inherited_spec id) (Hplain id Hin)).
    by rewrite orb_false_r. }
  rewrite <- (filter_length_split
                (fun id => bool_decide (is_Some (caps !! id))) req).
  f_equal. rewrite <- size_dom. unfold size, set_size. simpl.
  apply Permutation_length. apply NoDup_Permutation.
  - apply NoDup_elements.
  - apply NoDup_ListNoDup, List.NoDup_filter. by apply NoDup_ListNoDup.
  - intros id. rewrite elem_of_elements, elem_of_dom.
    rewrite list_elem_of_In, List.filter_In, <- list_elem_of_In.
    rewrite bool_decide_eq_true. split; [|tauto].
    intros H. split; [by apply Hdom|done].
Qed.

End Figures.

(** X15: buildFinalResults keeps non-empty entries only: its result
    is a sub-map of the captured-URL map with no empty value, building it
    again from its own result changes nothing, and the list of requested
    clients (which only feeds the messages) has no part in it. *)
Theorem buildFinalResults_fixed (req req' : list string)
    (capturedUrls : CapturedUrls) :
  buildFinalResults req capturedUrls ⊆ capturedUrls
  ∧ (∀ id, buildFinalResults req capturedUrls !! id ≠ Some "")
  ∧ buildFinalResults req (buildFinalResults req' capturedUrls)
    = buildFinalResults req' capturedUrls
  ∧ buildFinalResults req capturedUrls = buildFinalResults req' capturedUrls.
Proof.
  split; [|split; [|split]].
  - rewrite buildFinalResults_filter. apply map_filter_subseteq.
  - intros id [_ [H _]]%buildFinalResults_Some. done.
  - apply map_eq. intros id. apply option_eq. intros u.
    rewrite !buildFinalResults_Some. tauto.
  - by rewrite !buildFinalResults_filter.
Qed.

(** X16: the three figures that buildFinalResults prints account for every
    requested client exactly once.  The successes and the failures are all
    the entries of the captured-URL map; and for a non-empty, duplicate-free
    request in which no client bears the name of a member of
    [Object.prototype], on the map a run of the polling loop is left with,
    successes, failures and never-appeared clients add up to the number of
    requested clients, so that "all ready" is printed exactly when no client
    failed and none is missing. *)
Theorem final_figures_partition (net : nat → AxiosOutcome)
    (requestedClients : list string) (maxAttempts : nat)
    (capturedUrls : CapturedUrls) :
  requestedClients ≠ [] →
  NoDup requestedClients →
  plain_names requestedClients →
  caps_of (pollLoop net requestedClients maxAttempts maxAttempts 1 ∅).2
  = Some capturedUrls →
  successCount requestedClients capturedUrls + failedCount capturedUrls
  = size capturedUrls
  ∧ successCount requestedClients capturedUrls + failedCount capturedUrls
    + length (neverAppeared requestedClients capturedUrls)
    = length requestedClients
  ∧ (allReady requestedClients capturedUrls = true
     ↔ failedCount capturedUrls = 0
       ∧ neverAppeared requestedClients capturedUrls = []).
Proof.
  intros Hne Hnd Hplain Hcaps. apply loop_caps in Hcaps.
  assert (∀ id, is_Some (capturedUrls !! id) → id ∈ requestedClients)
    as Hkeys.
  { intros id Hid. rewrite Hcaps in Hid.
    apply processAll_keys in Hid as [Hid|Hid]; [|done..].
    rewrite lookup_empty in Hid. by destruct Hid. }
  assert (capturedUrls !! "__proto__" = None) as Hproto.
  { apply eq_None_not_Some. intros Hin%Hkeys.
    pose proof Hplain as Hp. unfold plain_names in Hp.
    rewrite Forall_forall in Hp.
    apply (Hp _ Hin). exact (proj1 (bool_decide_eq_true _) proto_inherited). }
  pose proof (counts_size requestedClients capturedUrls Hproto) as Hsize.
  assert (size capturedUrls
          + length (neverAppeared requestedClients capturedUrls)
          = length requestedClients) as Hnever.
  { by apply neverAppeared_length. }
  split; [done|]. split; [lia|].
  unfold allReady. rewrite Nat.eqb_eq, <- length_zero_iff_nil. lia.
Qed.

Lemma final_figures_partition_witness :
  let snap : Results :=
    {[ "gmail" := Client {| status := Some "Complete";
                            screenshots_default := Some "https://shots/g.png" |};
       "lotus" := Client {| status := Some "Bounced";
                            screenshots_default := None |} ]} in
  let net := fun _ : nat => Responded (Some snap) in
  let req := ["gmail"; "lotus"; "aol"] in
  let caps : CapturedUrls :=
    {[ "gmail" := "https://shots/g.png"; "lotus" := "" ]} in
  (req ≠ [] ∧ NoDup req ∧ plain_names req
   ∧ caps_of (pollLoop net req 2%nat 2 1 ∅).2 = Some caps)
  ∧ successCount req caps + failedCount caps
    + length (neverAppeared req caps) = 3.
Proof.
  intros snap net req caps.
  assert (req ≠ []) as H1 by discriminate.
  assert (NoDup req) as H2.
  { apply NoDup_ListNoDup. repeat constructor; simpl; intuition discriminate. }
  assert (plain_names req) as Hp.
  { unfold plain_names. repeat constructor;
      (intros H; apply list_elem_of_In in H; simpl in H;
       repeat (destruct H as [H|H]; [discriminate H|]); exact H). }
  assert (caps_of (pollLoop net req 2%nat 2 1 ∅).2 = Some caps) as H3.
  { vm_compute. reflexivity. }
  split; [by repeat split|].
  destruct (final_figures_partition net req 2 caps H1 H2 Hp H3) as (_ & H & _).
  exact H.
Defined.

(** X17: the progress line agrees with the final result, and the debug
    lists leave no requested client out.  On a captured-URL map without a
    property of its own under [__proto__] (a run never creates one) the
    count that showProgress prints is the number of entries
    buildFinalResults would return; nothing is printed exactly when the
    attempt is not a multiple of 5 and debugging is off; no client is
    listed both as pending and as complete with its URL missing; and after
    a snapshot has been processed every requested client that does not bear
    the name of a member of [Object.prototype] is listed as pending, or as
    complete with its URL missing, or has an entry in the captured-URL
    map. *)
Theorem showProgress_consistent (results : Results)
    (requestedClients : list string) (capturedUrls : CapturedUrls)
    (attempt : nat) (showDebug : bool) (id : string) :
  let caps' := (processClientResults results requestedClients capturedUrls).2 in
  (capturedUrls !! "__proto__" = None →
   ∀ c t,
     ProgressCaptured c t
     ∈ showProgress requestedClients results caps' attempt showDebug →
     c = successCount requestedClients caps' ∧ t = length requestedClients)
  ∧ (showProgress requestedClients results caps' attempt showDebug = []
     ↔ attempt mod 5 ≠ 0 ∧ showDebug = false)
  ∧ ¬ (id ∈ progressPending requestedClients results
       ∧ id ∈ progressCompleteNoUrl requestedClients results caps')
  ∧ (id ∈ requestedClients → id ∉ Object_prototype →
     id ∈ progressPending requestedClients results
     ∨ id ∈ progressCompleteNoUrl requestedClients results caps'
     ∨ is_Some (caps' !! id)).
Proof.
  intros caps'. split; [|split; [|split]].
  - intros Hproto c t.
    assert (caps' !! "__proto__" = None) as Hproto'.
    { unfold caps'. rewrite processClientResults_truthy; [done|].
      by rewrite Hproto. }
    unfold showProgress.
    destruct (negb (attempt mod 5 =? 0) && negb showDebug);
      [by intros ?%elem_of_nil|].
    intros [H|H]%elem_of_cons.
    + injection H as -> ->. by rewrite (progressCount_success requestedClients).
    + destruct showDebug; simpl in H; [|by apply elem_of_nil in H].
      apply elem_of_app in H as [H|H]; case_match;
        try (by apply elem_of_nil in H);
        by apply list_elem_of_singleton in H.
  - unfold showProgress.
    destruct (Nat.eqb_spec (attempt mod 5) 0) as [E|E], showDebug; simpl;
      split; try done; try (by intros [? ?]).
  - unfold progressPending, progressCompleteNoUrl.
    rewrite !list_elem_of_In, !List.filter_In, <- !list_elem_of_In.
    destruct (client_of results id) as [d|]; simpl;
      [|by intros [_ [_ [=]]]].
    destruct (status_is "Complete" (status d)); simpl;
      [by intros [[_ [=]] _]|by intros [_ [_ [=]]]].
  - intros Hin Hid%inherited_spec.
    unfold progressPending, progressCompleteNoUrl.
    rewrite !list_elem_of_In, !List.filter_In, <- !list_elem_of_In.
    assert (caps' !! id = entry_step results id (capturedUrls !! id)) as Hc.
    { unfold caps'. rewrite processClientResults_lookup.
      rewrite bool_decide_eq_true_2; [done|].
      by rewrite (clientsToCheck_requested _ results id). }
    unfold entry_step in Hc. rewrite !truthy_at_plain in * by done.
    destruct (client_of results id) as [d|] eqn:Hd; simpl; [|by left].
    destruct (status_is "Complete" (status d)) eqn:HC; simpl.
    + destruct (truthy (caps' !! id)) eqn:Ht; [|by right; left].
      right; right. apply truthy_Some in Ht as (u & -> & _). done.
    + destruct (status_is "Failed" (status d)
                || status_is "Bounced" (status d)) eqn:HF.
      * right; right. rewrite Hc.
        destruct (truthy (capturedUrls !! id)) eqn:Ht; simpl; [|done].
        apply truthy_Some in Ht as (u & -> & _). done.
      * apply orb_false_iff in HF as [-> ->]. by left.
Qed.

Lemma showProgress_consistent_witness :
  let snap : Results :=
    {[ "gmail" := Client {| status := Some "Complete";
                            screenshots_default := None |} ]} in
  let req := ["gmail"; "aol"] in
  let caps' := (processClientResults snap req ∅).2 in
  ("aol" ∈ req ∧ "aol" ∉ Object_prototype)
  ∧ ProgressCaptured 0 2 ∈ showProgress req snap caps' 5 false
  ∧ 0 = successCount req caps'
  ∧ ("aol" ∈ progressPending req snap
     ∨ "aol" ∈ progressCompleteNoUrl req snap caps'
     ∨ is_Some (caps' !! "aol")).
Proof.
  intros snap req caps'.
  assert ("aol" ∈ req) as Hin.
  { apply list_elem_of_In. simpl. auto. }
  assert ("aol" ∉ Object_prototype) as Hplain.
  { intros H. apply list_elem_of_In in H. simpl in H.
    repeat (destruct H as [H|H]; [discriminate H|]). exact H. }
  assert (ProgressCaptured 0 2 ∈ showProgress req snap caps' 5 false) as Hp.
  { apply list_elem_of_In. vm_compute. auto. }
  destruct (showProgress_consistent snap req ∅ 5 false "aol")
    as (Hcount & _ & _ & Hclass).
  split; [by split|]. split; [exact Hp|].
  split; [exact (proj1 (Hcount eq_refl 0 2 Hp))|].
  exact (Hclass Hin Hplain).
Defined.

(* --------------------------------------------------------------------- *)
(** ** More on the preview list *)
(* --------------------------------------------------------------------- *)

Section PreviewsMore.

Lemma toLower_toUpper c : toLowerChar (toUpperChar c) = toLowerChar c.
Proof. by_char c. Qed.

Lemma toUpperChar_not_underscore c :
  not_underscore c = true → not_underscore (toUpperChar c) = true.
Proof. by_char c. Qed.

Lemma upperAtWordStart_length b s :
  String.length (upperAtWordStart b s) = String.length s.
Proof.
  revert b. induction s as [|c t IH]; intros b; simpl; [done|].
  by rewrite IH.
Qed.

Lemma upperAtWordStart_lower b s :
  toLowerCase (upperAtWordStart b s) = toLowerCase s.
Proof.
  unfold toLowerCase. revert b.
  induction s as [|c t IH]; intros b; simpl; [done|].
  rewrite IH. destruct (is_word c && negb b); [|done].
  by rewrite toLower_toUpper.
Qed.

Lemma upperAtWordStart_no_underscore b s :
  all_chars not_underscore s = true →
  all_chars not_underscore (upperAtWordStart b s) = true.
Proof.
  revert b. induction s as [|c t IH]; intros b; simpl; [done|].
  intros [Hc Ht]%andb_true_iff. rewrite IH by done.
  destruct (is_word c && negb b); [|by rewrite Hc].
  by rewrite toUpperChar_not_underscore.
Qed.

Lemma underscoresToSpaces_shape s :
  String.length (underscoresToSpaces s) = String.length s
  ∧ all_chars not_underscore (underscoresToSpaces s) = true.
Proof.
  unfold underscoresToSpaces.
  induction s as [|c t [IH1 IH2]]; simpl; [done|].
  rewrite IH1, IH2. split; [done|].
  destruct (code c =? 95)%N eqn:E; [done|].
  unfold not_underscore. by rewrite E.
Qed.

Lemma append_length (s1 s2 : string) :
  String.length (s1 ++ s2) = String.length s1 + String.length s2.
Proof.
  induction s1 as [|c t IH]; [done|].
  change (S (String.length (t ++ s2)) = S (String.length t + String.length s2)).
  by rewrite IH.
Qed.

Lemma all_chars_append p (s1 s2 : string) :
  all_chars p (s1 ++ s2) = all_chars p s1 && all_chars p s2.
Proof.
  induction s1 as [|c t IH]; [done|].
  change (p c && all_chars p (t ++ s2)%string
          = p c && all_chars p t && all_chars p s2).
  by rewrite IH, andb_assoc.
Qed.

End PreviewsMore.

(** X18: the preview list loses nothing of the mapping it is built from:
    it has one record per entry, no client twice, and pairing each record's
    client with its url gives the mapping back. *)
Theorem generatedPreviews_round_trip (previewUrlsMap : CapturedUrls) :
  length (generatedPreviews previewUrlsMap) = size previewUrlsMap
  ∧ NoDup (client <$> generatedPreviews previewUrlsMap)
  ∧ list_to_map ((fun p => (client p, url p))
                   <$> generatedPreviews previewUrlsMap)
    = previewUrlsMap.
Proof.
  unfold generatedPreviews.
  assert (∀ l : list (string * string),
    (fun p => (client p, url p))
      <$> ((fun '(c, u) => {| name := previewName c; url := u; client := c |})
             <$> l) = l) as Hpairs.
  { induction l as [|[c u] l IH]; [done|].
    rewrite !fmap_cons, IH. done. }
  split; [|split].
  - by rewrite length_fmap, length_map_to_list.
  - assert (∀ l : list (string * string),
      client <$> ((fun '(c, u) =>
                     {| name := previewName c; url := u; client := c |})
                    <$> l) = l.*1) as ->.
    { induction l as [|[c u] l IH]; [done|]. rewrite !fmap_cons, IH. done. }
    apply NoDup_fst_map_to_list.
  - rewrite Hpairs. apply list_to_map_to_list.
Qed.

(** X19: the name of a preview is the client identifier up to the case of
    letters and with spaces for underscores, followed by " Preview": it is 8
    characters longer than the identifier, contains no underscore, and its
    lowercase form is the lowercase form of the identifier with the
    underscores replaced. *)
Theorem previewName_shape (c : string) :
  ∃ label,
    previewName c = (label ++ " Preview")%string
    ∧ String.length label = String.length c
    ∧ toLowerCase label = toLowerCase (underscoresToSpaces c)
    ∧ String.length (previewName c) = String.length c + 8
    ∧ all_chars not_underscore (previewName c) = true.
Proof.
  exists (upperAtWordStart false (underscoresToSpaces c)).
  destruct (underscoresToSpaces_shape c) as [Hlen Hno].
  split; [done|]. split; [by rewrite upperAtWordStart_length|].
  split; [apply upperAtWordStart_lower|]. unfold previewName. split.
  - by rewrite append_length, upperAtWordStart_length, Hlen.
  - by rewrite all_chars_append, upperAtWordStart_no_underscore.
Qed.

(* --------------------------------------------------------------------- *)
(** ** The service: factory, upload, and the errors of polling *)
(* --------------------------------------------------------------------- *)

(** X20: the factory returns a service exactly when the selector is
    "emailonacid" up to case and both the API key and the account password
    are given and not empty; the service then holds these credentials and
    the fixed base URL.  Every other selector, "litmus" included, is
    refused with the selector as it was passed in the message. *)
Theorem getEmailPreviewService_succeeds (serviceName key : string)
    (accountPassword : option string) (svc : EmailOnAcidService) :
  (getEmailPreviewService serviceName key accountPassword = inr svc
   ↔ toLowerCase serviceName = "emailonacid"
     ∧ key ≠ "" ∧ password svc ≠ ""
     ∧ accountPassword = Some (password svc)
     ∧ apiKey svc = key
     ∧ baseUrl svc = "https://api.emailonacid.com")
  ∧ (toLowerCase serviceName ≠ "emailonacid" →
     getEmailPreviewService serviceName key accountPassword
     = inl ("Unsupported preview service: " ++ serviceName)%string).
Proof.
  unfold getEmailPreviewService, new_EmailOnAcidService. split.
  - destruct (String.eqb_spec (toLowerCase serviceName) "emailonacid")
      as [Hn|Hn].
    2:{ split; [by case_match|]. by intros [? _]. }
    destruct accountPassword as [p|]; [|split; [done|by intros (_&_&_&?&_)]].
    destruct (truthy_string p) eqn:Hp.
    2:{ split; [done|]. intros (_ & _ & Hs & [= ->] & _).
        apply truthy_string_spec in Hs. congruence. }
    destruct (truthy_string key) eqn:Hk; simpl.
    2:{ split; [done|]. intros (_ & Hs%truthy_string_spec & _). congruence. }
    apply truthy_string_spec in Hp, Hk. split.
    + intros [= <-]. simpl. done.
    + intros (_ & _ & _ & [= ->] & <- & Hb). destruct svc as [k p' b].
      simpl in *. by subst.
  - intros Hn. apply String.eqb_neq in Hn. rewrite Hn. by case_match.
Qed.

Lemma getEmailPreviewService_succeeds_witness :
  toLowerCase "Litmus" ≠ "emailonacid"
  ∧ getEmailPreviewService "Litmus" "key" (Some "secret")
    = inl "Unsupported preview service: Litmus"
  ∧ ∃ svc, getEmailPreviewService "EmailOnAcid" "key" (Some "secret")
           = inr svc.
Proof.
  split; [discriminate|]. split.
  - destruct (getEmailPreviewService_succeeds "Litmus" "key" (Some "secret")
                {| apiKey := "key"; password := "secret"; baseUrl := "" |})
      as [_ H].
    apply H. discriminate.
  - exists {| apiKey := "key"; password := "secret";
              baseUrl := "https://api.emailonacid.com" |}.
    apply getEmailPreviewService_succeeds. simpl.
    repeat split; try reflexivity; discriminate.
Defined.

(** With a test id, polling returns a mapping or throws the
    authentication error. *)
Lemma poll_outcome_with_id (net : nat → AxiosOutcome) (maxAttempts : Q)
    (test_id : option string) (emailClients : list string) :
  truthy test_id = true →
  let run := getPreviewUrls net maxAttempts test_id emailClients in
  (∃ urls, run.2 = Returned urls) ∨ run.2 = Thrown auth_message.
Proof.
  intros Ht. cbv zeta. rewrite run_unfold by done. cbn [snd].
  pose proof (loop_fuel net emailClients maxAttempts (budget maxAttempts) 1 ∅)
    as Hfuel.
  pose proof (loop_throw net emailClients maxAttempts (budget maxAttempts) 1 ∅)
    as Hthrow.
  destruct (pollLoop net emailClients maxAttempts (budget maxAttempts) 1 ∅).2
    as [c|c|m|] eqn:El.
  - left. by eexists.
  - left. by eexists.
  - right. by destruct (Hthrow m eq_refl) as [-> _].
  - exfalso. apply Hfuel; [lia|done].
Qed.

(** X21: getPreviewUrls ends in one of three ways: it returns a mapping, it
    throws "Missing test ID", or it throws the authentication error.  The
    first error is thrown exactly when the test id is missing or empty, the
    second exactly when an attempt it fetched was rejected with HTTP 401. *)
Theorem getPreviewUrls_outcomes (net : nat → AxiosOutcome)
    (maxAttempts : nat) (test_id : option string)
    (emailClients : list string) :
  let run := getPreviewUrls net maxAttempts test_id emailClients in
  ((∃ urls, run.2 = Returned urls)
   ∨ run.2 = Thrown "Missing test ID" ∨ run.2 = Thrown auth_message)
  ∧ (run.2 = Thrown "Missing test ID" ↔ truthy test_id = false)
  ∧ (run.2 = Thrown auth_message
     ↔ ∃ k, EvFetch k ∈ run.1 ∧ net k = AxiosError (Some 401)).
Proof.
  simpl. destruct (truthy test_id) eqn:Ht.
  2:{ unfold getPreviewUrls. rewrite Ht. simpl. split; [by right; left|].
      split; [done|]. split; [done|]. by intros (k & ?%elem_of_nil & _). }
  rewrite run_unfold, budget_whole by done. simpl.
  set (l := pollLoop net emailClients maxAttempts maxAttempts 1 ∅).
  pose proof (loop_fuel net emailClients maxAttempts maxAttempts 1 ∅) as Hfuel.
  pose proof (loop_throw net emailClients maxAttempts maxAttempts 1 ∅) as Hthrow.
  pose proof (loop_auth net emailClients maxAttempts maxAttempts 1 ∅) as Hauth.
  rewrite budget_whole in Hfuel.
  fold l in Hfuel, Hthrow, Hauth.
  destruct l.2 as [c|c|m|] eqn:El.
  - split; [left; by eexists|]. split; [done|]. split; [done|].
    intros (k & Hin & Hk). by destruct (Hauth k Hk Hin).
  - split; [left; by eexists|]. split; [done|]. split; [done|].
    intros (k & Hin & Hk). by destruct (Hauth k Hk Hin).
  - destruct (Hthrow m eq_refl) as (-> & k & Hk & Hin & _).
    split; [by right; right|]. split; [done|]. split; [|done].
    intros _. by exists k.
  - exfalso. apply Hfuel; [lia|done].
Qed.

(** X22: injectHtml returns a test id exactly when the upload is answered
    with a non-empty id, which it returns unchanged, so that polling with
    the id of an upload never throws "Missing test ID": it returns a mapping
    or throws the authentication error. *)
Theorem injectHtml_then_poll (o : PostOutcome) (testId : string)
    (net : nat → AxiosOutcome) (maxAttempts : nat)
    (emailClients : list string) :
  (injectHtml o = inr testId ↔ o = PostResponded (Some testId) ∧ testId ≠ "")
  ∧ (injectHtml o = inr testId →
     let run := getPreviewUrls net maxAttempts (Some testId) emailClients in
     (∃ urls, run.2 = Returned urls) ∨ run.2 = Thrown auth_message).
Proof.
  assert (injectHtml o = inr testId
          ↔ o = PostResponded (Some testId) ∧ testId ≠ "") as Hiff.
  { unfold injectHtml. destruct o as [[id|]|m].
    - destruct (truthy_string id) eqn:E.
      + apply truthy_string_spec in E. split; [by intros [= <-]|].
        by intros [[= <-] _].
      + split; [done|]. intros [[= <-] Hne%truthy_string_spec]. congruence.
    - split; [done|by intros [[=] _]].
    - split; [done|by intros [[=] _]]. }
  split; [exact Hiff|].
  intros [_ Hne]%Hiff.
  apply poll_outcome_with_id. simpl. by apply truthy_string_spec.
Qed.

Lemma injectHtml_then_poll_witness :
  let run := getPreviewUrls (fun _ => AxiosError (Some 401)) 60
               (Some "t-1") ["gmail"] in
  injectHtml (PostResponded (Some "t-1")) = inr "t-1"
  ∧ ((∃ urls, run.2 = Returned urls) ∨ run.2 = Thrown auth_message).
Proof.
  intros run.
  destruct (injectHtml_then_poll (PostResponded (Some "t-1")) "t-1"
              (fun _ => AxiosError (Some 401)) 60 ["gmail"]) as [_ H].
  split; [reflexivity|]. apply H. reflexivity.
Defined.

(* --------------------------------------------------------------------- *)
(** ** globalSetup *)
(* --------------------------------------------------------------------- *)

Section GlobalSetupFacts.

Variable toUpperCase : string → string.
Variables resolveTemp resolveArchive resolveEmails : string → string.

Abbreviation setup :=
  (globalSetup toUpperCase resolveTemp resolveArchive resolveEmails).
Abbreviation stepA := (obtainTestId resolveEmails).

Lemma trimEnd_empty s : trimEnd s = "" ↔ all_chars is_space s = true.
Proof.
  induction s as [|c t IH]; simpl; [done|].
  destruct (trimEnd t) as [|d t'] eqn:E.
  - destruct (is_space c); simpl; [by rewrite <- IH|done].
  - split; [done|]. intros [_ Ht]%andb_true_iff. by apply IH in Ht.
Qed.

Lemma trimStart_spaces s :
  all_chars is_space (trimStart s) = all_chars is_space s.
Proof.
  induction s as [|c t IH]; simpl; [done|].
  destruct (is_space c) eqn:E; simpl; [done|by rewrite E].
Qed.

Lemma trim_empty s : trim s = "" ↔ all_chars is_space s = true.
Proof. unfold trim. by rewrite trimEnd_empty, trimStart_spaces. Qed.

Lemma existingTestId_truthy (e : string → option string) :
  truthy_string (existingTestId e) = true
  ↔ truthy (e "EXISTING_EOA_TEST_ID") = true
    ∨ truthy (e "EOA_TEST_ID") = true.
Proof.
  unfold existingTestId.
  destruct (e "EXISTING_EOA_TEST_ID") as [a|] eqn:Ha; simpl.
  - destruct (truthy_string a) eqn:Ea; simpl; [by split; [left|]|].
    destruct (e "EOA_TEST_ID") as [b|]; simpl.
    + destruct (truthy_string b) eqn:Eb; simpl; [by split; [right|]|].
      split; [done|by intros [|]].
    + split; [done|by intros [|]].
  - destruct (e "EOA_TEST_ID") as [b|]; simpl.
    + destruct (truthy_string b) eqn:Eb; simpl; [by split; [right|]|].
      split; [done|by intros [|]].
    + split; [done|by intros [|]].
Qed.

Lemma stepA_reuse w taskName sanitized clients :
  truthy_string (existingTestId (env w)) = true →
  stepA w taskName sanitized clients
  = ([], if negb (truthy_string (trim (existingTestId (env w))))
         then inl "Provided existing test ID is empty."
         else inr (trim (existingTestId (env w)))).
Proof.
  intros H. unfold obtainTestId. rewrite H. by case_match.
Qed.

Lemma stepA_actions w taskName sanitized clients a :
  a ∈ (stepA w taskName sanitized clients).1 →
  is_write a = false
  ∧ (is_upload a = true → existingTestId (env w) = "").
Proof.
  unfold obtainTestId.
  destruct (truthy_string (existingTestId (env w))) eqn:E.
  { case_match; by intros ?%elem_of_nil. }
  apply not_true_iff_false in E. rewrite truthy_string_spec in E.
  assert (existingTestId (env w) = "") as ->.
  { by destruct (decide (existingTestId (env w) = "")). }
  destruct (readEmail w _); [|by intros ?%elem_of_nil].
  by intros ->%list_elem_of_singleton.
Qed.

Lemma stepA_test_id w taskName sanitized clients acts testId :
  stepA w taskName sanitized clients = (acts, inr testId) → testId ≠ "".
Proof.
  unfold obtainTestId.
  destruct (truthy_string (existingTestId (env w))).
  - destruct (truthy_string (trim (existingTestId (env w)))) eqn:E; simpl;
      [|done].
    intros [= _ <-]. by apply truthy_string_spec.
  - destruct (readEmail w _); [|done]. intros [= _ H].
    unfold injectHtml in H. destruct (post w) as [[id|]|m]; try done.
    destruct (truthy_string id) eqn:E; [|done].
    injection H as <-. by apply truthy_string_spec.
Qed.

(** What is left of globalSetup once its first steps have succeeded. *)
Lemma setup_configured w taskName clients :
  configured toUpperCase w taskName clients →
  setup w
  = match stepA w taskName (sanitizeFilename taskName true) clients with
    | (acts, inl message) => (acts, SetupThrew (handleError message))
    | (acts, inr testId) =>
        let run := getPreviewUrls (net w) (maxAttempts w) (Some testId)
                     clients in
        let polled := (acts ++ (ActPoll <$> run.1))%list in
        match run.2 with
        | Thrown message => (polled, SetupThrew (handleError message))
        | Unfinished => (polled, SetupUnfinished)
        | Returned previewUrlsMap =>
            let previews := generatedPreviews previewUrlsMap in
            let main := previewFile resolveTemp taskName in
            let archive := archiveFile resolveArchive w taskName in
            match writeError w main with
            | Some message => (polled, SetupThrew (handleError message))
            | None =>
                match writeError w archive with
                | Some message =>
                    ((polled ++ [ActWrite main previews])%list,
                     SetupThrew (handleError message))
                | None =>
                    ((polled ++ [ActWrite main previews;
                                 ActWrite archive previews])%list,
                     SetupFinished)
                end
            end
        end
    end.
Proof.
  intros (Ht & Hne & Hc & Hmk & s & k & p & svc & Hcred & Hsvc).
  unfold globalSetup, previewFile, archiveFile. rewrite Ht.
  apply truthy_string_spec in Hne. rewrite Hne. simpl.
  rewrite Hc, Hcred, Hmk, Hsvc.
  destruct (stepA w taskName (sanitizeFilename taskName true) clients)
    as [acts [m|testId]]; [done|].
  destruct (getPreviewUrls (net w) (maxAttempts w) (Some testId) clients)
    as [tr [urls|m|]]; [|done..].
  cbv zeta. cbn [fst snd].
  destruct (writeError w _); [done|].
  destruct (writeError w _); [done|].
  by rewrite <- app_assoc.
Qed.

(** Either a run does not get past its first steps, and then does
    nothing, or these have succeeded. *)
Lemma setup_cases w :
  ((setup w).1 = [] ∧ (setup w).2 ≠ SetupFinished
   ∧ (setup w).2 ≠ SetupUnfinished)
  ∨ ∃ taskName clients, configured toUpperCase w taskName clients.
Proof.
  unfold globalSetup.
  destruct (env w "TASK_NAME") as [t|] eqn:Ht; [|by left].
  destruct (truthy_string t) eqn:Et; simpl; [|by left].
  destruct (defaultClients w) as [m|clients] eqn:Hc; [by left|].
  destruct (getServiceCredentials toUpperCase (env w))
    as [m|[[s k] p]] eqn:Hcred; [by left|].
  destruct (mkdirError w) as [m|] eqn:Hmk; [by left|].
  destruct (getEmailPreviewService s k (Some p)) as [m|svc] eqn:Hsvc;
    [by left|].
  right. exists t, clients. split; [done|].
  split; [by apply truthy_string_spec|]. split; [done|]. split; [done|].
  by exists s, k, p, svc.
Qed.

Lemma elem_of_polls (tr : list Event) a :
  a ∈ ActPoll <$> tr → is_write a = false ∧ is_upload a = false.
Proof. by intros (ev & -> & _)%list_elem_of_fmap. Qed.

End GlobalSetupFacts.

Section GlobalSetupTheorems.

Variable toUpperCase : string → string.
Variables resolveTemp resolveArchive resolveEmails : string → string.

Abbreviation setup' :=
  (globalSetup toUpperCase resolveTemp resolveArchive resolveEmails).

(** X23: with an existing test id in the environment (EXISTING_EOA_TEST_ID,
    or EOA_TEST_ID when that one is unset or empty) globalSetup never
    uploads the HTML.  An id that consists of white space only is not
    ignored: the run fails with the wrapped message "Provided existing test
    ID is empty." without any request; any other id is trimmed and polled,
    as the first thing the run does. *)
Theorem globalSetup_reuse (w : SetupWorld) (taskName : string)
    (clients : list string) :
  truthy (env w "EXISTING_EOA_TEST_ID") = true
  ∨ truthy (env w "EOA_TEST_ID") = true →
  (∀ a, a ∈ (setup' w).1 → is_upload a = false)
  ∧ (configured toUpperCase w taskName clients →
     if all_chars is_space (existingTestId (env w))
     then setup' w
          = ([], SetupThrew
                   "Preview generation failed: Provided existing test ID is empty.")
     else ∃ rest,
       (setup' w).1
       = ((ActPoll
             <$> (getPreviewUrls (net w) (maxAttempts w)
                    (Some (trim (existingTestId (env w)))) clients).1)
          ++ rest)%list).
Proof.
  intros Hex%existingTestId_truthy.
  pose proof (stepA_reuse resolveEmails w) as HA.
  split.
  - intros a Hin.
    destruct (setup_cases toUpperCase resolveTemp resolveArchive
                resolveEmails w) as [(Hnil & _)|(t & c & Hconf)].
    { rewrite Hnil in Hin. by apply elem_of_nil in Hin. }
    rewrite (setup_configured _ _ _ _ _ _ _ Hconf), HA in Hin by done.
    destruct (truthy_string (trim (existingTestId (env w)))); simpl in Hin.
    + destruct (getPreviewUrls _ _ _ _).2; simpl in Hin.
      * cbv zeta in Hin.
        destruct (writeError w _);
          [by destruct (elem_of_polls _ _ Hin)|].
        destruct (writeError w _);
          apply elem_of_app in Hin as [Hin|Hin];
          try (by destruct (elem_of_polls _ _ Hin)).
        -- by apply list_elem_of_singleton in Hin as ->.
        -- apply elem_of_cons in Hin as [->|Hin]; [done|].
           by apply list_elem_of_singleton in Hin as ->.
      * by destruct (elem_of_polls _ _ Hin).
      * by destruct (elem_of_polls _ _ Hin).
    + by apply elem_of_nil in Hin.
  - intros Hconf.
    rewrite (setup_configured _ _ _ _ _ _ _ Hconf), HA by done.
    destruct (all_chars is_space (existingTestId (env w))) eqn:Esp.
    + apply trim_empty in Esp. rewrite Esp. done.
    + assert (truthy_string (trim (existingTestId (env w))) = true) as ->.
      { apply truthy_string_spec. intros H%trim_empty. congruence. }
      simpl. destruct (getPreviewUrls _ _ _ _).2; simpl;
        [|exists []; by rewrite app_nil_r..].
      cbv zeta. destruct (writeError w _); [exists []; by rewrite app_nil_r|].
      destruct (writeError w _); by eexists.
Qed.

(** X24: globalSetup writes at most two files, as its last actions and in
    this order: the preview file named after the sanitized task name, then
    the archive copy named after it and the time stamp, both with the same
    preview list.  It finishes exactly when both are written; when the
    second write throws, the first file is there and the run fails with the
    wrapped error of the second.  A run that is skipped or fails earlier
    writes nothing, and without a task name the run is skipped without any
    action. *)
Theorem globalSetup_files (w : SetupWorld) :
  (setup' w).2 ≠ SetupUnfinished
  ∧ (env w "TASK_NAME" = None ∨ env w "TASK_NAME" = Some "" →
     setup' w = ([], SetupSkipped))
  ∧ ∃ acts,
      (∀ a, a ∈ acts → is_write a = false)
      ∧ (((setup' w).1 = acts ∧ (setup' w).2 ≠ SetupFinished)
         ∨ ∃ taskName previews,
             env w "TASK_NAME" = Some taskName
             ∧ writeError w (previewFile resolveTemp taskName) = None
             ∧ ((∃ message,
                   writeError w (archiveFile resolveArchive w taskName)
                   = Some message
                   ∧ setup' w
                     = ((acts
                         ++ [ActWrite (previewFile resolveTemp taskName)
                               previews])%list,
                        SetupThrew (handleError message)))
                ∨ (writeError w (archiveFile resolveArchive w taskName) = None
                   ∧ setup' w
                     = ((acts
                         ++ [ActWrite (previewFile resolveTemp taskName)
                               previews;
                             ActWrite (archiveFile resolveArchive w taskName)
                               previews])%list,
                        SetupFinished)))).
Proof.
  split; [|split].
  { destruct (setup_cases toUpperCase resolveTemp resolveArchive
                resolveEmails w) as [(_ & _ & H)|(t & c & Hconf)]; [done|].
    rewrite (setup_configured _ _ _ _ _ _ _ Hconf).
    destruct (obtainTestId resolveEmails w t _ c) as [acts [m|testId]] eqn:EA;
      [done|].
    pose proof (stepA_test_id _ _ _ _ _ _ _ EA) as Hne.
    destruct (poll_outcome_with_id (net w) (maxAttempts w) (Some testId) c)
      as [[urls Hr]|Hr]; [by apply truthy_string_spec| |];
      simpl in Hr |- *; rewrite Hr; [|done].
    cbv zeta. by repeat destruct (writeError w _). }
  { unfold globalSetup. by intros [-> | ->]. }
  destruct (setup_cases toUpperCase resolveTemp resolveArchive
              resolveEmails w) as [(Hnil & Hf & _)|(t & c & Hconf)].
  { exists []. split; [by intros a ?%elem_of_nil|]. by left. }
  rewrite (setup_configured _ _ _ _ _ _ _ Hconf).
  destruct Hconf as (Ht & _).
  pose proof (stepA_actions resolveEmails w t (sanitizeFilename t true) c)
    as Hacts.
  destruct (obtainTestId resolveEmails w t _ c) as [acts [m|testId]] eqn:EA.
  { exists acts. split; [intros a Hin; by apply Hacts|]. by left. }
  assert (∀ a, a ∈ (acts ++ (ActPoll
            <$> (getPreviewUrls (net w) (maxAttempts w) (Some testId) c).1))%list
          → is_write a = false) as Hpolled.
  { intros a [Hin|Hin]%elem_of_app; [by apply Hacts|].
    by destruct (elem_of_polls _ _ Hin). }
  exists (acts ++ (ActPoll
            <$> (getPreviewUrls (net w) (maxAttempts w) (Some testId) c).1))%list.
  split; [exact Hpolled|].
  cbv zeta. destruct (getPreviewUrls _ _ _ _).2 as [urls|m|]; [|by left..].
  destruct (writeError w (previewFile resolveTemp t)) as [m1|] eqn:E1;
    [by left|].
  right. exists t, (generatedPreviews urls). split; [done|]. split; [done|].
  destruct (writeError w (archiveFile resolveArchive w t)) as [m2|] eqn:E2.
  - left. by exists m2.
  - by right.
Qed.

(** X25: once its first steps have succeeded (the task name, the clients
    file, the credentials, the output folders and the factory), every
    failure of globalSetup is wrapped by handleError, and polling is only ever started with a
    non-empty test id: the run finishes, or fails with the wrapped error of
    STEP A (no usable test id, no HTML file, a failed upload), or with the
    wrapped authentication error of polling, or with the wrapped error of
    writing one of its two files. *)
Theorem globalSetup_failures (w : SetupWorld) (taskName : string)
    (clients : list string) :
  configured toUpperCase w taskName clients →
  match (obtainTestId resolveEmails w taskName
           (sanitizeFilename taskName true) clients).2 with
  | inl message =>
      (setup' w).2 = SetupThrew ("Preview generation failed: " ++ message)
  | inr testId =>
      testId ≠ ""
      ∧ (((setup' w).2 = SetupFinished
          ∧ writeError w (previewFile resolveTemp taskName) = None
          ∧ writeError w (archiveFile resolveArchive w taskName) = None)
         ∨ (setup' w).2
           = SetupThrew ("Preview generation failed: " ++ auth_message)
         ∨ ∃ path message,
             (path = previewFile resolveTemp taskName
              ∨ path = archiveFile resolveArchive w taskName)
             ∧ writeError w path = Some message
             ∧ (setup' w).2
               = SetupThrew ("Preview generation failed: " ++ message))
  end.
Proof.
  intros Hconf. rewrite (setup_configured _ _ _ _ _ _ _ Hconf).
  destruct (obtainTestId resolveEmails w taskName _ clients)
    as [acts [m|testId]] eqn:EA; simpl; [done|].
  pose proof (stepA_test_id _ _ _ _ _ _ _ EA) as Hne. split; [done|].
  destruct (poll_outcome_with_id (net w) (maxAttempts w) (Some testId) clients)
    as [[urls Hr]|Hr]; [by apply truthy_string_spec| |];
    simpl in Hr; rewrite Hr; [|by right; left].
  cbv zeta.
  destruct (writeError w (previewFile resolveTemp taskName)) as [m1|] eqn:E1.
  { right; right. exists (previewFile resolveTemp taskName), m1.
    split; [by left|done]. }
  destruct (writeError w (archiveFile resolveArchive w taskName))
    as [m2|] eqn:E2.
  { right; right. exists (archiveFile resolveArchive w taskName), m2.
    split; [by right|done]. }
  by left.
Qed.

(** X26: the credentials that getServiceCredentials returns are all three
    non-empty, the service selector in lowercase; with them the factory
    never complains about a missing key or password: it returns the service
    holding them when the selector is "emailonacid", and refuses any other
    selector as unsupported. *)
Theorem getServiceCredentials_then_factory (e : string → option string)
    (s k p : string) :
  getServiceCredentials toUpperCase e = inr (s, k, p) →
  s ≠ "" ∧ k ≠ "" ∧ p ≠ ""
  ∧ Some s = toLowerCase <$> e "EMAIL_PREVIEW_SERVICE"
  ∧ e "EMAILONACID_ACCOUNT_PASSWORD" = Some p
  ∧ getEmailPreviewService s k (Some p)
    = if String.eqb s "emailonacid"
      then inr {| apiKey := k; password := p;
                  baseUrl := "https://api.emailonacid.com" |}
      else inl ("Unsupported preview service: " ++ s)%string.
Proof.
  unfold getServiceCredentials.
  destruct (e "EMAIL_PREVIEW_SERVICE") as [raw|] eqn:Hraw; simpl; [|done].
  destruct (e (toUpperCase (toLowerCase raw) ++ "_API_KEY")%string)
    as [k'|]; [|done].
  destruct (e "EMAILONACID_ACCOUNT_PASSWORD") as [p'|]; [|done].
  destruct (truthy_string (toLowerCase raw)) eqn:Es; simpl; [|done].
  destruct (truthy_string k') eqn:Ek; simpl; [|done].
  destruct (truthy_string p') eqn:Ep; simpl; [|done].
  intros [= <- <- <-].
  pose proof Es as Es'. pose proof Ek as Ek'. pose proof Ep as Ep'.
  apply truthy_string_spec in Es', Ek', Ep'.
  repeat (split; [done|]).
  unfold getEmailPreviewService, new_EmailOnAcidService.
  rewrite toLowerCase_idemp, Ep, Ek. simpl.
  destruct (String.eqb (toLowerCase raw) "emailonacid"); [done|].
  by case_match.
Qed.

End GlobalSetupTheorems.

Lemma sample_configured (existing : string) :
  configured sample_toUpperCase (sample_world existing) "EB 21397 Staging"
    ["gmail"].
Proof.
  split; [reflexivity|]. split; [discriminate|]. split; [reflexivity|].
  split; [reflexivity|].
  exists "emailonacid", "key", "secret",
    {| apiKey := "key"; password := "secret";
       baseUrl := "https://api.emailonacid.com" |}.
  split; reflexivity.
Qed.

Lemma globalSetup_reuse_witness :
  let setup_ := globalSetup sample_toUpperCase (String.append "temp/")
                  (String.append "temp/archives/") (String.append "emails/") in
  (truthy (env (sample_world " 4711 ") "EXISTING_EOA_TEST_ID") = true
   ∧ truthy (env (sample_world "   ") "EXISTING_EOA_TEST_ID") = true)
  ∧ (∀ a, a ∈ (setup_ (sample_world " 4711 ")).1 → is_upload a = false)
  ∧ setup_ (sample_world "   ")
    = ([], SetupThrew
             "Preview generation failed: Provided existing test ID is empty.")
  ∧ ∃ rest,
      (setup_ (sample_world " 4711 ")).1
      = ((ActPoll
            <$> (getPreviewUrls (net (sample_world " 4711 "))
                   (maxAttempts (sample_world " 4711 ")) (Some "4711")
                   ["gmail"]).1)
         ++ rest)%list.
Proof.
  intros setup_.
  assert (truthy (env (sample_world " 4711 ") "EXISTING_EOA_TEST_ID") = true)
    as H1 by reflexivity.
  assert (truthy (env (sample_world "   ") "EXISTING_EOA_TEST_ID") = true)
    as H2 by reflexivity.
  destruct (globalSetup_reuse sample_toUpperCase (String.append "temp/")
              (String.append "temp/archives/") (String.append "emails/")
              (sample_world " 4711 ") "EB 21397 Staging" ["gmail"]
              (or_introl H1)) as [Hno Hpoll].
  destruct (globalSetup_reuse sample_toUpperCase (String.append "temp/")
              (String.append "temp/archives/") (String.append "emails/")
              (sample_world "   ") "EB 21397 Staging" ["gmail"]
              (or_introl H2)) as [_ Hblank].
  split; [by split|]. split; [exact Hno|]. split.
  - exact (Hblank (sample_configured "   ")).
  - exact (Hpoll (sample_configured " 4711 ")).
Defined.

Example globalSetup_archive_write_fails :
  globalSetup sample_toUpperCase (String.append "temp/")
    (String.append "temp/archives/") (String.append "emails/")
    (sample_world_no_archive "4711")
  = ([ActPoll (EvFetch 1);
      ActWrite "temp/generated-preview-urls-eb-21397-staging.json"
        [{| name := "Gmail Preview"; url := "https://shots/g.png";
            client := "gmail" |}]],
     SetupThrew "Preview generation failed: EACCES: permission denied").
Proof. vm_compute. reflexivity. Qed.

Lemma globalSetup_files_witness :
  let setup_ := globalSetup sample_toUpperCase (String.append "temp/")
                  (String.append "temp/archives/") (String.append "emails/") in
  (env sample_world_no_env "TASK_NAME" = None
   ∨ env sample_world_no_env "TASK_NAME" = Some "")
  ∧ setup_ sample_world_no_env = ([], SetupSkipped)
  ∧ (setup_ (sample_world_no_archive "4711")).2 ≠ SetupUnfinished.
Proof.
  intros setup_.
  assert (env sample_world_no_env "TASK_NAME" = None
          ∨ env sample_world_no_env "TASK_NAME" = Some "") as H
    by (left; reflexivity).
  destruct (globalSetup_files sample_toUpperCase (String.append "temp/")
              (String.append "temp/archives/") (String.append "emails/")
              sample_world_no_env) as (_ & Hskip & _).
  destruct (globalSetup_files sample_toUpperCase (String.append "temp/")
              (String.append "temp/archives/") (String.append "emails/")
              (sample_world_no_archive "4711")) as (Hend & _).
  split; [exact H|]. split; [exact (Hskip H)|exact Hend].
Defined.

Lemma globalSetup_failures_witness :
  let setup_ := globalSetup sample_toUpperCase (String.append "temp/")
                  (String.append "temp/archives/") (String.append "emails/") in
  let w := sample_world "" in
  configured sample_toUpperCase w "EB 21397 Staging" ["gmail"]
  ∧ (setup_ w).2
    = SetupThrew
        ("Preview generation failed: "
         ++ "Could not find email HTML file at emails/eb-21397-staging.html. Place it there or set EXISTING_EOA_TEST_ID.").
Proof.
  intros setup_ w. split; [apply sample_configured|].
  exact (globalSetup_failures sample_toUpperCase (String.append "temp/")
           (String.append "temp/archives/") (String.append "emails/") w
           "EB 21397 Staging" ["gmail"] (sample_configured "")).
Defined.

Lemma getServiceCredentials_then_factory_witness :
  getServiceCredentials sample_toUpperCase (sample_env "")
  = inr ("emailonacid", "key", "secret")
  ∧ getEmailPreviewService "emailonacid" "key" (Some "secret")
    = inr {| apiKey := "key"; password := "secret";
             baseUrl := "https://api.emailonacid.com" |}.
Proof.
  assert (getServiceCredentials sample_toUpperCase (sample_env "")
          = inr ("emailonacid", "key", "secret")) as H by reflexivity.
  split; [exact H|].
  destruct (getServiceCredentials_then_factory sample_toUpperCase
              (sample_env "") "emailonacid" "key" "secret" H)
    as (_ & _ & _ & _ & _ & Hf).
  exact Hf.
Defined.

(* --------------------------------------------------------------------- *)
(** ** The generated tests, and the two variants of globalSetup *)
(* --------------------------------------------------------------------- *)

Section TestsAndVariants.

Lemma append_same_length (s1 s2 t1 t2 : string) :
  String.length s1 = String.length s2 →
  (s1 ++ t1 = s2 ++ t2)%string → s1 = s2 ∧ t1 = t2.
Proof.
  revert s2. induction s1 as [|c s1 IH]; intros [|d s2]; try done.
  intros [= Hl].
  change (String c (s1 ++ t1) = String d (s2 ++ t2) →
          String c s1 = String d s2 ∧ t1 = t2)%string.
  intros [= -> H]. destruct (IH s2 Hl H) as [-> ->]. done.
Qed.

Lemma append_inj_r (s t1 t2 : string) : (t1 ++ s = t2 ++ s)%string → t1 = t2.
Proof.
  intros H.
  assert (String.length t1 = String.length t2) as Hl.
  { apply (f_equal String.length) in H. rewrite !append_length in H. lia. }
  by destruct (append_same_length t1 t2 s s Hl H).
Qed.

Lemma title_inj (c1 c2 : string) :
  (previewName c1 ++ " (" ++ c1 ++ ")" = previewName c2 ++ " (" ++ c2 ++ ")")%string
  → c1 = c2.
Proof.
  intros H.
  assert (String.length c1 = String.length c2) as Hl.
  { apply (f_equal String.length) in H.
    unfold previewName in H.
    rewrite !append_length, !upperAtWordStart_length in H.
    destruct (underscoresToSpaces_shape c1) as [H1 _].
    destruct (underscoresToSpaces_shape c2) as [H2 _].
    rewrite H1, H2 in H. simpl in H. lia. }
  apply append_same_length in H as [_ H].
  - apply (append_same_length " (" " (" _ _ eq_refl) in H as [_ H].
    by apply append_inj_r in H.
  - unfold previewName.
    rewrite !append_length, !upperAtWordStart_length.
    destruct (underscoresToSpaces_shape c1) as [-> _].
    destruct (underscoresToSpaces_shape c2) as [-> _]. by rewrite Hl.
Qed.


End TestsAndVariants.

Lemma files_after_writes (acts : list SetupAction) (p1 p2 : string)
    (previews : list GeneratedPreview) :
  files_after (acts ++ [ActWrite p1 previews; ActWrite p2 previews])%list p1
  = Some previews.
Proof.
  unfold files_after. rewrite foldl_app. cbn [foldl].
  rewrite String.eqb_refl. by destruct (String.eqb p2 p1).
Qed.

Lemma blueprintTests_distinct (previewUrlsMap : CapturedUrls) :
  length (blueprintTests (generatedPreviews previewUrlsMap))
  = size previewUrlsMap
  ∧ NoDup (title <$> blueprintTests (generatedPreviews previewUrlsMap)).
Proof.
  unfold blueprintTests, generatedPreviews. split.
  - by rewrite !length_fmap, length_map_to_list.
  - rewrite <- !list_fmap_compose.
    apply NoDup_fmap_2_strong; [|apply NoDup_map_to_list].
    intros [c1 u1] [c2 u2] H1 H2 Ht. simpl in Ht.
    apply title_inj in Ht as ->. f_equal.
    apply elem_of_map_to_list in H1, H2. congruence.
Qed.

(** A run of globalSetup that finishes has polled a test, and ends with
    the two writes of the previews of the mapping that polling returned. *)
Lemma setup_finished (toUpperCase : string → string)
    (resolveTemp resolveArchive resolveEmails : string → string)
    (w : SetupWorld) :
  (globalSetup toUpperCase resolveTemp resolveArchive resolveEmails w).2
  = SetupFinished →
  ∃ taskName clients testId previewUrlsMap acts,
    configured toUpperCase w taskName clients
    ∧ (getPreviewUrls (net w) (maxAttempts w) (Some testId) clients).2
      = Returned previewUrlsMap
    ∧ (globalSetup toUpperCase resolveTemp resolveArchive resolveEmails w).1
      = (acts
         ++ [ActWrite
               (resolveTemp
                  ("generated-preview-urls-"
                   ++ sanitizeFilename taskName true ++ ".json")%string)
               (generatedPreviews previewUrlsMap);
             ActWrite
               (resolveArchive
                  ("generated-preview-urls-"
                   ++ sanitizeFilename taskName true ++ "-"
                   ++ verboseTimestamp w ++ ".json")%string)
               (generatedPreviews previewUrlsMap)])%list.
Proof.
  destruct (setup_cases toUpperCase resolveTemp resolveArchive
              resolveEmails w) as [(_ & Hf & _)|(t & c & Hconf)]; [done|].
  rewrite (setup_configured _ _ _ _ _ _ _ Hconf).
  destruct (obtainTestId resolveEmails w t _ c) as [acts [m|testId]];
    [done|].
  cbv zeta.
  destruct (getPreviewUrls (net w) (maxAttempts w) (Some testId) c).2
    as [urls|m|] eqn:Er; [|done..].
  destruct (writeError w _); [done|].
  destruct (writeError w _); [done|].
  intros _. exists t, c, testId, urls. eexists. split; [done|].
  split; [done|]. reflexivity.
Qed.

(** X27: the tests that blueprint.spec.ts declares after a run of
    globalSetup that finished.  The suite reads the file that the run wrote
    and gets the previews of the mapping that polling returned; for an empty
    mapping it declares the skipped placeholder, otherwise the checks named
    after the task: one test per entry of the mapping, with pairwise
    distinct titles, as the test runner requires. *)
Theorem blueprintSuite_after_globalSetup (toUpperCase : string → string)
    (resolveTemp resolveArchive resolveEmails : string → string)
    (w : SetupWorld) :
  (globalSetup toUpperCase resolveTemp resolveArchive resolveEmails w).2
  = SetupFinished →
  ∃ taskName clients testId previewUrlsMap,
    env w "TASK_NAME" = Some taskName
    ∧ (getPreviewUrls (net w) (maxAttempts w) (Some testId) clients).2
      = Returned previewUrlsMap
    ∧ blueprintSuite resolveTemp (env w "TASK_NAME")
        (files_after
           (globalSetup toUpperCase resolveTemp resolveArchive
              resolveEmails w).1)
      = (if bool_decide (previewUrlsMap = ∅)
         then SuiteEmpty ("No Previews Available: " ++ taskName)
                "No preview URLs found; global setup may have failed."
         else SuiteChecks ("Visual Email Checks: " ++ taskName)
                (blueprintTests (generatedPreviews previewUrlsMap)))
    ∧ length (blueprintTests (generatedPreviews previewUrlsMap))
      = size previewUrlsMap
    ∧ NoDup (title <$> blueprintTests (generatedPreviews previewUrlsMap)).
Proof.
  intros (t & c & testId & urls & acts & Hconf & Hr & Hacts)%setup_finished.
  destruct (blueprintTests_distinct urls) as [Hlen Hnd].
  exists t, c, testId, urls.
  destruct Hconf as (Ht & Hne & _).
  split; [done|]. split; [done|]. split; [|done].
  unfold blueprintSuite. rewrite Ht, Hacts.
  apply truthy_string_spec in Hne. rewrite Hne. cbv zeta.
  rewrite files_after_writes. cbn [negb default from_option id].
  assert (length (generatedPreviews urls) = size urls) as Hsize.
  { unfold generatedPreviews. by rewrite length_fmap, length_map_to_list. }
  rewrite Hsize.
  destruct (bool_decide (urls = ∅)) eqn:Ee.
  - apply bool_decide_eq_true in Ee. subst urls.
    by rewrite map_size_empty.
  - apply bool_decide_eq_false in Ee.
    assert (size urls ≠ 0) as Hs by (by intros ?%map_size_empty_iff).
    by destruct (size urls).
Qed.

Lemma blueprintSuite_after_globalSetup_witness :
  let setup_ := globalSetup sample_toUpperCase (String.append "temp/")
                  (String.append "temp/archives/") (String.append "emails/") in
  let w := sample_world "4711" in
  (setup_ w).2 = SetupFinished
  ∧ ∃ taskName clients testId previewUrlsMap,
      env w "TASK_NAME" = Some taskName
      ∧ (getPreviewUrls (net w) (maxAttempts w) (Some testId) clients).2
        = Returned previewUrlsMap
      ∧ blueprintSuite (String.append "temp/") (env w "TASK_NAME")
          (files_after (setup_ w).1)
        = (if bool_decide (previewUrlsMap = ∅)
           then SuiteEmpty ("No Previews Available: " ++ taskName)
                  "No preview URLs found; global setup may have failed."
           else SuiteChecks ("Visual Email Checks: " ++ taskName)
                  (blueprintTests (generatedPreviews previewUrlsMap)))
      ∧ length (blueprintTests (generatedPreviews previewUrlsMap))
        = size previewUrlsMap
      ∧ NoDup (title <$> blueprintTests (generatedPreviews previewUrlsMap)).
Proof.
  intros setup_ w.
  assert ((setup_ w).2 = SetupFinished) as Hfin by (vm_compute; reflexivity).
  split; [exact Hfin|].
  exact (blueprintSuite_after_globalSetup sample_toUpperCase
           (String.append "temp/") (String.append "temp/archives/")
           (String.append "emails/") w Hfin).
Defined.



(* --------------------------------------------------------------------- *)
(** ** The authorization header *)
(* --------------------------------------------------------------------- *)

Ltac div_lia := zify; Z.to_euclidean_division_equations; lia.

Section AuthHeader.

Local Open Scope N_scope.

Lemma below_64 (P : N → Prop) :
  Forall P sextets → ∀ x, x < 64 → P x.
Proof.
  intros H x Hx. rewrite Forall_forall in H. apply H.
  unfold sextets. apply list_elem_of_fmap. exists (N.to_nat x).
  split; [by rewrite N2Nat.id|].
  apply list_elem_of_In, in_seq. lia.
Qed.

Lemma base64_char_index x :
  x < 64 →
  base64_index (base64_char x) = x
  ∧ (code (base64_char x) =? 61) = false
  ∧ is_base64_char (base64_char x) = true.
Proof.
  revert x. apply below_64.
  apply Forall_forall. intros x Hx.
  assert (forallb (fun x => (base64_index (base64_char x) =? x)
                            && negb (code (base64_char x) =? 61)
                            && is_base64_char (base64_char x)) sextets
          = true) as Hall by (vm_compute; reflexivity).
  rewrite forallb_forall in Hall.
  apply list_elem_of_In, Hall in Hx.
  apply andb_true_iff in Hx as [[H1 H2]%andb_true_iff H3].
  apply N.eqb_eq in H1. apply negb_true_iff in H2. done.
Qed.

Lemma code_bound c : code c < 256.
Proof. apply N_ascii_bounded. Qed.

Lemma code_inj c c' : code c = code c' → c = c'.
Proof.
  intros H. rewrite <- (ascii_N_embedding c), <- (ascii_N_embedding c').
  unfold code in H. by rewrite H.
Qed.

Lemma utf8_bytes s : Forall (fun b => b < 256) (utf8 s).
Proof.
  induction s as [|c t IH]; simpl; [done|].
  apply Forall_app. split; [|done]. unfold utf8_of_char.
  pose proof (code_bound c).
  destruct (N.ltb_spec (code c) 128); repeat constructor; div_lia.
Qed.

Lemma utf8_inj s s' : utf8 s = utf8 s' → s = s'.
Proof.
  revert s'. induction s as [|c t IH]; intros [|c' t']; simpl.
  - done.
  - unfold utf8_of_char. by case_match.
  - unfold utf8_of_char. by case_match.
  - unfold utf8_of_char.
    pose proof (code_bound c). pose proof (code_bound c').
    destruct (N.ltb_spec (code c) 128), (N.ltb_spec (code c') 128); simpl.
    + intros [= Hc Ht]. f_equal; [by apply code_inj|by apply IH].
    + intros [= Hc _]. div_lia.
    + intros [= Hc _]. div_lia.
    + intros [= Hq Hr Ht]. f_equal; [|by apply IH].
      apply code_inj. div_lia.
Qed.

Lemma unbase64_base64 (bytes : list N) :
  Forall (fun b => b < 256) bytes → unbase64 (base64 bytes) = bytes.
Proof.
  assert (∀ n (l : list N), (length l ≤ n)%nat →
            Forall (fun b => b < 256) l → unbase64 (base64 l) = l) as H;
    [|by apply (H (length bytes))].
  induction n as [|n IH]; intros [|a [|b [|c rest]]] Hlen Hb;
    simpl in Hlen; try done; try lia.
  - apply Forall_cons in Hb as [Ha _].
    destruct (base64_char_index (a / 4)) as (E0 & _); [div_lia|].
    destruct (base64_char_index (a mod 4 * 16)) as (E1 & _); [div_lia|].
    cbn [base64 unbase64]. rewrite E0, E1.
    change (code "=" =? 61) with true. cbv iota. f_equal. div_lia.
  - apply Forall_cons in Hb as [Ha [Hb _]%Forall_cons].
    destruct (base64_char_index (a / 4)) as (E0 & _); [div_lia|].
    destruct (base64_char_index (a mod 4 * 16 + b / 16)) as (E1 & _);
      [div_lia|].
    destruct (base64_char_index (b mod 16 * 4)) as (E2 & N2 & _); [div_lia|].
    cbn [base64 unbase64]. rewrite E0, E1, E2, N2.
    change (code "=" =? 61) with true. cbv iota.
    f_equal; [div_lia|]. f_equal. div_lia.
  - apply Forall_cons in Hb as [Ha [Hb [Hc Hrest]%Forall_cons]%Forall_cons].
    destruct (base64_char_index (a / 4)) as (E0 & _); [div_lia|].
    destruct (base64_char_index (a mod 4 * 16 + b / 16)) as (E1 & _);
      [div_lia|].
    destruct (base64_char_index (b mod 16 * 4 + c / 64)) as (E2 & N2 & _);
      [div_lia|].
    destruct (base64_char_index (c mod 64)) as (E3 & N3 & _); [div_lia|].
    cbn [base64 unbase64]. rewrite E0, E1, E2, E3, N2, N3.
    rewrite IH by (done || lia).
    f_equal; [div_lia|]. f_equal; [div_lia|]. f_equal. div_lia.
Qed.

Lemma base64_shape (bytes : list N) :
  Forall (fun b => b < 256) bytes →
  String.length (base64 bytes) = (4 * ((length bytes + 2) / 3))%nat
  ∧ all_chars is_base64_char (base64 bytes) = true.
Proof.
  assert (∀ n (l : list N), (length l ≤ n)%nat →
            Forall (fun b => b < 256) l →
            String.length (base64 l) = (4 * ((length l + 2) / 3))%nat
            ∧ all_chars is_base64_char (base64 l) = true) as H;
    [|by apply (H (length bytes))].
  induction n as [|n IH]; intros [|a [|b [|c rest]]] Hlen Hb;
    simpl in Hlen; try done; try lia.
  - apply Forall_cons in Hb as [Ha _].
    destruct (base64_char_index (a / 4)) as (_ & _ & E0); [div_lia|].
    destruct (base64_char_index (a mod 4 * 16)) as (_ & _ & E1); [div_lia|].
    cbn [base64 all_chars]. rewrite E0, E1. done.
  - apply Forall_cons in Hb as [Ha [Hb _]%Forall_cons].
    destruct (base64_char_index (a / 4)) as (_ & _ & E0); [div_lia|].
    destruct (base64_char_index (a mod 4 * 16 + b / 16)) as (_ & _ & E1);
      [div_lia|].
    destruct (base64_char_index (b mod 16 * 4)) as (_ & _ & E2); [div_lia|].
    cbn [base64 all_chars]. rewrite E0, E1, E2. done.
  - apply Forall_cons in Hb as [Ha [Hb [Hc Hrest]%Forall_cons]%Forall_cons].
    destruct (base64_char_index (a / 4)) as (_ & _ & E0); [div_lia|].
    destruct (base64_char_index (a mod 4 * 16 + b / 16)) as (_ & _ & E1);
      [div_lia|].
    destruct (base64_char_index (b mod 16 * 4 + c / 64)) as (_ & _ & E2);
      [div_lia|].
    destruct (base64_char_index (c mod 64)) as (_ & _ & E3); [div_lia|].
    destruct (IH rest) as [IHl IHc]; [lia|done|].
    cbn [base64 all_chars String.length length].
    rewrite E0, E1, E2, E3, IHc, IHl. split; [|done].
    clear. generalize (length rest). intros m.
    replace (S (S (S m)) + 2)%nat with (1 * 3 + (m + 2))%nat by lia.
    rewrite Nat.div_add_l by done. lia.
Qed.

Lemma append_cons (c : ascii) (s t : string) :
  (String c s ++ t)%string = String c (s ++ t)%string.
Proof. done. Qed.

Lemma append_empty (t : string) : ("" ++ t)%string = t.
Proof. done. Qed.

Lemma colon_split (k k' p p' : string) :
  has_colon k = false → has_colon k' = false →
  (k ++ ":" ++ p = k' ++ ":" ++ p')%string → k = k' ∧ p = p'.
Proof.
  unfold has_colon. rewrite !negb_false_iff.
  revert k'. induction k as [|c k IH]; intros [|c' k'];
    rewrite ?append_cons, ?append_empty; cbn [all_chars].
  - intros _ _ [= ->]. done.
  - intros _ [Hc _]%andb_true_iff [= <- _]. done.
  - intros [Hc _]%andb_true_iff _ [= -> _]. done.
  - intros [_ Hk]%andb_true_iff [_ Hk']%andb_true_iff [= -> H].
    by destruct (IH k' Hk Hk' H) as [-> ->].
Qed.

End AuthHeader.

Example createAuthHeader_user_pass :
  createAuthHeader "user" "pass" = "Basic dXNlcjpwYXNz".
Proof. reflexivity. Qed.

(** X29: the authorization header loses nothing of the credentials: two
    pairs of API key and password that give the same header have the same
    text "key:password", and are the same pair when neither key contains a
    colon. *)
Theorem createAuthHeader_injective (key pass key' pass' : string) :
  createAuthHeader key pass = createAuthHeader key' pass' →
  (key ++ ":" ++ pass = key' ++ ":" ++ pass')%string
  ∧ (has_colon key = false → has_colon key' = false →
     key = key' ∧ pass = pass').
Proof.
  unfold createAuthHeader. intros H.
  apply (append_same_length "Basic " "Basic " _ _ eq_refl) in H as [_ H].
  apply (f_equal unbase64) in H.
  rewrite !unbase64_base64 in H by apply utf8_bytes.
  apply utf8_inj in H. split; [done|].
  intros Hk Hk'. by apply colon_split.
Qed.

Lemma createAuthHeader_injective_witness :
  createAuthHeader "user" "pa:ss" = createAuthHeader "user" "pa:ss"
  ∧ has_colon "user" = false
  ∧ ("user" = "user" ∧ "pa:ss" = "pa:ss").
Proof.
  assert (createAuthHeader "user" "pa:ss" = createAuthHeader "user" "pa:ss")
    as H by reflexivity.
  split; [exact H|]. split; [reflexivity|].
  destruct (createAuthHeader_injective "user" "pa:ss" "user" "pa:ss" H)
    as [_ Hpair].
  apply Hpair; reflexivity.
Defined.

(** X30: the authorization header is "Basic " followed by the padded
    base64 text of the UTF-8 bytes of "key:password": four characters of
    the base64 alphabet for every three bytes, rounded up. *)
Theorem createAuthHeader_shape (key pass : string) :
  ∃ b64,
    createAuthHeader key pass = ("Basic " ++ b64)%string
    ∧ String.length b64
      = 4 * ((length (utf8 (key ++ ":" ++ pass)%string) + 2) / 3)
    ∧ all_chars is_base64_char b64 = true
    ∧ unbase64 b64 = utf8 (key ++ ":" ++ pass)%string.
Proof.
  exists (base64 (utf8 (key ++ ":" ++ pass)%string)).
  destruct (base64_shape (utf8 (key ++ ":" ++ pass)%string)) as [Hl Hc];
    [apply utf8_bytes|].
  split; [done|]. split; [done|]. split; [done|].
  apply unbase64_base64, utf8_bytes.
Qed.
